(** * PS4 firmware installer ([scripts/install_ps4_firmware.py])

    A shallow embedding of the PUP container reader of the script: the
    [struct] layouts of the header and of the entry table, the in-memory
    byte stream the parser reads from, the entry objects with their file
    name and payload processing, and the extraction into a directory.

    Python integers are [Z], [bytes] objects are lists of [byte], raised
    exceptions are the left summand of a result, and the objects the script
    mutates ([io.BytesIO], [PUP.entries], the output directory) are threaded
    as explicit state. *)

From Stdlib Require Import ZArith Strings.Byte String Ascii List Lia ZifyNat.
From stdpp Require Import gmap strings list fin_maps pretty.

Open Scope Z_scope.

(** ** Bytes and exceptions *)

Abbreviation bytes := (list byte).

Definition byte_to_Z (b : byte) : Z := Z.of_N (Byte.to_N b).

(** The exceptions the script can raise while parsing: [struct.error]
    and [RuntimeError] with their messages, [OverflowError] (an integer
    that does not fit the stream's index type), [ValueError] (a negative
    seek position, a tuple assignment of the wrong arity), [TypeError] (a
    constructor call of the wrong arity), [IndexError] (a list index out
    of range) and [zlib.error] with the library's message. *)
Inductive exn : Type :=
  | StructError (msg : string)
  | RuntimeError (msg : string)
  | OverflowError
  | ValueError
  | TypeError
  | IndexError
  | ZlibError (msg : string).

Abbreviation result A := (exn + A)%type.

(** ** The [struct] module, for the formats the script uses

    Only little-endian formats (byte-order mark [<]: standard sizes, no
    alignment) over the unsigned codes [B], [H], [I] and [Q] are covered;
    anything else is reported as a bad format. *)

Module Struct.

Inductive code : Type := B | H | I | Q.

Definition code_of (c : ascii) : option code :=
  match c with
  | "B" => Some B
  | "H" => Some H
  | "I" => Some I
  | "Q" => Some Q
  | _ => None
  end%char.

Fixpoint codes_of (s : string) : option (list code) :=
  match s with
  | EmptyString => Some []
  | String c s' =>
      match code_of c, codes_of s' with
      | Some c', Some cs => Some (c' :: cs)
      | _, _ => None
      end
  end.

Definition compile (fmt : string) : result (list code) :=
  match fmt with
  | String "<"%char s =>
      match codes_of s with
      | Some cs => inr cs
      | None => inl (StructError "bad char in struct format")
      end
  | _ => inl (StructError "bad char in struct format")
  end.

Definition size (c : code) : Z :=
  match c with B => 1 | H => 2 | I => 4 | Q => 8 end.

Definition size_of (cs : list code) : Z :=
  foldr (fun c acc => size c + acc) 0 cs.

(** [struct.calcsize(fmt)] *)
Definition calcsize (fmt : string) : result Z :=
  match compile fmt with
  | inl e => inl e
  | inr cs => inr (size_of cs)
  end.

(** Little-endian unsigned value of a byte string. *)
Fixpoint le_to_Z (bs : bytes) : Z :=
  match bs with
  | [] => 0
  | b :: bs' => byte_to_Z b + 256 * le_to_Z bs'
  end.

Fixpoint unpack_fields (cs : list code) (buffer : bytes) : list Z :=
  match cs with
  | [] => []
  | c :: cs' =>
      le_to_Z (take (Z.to_nat (size c)) buffer)
        :: unpack_fields cs' (drop (Z.to_nat (size c)) buffer)
  end.

(** [struct.unpack(fmt, buffer)]: the buffer must have exactly the size
    of the format. *)
Definition unpack (fmt : string) (buffer : bytes) : result (list Z) :=
  match compile fmt with
  | inl e => inl e
  | inr cs =>
      if decide (Z.of_nat (length buffer) = size_of cs)
      then inr (unpack_fields cs buffer)
      else inl (StructError ("unpack requires a buffer of "
                               +:+ pretty (size_of cs) +:+ " bytes"))
  end.

End Struct.

(** ** [io.BytesIO], for the two operations the script uses

    Positions and sizes reach the stream as C [Py_ssize_t] values; an
    integer above [PY_SSIZE_T_MAX] ([sys.maxsize] of a 64-bit build) is
    refused with [OverflowError] before the stream is touched. *)

Module BytesIO.

Definition PY_SSIZE_T_MAX : Z := 2 ^ 63 - 1.

Record t : Type := mk { buf : bytes; pos : Z }.

Definition new (initial_bytes : bytes) : t := mk initial_bytes 0.

(** [stream.read(size)]: at most [size] bytes from the current position,
    fewer when the buffer ends first, none at or past the end; a negative
    size reads to the end. *)
Definition read (size : Z) (s : t) : t * result bytes :=
  if PY_SSIZE_T_MAX <? size then (s, inl OverflowError)
  else
    let n := Z.of_nat (length (buf s)) - pos s in
    let size := if (size <? 0) || (n <? size) then Z.max n 0 else size in
    if size =? 0 then (s, inr [])
    else (mk (buf s) (pos s + size),
          inr (take (Z.to_nat size) (drop (Z.to_nat (pos s)) (buf s)))).

(** [stream.seek(pos)] with the default [whence = 0]; the position may
    lie past the end of the buffer. *)
Definition seek (p : Z) (s : t) : t * result Z :=
  if PY_SSIZE_T_MAX <? p then (s, inl OverflowError)
  else if p <? 0 then (s, inl ValueError)
  else (mk (buf s) p, inr p).

End BytesIO.

(** ** [zlib] decompression objects

    The library is not part of the script; it is taken as an interface:
    a decompression object carries a state, [decompress] feeds it input
    and returns the output produced so far, and [flush] returns the output
    still pending.  Either call may raise [zlib.error], given here by its
    message. *)

Class Zlib : Type := {
  decompressor : Type;
  decompressobj : decompressor;
  decompress : decompressor -> bytes -> string + (decompressor * bytes);
  flush : decompressor -> string + bytes;
}.

(** ** The file name table *)

Definition FILES : gmap Z string :=
  list_to_map [
    (0x1, "emc_ipl.slb"%string);
    (0x2, "eap_kbl.slb"%string);
    (0x3, "torus2_fw.slb"%string);
    (0x4, "sam_ipl.slb"%string);
    (0x5, "coreos.slb"%string);
    (0x6, "system_exfat.img"%string);
    (0x7, "eap_kernel.slb"%string);
    (0x8, "eap_vsh_fat16.img"%string);
    (0x9, "preinst_fat32.img"%string);
    (0xB, "preinst2_fat32.img"%string);
    (0xC, "system_ex_exfat.img"%string);
    (0xD, "emc_ipl.slb"%string);
    (0xE, "eap_kbl.slb"%string);
    (0x20, "emc_ipl.slb"%string);
    (0x21, "eap_kbl.slb"%string);
    (0x22, "torus2_fw.slb"%string);
    (0x23, "sam_ipl.slb"%string);
    (0x24, "emc_ipl.slb"%string);
    (0x25, "eap_kbl.slb"%string);
    (0x26, "sam_ipl.slb"%string);
    (0x27, "sam_ipl.slb"%string);
    (0x28, "emc_ipl.slb"%string);
    (0x2A, "emc_ipl.slb"%string);
    (0x2B, "eap_kbl.slb"%string);
    (0x2C, "emc_ipl.slb"%string);
    (0x2D, "sam_ipl.slb"%string);
    (0x2E, "emc_ipl.slb"%string);
    (0x30, "torus2_fw.bin"%string);
    (0x31, "sam_ipl.slb"%string);
    (0x32, "sam_ipl.slb"%string);
    (0x101, "eula.xml"%string);
    (0x200, "orbis_swu.elf"%string);
    (0x202, "orbis_swu.self"%string);
    (0xD01, "bd_firm.slb"%string);
    (0xD02, "sata_bridge_fw.slb"%string);
    (0xD09, "cp_fw_kernel.slb"%string)
  ].

Definition PUP_HEADER_FORMAT : string := "<IBBBBBBHHHIIHHI".
Definition PUP_ENTRY_FORMAT : string := "<QQQQ".

(** ** Integer formatting: the format specification [04X] *)

Definition HEX_DIGITS : string := "0123456789ABCDEF".

(** The digit character for a value below sixteen. *)
Definition hex_digit (d : Z) : ascii :=
  default "F"%char (String.get (Z.to_nat d) HEX_DIGITS).

(** Upper-case hexadecimal digits of a non-negative integer, most
    significant first, prepended to [acc]. *)
Fixpoint hex_digits (fuel : nat) (n : Z) (acc : string) : string :=
  match fuel with
  | O => acc
  | S fuel' =>
      let acc' := String (hex_digit (n mod 16)) acc in
      if n / 16 =? 0 then acc' else hex_digits fuel' (n / 16) acc'
  end.

Definition hex_upper (n : Z) : string :=
  hex_digits (S (Z.to_nat (Z.log2 n))) n EmptyString.

Fixpoint zeros (k : nat) : string :=
  match k with
  | O => EmptyString
  | S k' => String "0"%char (zeros k')
  end.

(** [format(n, "04X")]: the sign, if any, comes first and the digits are
    padded with zeros up to a total width of four. *)
Definition format_04X (n : Z) : string :=
  if n <? 0 then
    let ds := hex_upper (- n) in
    String "-"%char (zeros (3 - String.length ds)%nat +:+ ds)
  else
    let ds := hex_upper n in
    zeros (4 - String.length ds)%nat +:+ ds.

(** ** Entries *)

Record PUPEntry : Type := mkPUPEntry {
  flags : Z;
  offset : Z;
  file_size : Z;
  memory_size : Z;
  data : bytes;
}.

(** [PUPEntry.__init__]: the payload starts out empty. *)
Definition PUPEntry_init (flags offset file_size memory_size : Z) : PUPEntry :=
  mkPUPEntry flags offset file_size memory_size [].

Definition set_data (self : PUPEntry) (d : bytes) : PUPEntry :=
  mkPUPEntry (flags self) (offset self) (file_size self) (memory_size self) d.

Definition file_name (self : PUPEntry) : string :=
  default ("unknown_" +:+ format_04X (Z.shiftr (flags self) 20))
          (FILES !! Z.shiftr (flags self) 20).

Definition compressed (self : PUPEntry) : bool :=
  negb (Z.land (flags self) 0x8 =? 0).

Section WithZlib.

Context `{codec : Zlib}.

Definition process_bytes (self : PUPEntry) (d : bytes) : result PUPEntry :=
  if compressed self then
    match decompress decompressobj d with
    | inl msg => inl (ZlibError msg)
    | inr (dobj, inflated) =>
        match flush dobj with
        | inl msg => inl (ZlibError msg)
        | inr rest => inr (set_data self (inflated ++ rest))
        end
    end
  else inr (set_data self d).

End WithZlib.

(** ** The container *)

Record PUP : Type := mkPUP {
  path : string;
  entries : list PUPEntry;
}.

(** [PUP.__init__] *)
Definition PUP_init (path : string) : PUP := mkPUP path [].

(** What [parse] works on: its local stream and the entry list of the
    container, both mutated as it goes. *)
Record frame : Type := mkFrame {
  stream : BytesIO.t;
  self_entries : list PUPEntry;
}.

(** Computations that update the frame and either return or raise. *)
Definition M (A : Type) : Type := frame -> frame * result A.

Definition ret {A} (a : A) : M A := fun fr => (fr, inr a).

Definition raise {A} (e : exn) : M A := fun fr => (fr, inl e).

Definition bind {A B} (m : M A) (k : A -> M B) : M B :=
  fun fr =>
    match m fr with
    | (fr', inl e) => (fr', inl e)
    | (fr', inr a) => k a fr'
    end.

Notation "'do' x <~ m ; k" := (bind m (fun x => k))
  (at level 10, x name, m at level 100, k at level 200).
Notation "'run' m ; k" := (bind m (fun _ => k))
  (at level 10, m at level 100, k at level 200).

Definition lift {A} (r : result A) : M A := fun fr => (fr, r).

Definition stream_read (size : Z) : M bytes :=
  fun fr =>
    let '(s, r) := BytesIO.read size (stream fr) in
    (mkFrame s (self_entries fr), r).

Definition stream_seek (p : Z) : M Z :=
  fun fr =>
    let '(s, r) := BytesIO.seek p (stream fr) in
    (mkFrame s (self_entries fr), r).

(** [self.entries.append(entry)] *)
Definition entries_append (entry : PUPEntry) : M unit :=
  fun fr => (mkFrame (stream fr) (self_entries fr ++ [entry]), inr tt).

Definition entries_length : M nat :=
  fun fr => (fr, inr (length (self_entries fr))).

(** The [i]-th entry object of the list; the loops below only ask for
    indices in range. *)
Definition entries_get (i : nat) : M PUPEntry :=
  fun fr =>
    match self_entries fr !! i with
    | Some e => (fr, inr e)
    | None => (fr, inl IndexError)
    end.

(** The entry objects are mutated in place: slot [i] holds the updated
    object afterwards. *)
Definition entries_set (i : nat) (e : PUPEntry) : M unit :=
  fun fr => (mkFrame (stream fr) (<[i := e]> (self_entries fr)), inr tt).

(** [for _ in range(n): body] *)
Fixpoint for_range (n : nat) (body : M unit) : M unit :=
  match n with
  | O => ret tt
  | S n' => run body ; for_range n' body
  end.

(** [for i in range(start, start + n): body i] *)
Fixpoint for_index (start n : nat) (body : nat -> M unit) : M unit :=
  match n with
  | O => ret tt
  | S n' => run body start ; for_index (S start) n' body
  end.

Section WithZlib.

Context `{codec : Zlib}.

(** Body of the first loop of [parse]. *)
Definition read_entry : M unit :=
  do n <~ lift (Struct.calcsize PUP_ENTRY_FORMAT) ;
  do entry_data <~ stream_read n ;
  do fields <~ lift (Struct.unpack PUP_ENTRY_FORMAT entry_data) ;
  match fields with
  | [flags; offset; file_size; memory_size] =>
      entries_append (PUPEntry_init flags offset file_size memory_size)
  | _ => raise TypeError
  end.

(** Body of the second loop of [parse], for the entry in slot [i]. *)
Definition load_entry (i : nat) : M unit :=
  do entry <~ entries_get i ;
  run stream_seek (offset entry) ;
  do raw <~ stream_read (file_size entry) ;
  do entry' <~ lift (process_bytes entry raw) ;
  entries_set i entry'.

Definition parse_body : M unit :=
  do n <~ lift (Struct.calcsize PUP_HEADER_FORMAT) ;
  do header <~ stream_read n ;
  do fields <~ lift (Struct.unpack PUP_HEADER_FORMAT header) ;
  match fields with
  | [magic; version; mode; endian; flags; content; product; padding;
     header_size; hash_size; file_size; padding2; entries_count;
     flags2; unk1C] =>
      if decide (magic ≠ 0x1D3D154F)
      then raise (RuntimeError "Invalid PUP file")
      else
        run for_range (Z.to_nat entries_count) read_entry ;
        do count <~ entries_length ;
        for_index 0 count load_entry
  | _ => raise ValueError
  end.

(** [PUP.parse], on the contents [file_data] of the file at [self.path]:
    the container afterwards and whether the call returned or raised. *)
Definition parse (file_data : bytes) (self : PUP) : PUP * result unit :=
  let '(fr, r) := parse_body (mkFrame (BytesIO.new file_data) (entries self)) in
  (mkPUP (path self) (self_entries fr), r).

End WithZlib.

(** ** Extraction

    The output directory is a finite map from file names to contents, or
    [None] while it does not exist.  Failures of the file system itself
    are not part of the model. *)

Definition mkdir (out_dir : option (gmap string bytes)) : gmap string bytes :=
  default ∅ out_dir.

Definition write_entry (dir : gmap string bytes) (entry : PUPEntry)
  : gmap string bytes :=
  if decide (file_name entry = ""%string) then dir
  else <[file_name entry := data entry]> dir.

(** [PUP.extract]: the directory afterwards. *)
Definition extract (self : PUP) (out_dir : option (gmap string bytes))
  : gmap string bytes :=
  foldl write_entry (mkdir out_dir) (entries self).

(** ** The container layout, as the format description states it

    These definitions follow the description of the file format, not the
    code: byte positions are written out, and the theorems below compare
    them with what [parse] computes through [struct] and the stream. *)

Definition MAGIC : Z := 0x1D3D154F.
Definition HEADER_SIZE : Z := 32.
Definition ENTRY_SIZE : Z := 32.

(** The bytes of [b] from position [p] up to [p + n], cut at the end of
    [b]. *)
Definition slice (b : bytes) (p n : Z) : bytes :=
  take (Z.to_nat n) (drop (Z.to_nat p) b).

Definition magic_of (file_data : bytes) : Z :=
  Struct.le_to_Z (slice file_data 0 4).

Definition entries_count_of (file_data : bytes) : Z :=
  Struct.le_to_Z (slice file_data 24 2).

(** The [i]-th record of the entry table, which starts right after the
    header. *)
Definition record_of (file_data : bytes) (i : Z) : bytes :=
  slice file_data (HEADER_SIZE + ENTRY_SIZE * i) ENTRY_SIZE.

Definition descriptor (file_data : bytes) (i : Z) : PUPEntry :=
  let r := record_of file_data i in
  PUPEntry_init (Struct.le_to_Z (slice r 0 8)) (Struct.le_to_Z (slice r 8 8))
                (Struct.le_to_Z (slice r 16 8)) (Struct.le_to_Z (slice r 24 8)).

Definition table (file_data : bytes) (n : nat) : list PUPEntry :=
  (fun i => descriptor file_data (Z.of_nat i)) <$> seq 0 n.

(** The raw payload of an entry: what lies in the file from [offset] on,
    [file_size] bytes of it or as many as there are. *)
Definition payload (file_data : bytes) (e : PUPEntry) : bytes :=
  slice file_data (offset e) (file_size e).

Section WithZlib.

Context `{codec : Zlib}.

(** Decompression of a whole stream: everything [decompress] returns
    followed by what [flush] still holds. *)
Definition inflate_stream (d : bytes) : result bytes :=
  match decompress decompressobj d with
  | inl msg => inl (ZlibError msg)
  | inr (dobj, inflated) =>
      match flush dobj with
      | inl msg => inl (ZlibError msg)
      | inr rest => inr (inflated ++ rest)
      end
  end.

(** Loading one entry from the file: its position and size must fit the
    stream's index type, and its payload must decode. *)
Definition load_one (file_data : bytes) (e : PUPEntry) : result PUPEntry :=
  if BytesIO.PY_SSIZE_T_MAX <? offset e then inl OverflowError
  else if BytesIO.PY_SSIZE_T_MAX <? file_size e then inl OverflowError
  else process_bytes e (payload file_data e).

Fixpoint load_all (file_data : bytes) (es : list PUPEntry)
  : result (list PUPEntry) :=
  match es with
  | [] => inr []
  | e :: es' =>
      match load_one file_data e with
      | inl err => inl err
      | inr e' =>
          match load_all file_data es' with
          | inl err => inl err
          | inr es'' => inr (e' :: es'')
          end
      end
  end.

End WithZlib.

(** Entries as [struct.unpack] yields them: unsigned 64-bit fields. *)
Definition unsigned64 (e : PUPEntry) : Prop :=
  (0 <= flags e < 2 ^ 64) /\ (0 <= offset e < 2 ^ 64) /\
  (0 <= file_size e < 2 ^ 64) /\ (0 <= memory_size e < 2 ^ 64).

(** Reading back upper-case hexadecimal: a digit is worth its position
    in [HEX_DIGITS]. *)
Fixpoint position_in (s : string) (c : ascii) (i : Z) : option Z :=
  match s with
  | EmptyString => None
  | String x s' => if Ascii.eqb x c then Some i else position_in s' c (i + 1)
  end.

Definition hex_digit_value (c : ascii) : option Z :=
  position_in HEX_DIGITS c 0.

Fixpoint hex_value_from (acc : Z) (s : string) : option Z :=
  match s with
  | EmptyString => Some acc
  | String c s' =>
      match hex_digit_value c with
      | Some d => hex_value_from (16 * acc + d) s'
      | None => None
      end
  end.

Definition hex_value (s : string) : option Z := hex_value_from 0 s.

(** The entries of a list that resolve to a given file name. *)
Definition named (name : string) (es : list PUPEntry) : list PUPEntry :=
  filter (fun e => file_name e = name) es.

(** ** A reference decompressor: zlib streams of stored blocks

    An instance of the [Zlib] interface for closed examples: it reads the
    zlib framing (RFC 1950: two header bytes, the deflate stream, the
    Adler-32 of the output in big-endian order) over deflate streams made
    of stored blocks (RFC 1951, block type 0).  Like a decompression
    object it returns the output decoded so far when the input stops
    early, and raises on input that cannot be a zlib stream.  Huffman
    coded blocks are outside this instance, which reports them as errors
    where zlib decodes them; the whole of the format is in [Inflate]
    below. *)

Module Stored.

Definition byte_of_Z (z : Z) : byte :=
  default x00 (Byte.of_N (Z.to_N z)).

Definition le16 (z : Z) : bytes :=
  [byte_of_Z (z mod 256); byte_of_Z (z / 256 mod 256)].

Definition be32 (z : Z) : bytes :=
  [byte_of_Z (z / 16777216 mod 256); byte_of_Z (z / 65536 mod 256);
   byte_of_Z (z / 256 mod 256); byte_of_Z (z mod 256)].

Definition be_to_Z (bs : bytes) : Z := Struct.le_to_Z (rev bs).

Definition adler_step (s : Z * Z) (x : byte) : Z * Z :=
  let a := (fst s + byte_to_Z x) mod 65521 in
  (a, (snd s + a) mod 65521).

Definition adler32 (bs : bytes) : Z :=
  let s := foldl adler_step (1, 0) bs in
  snd s * 65536 + fst s.

Definition error {A} (msg : string) : string + A :=
  inl ("Error -3 while decompressing data: " +:+ msg)%string.

(** After the final block: the checksum, when it has arrived. *)
Definition trailer (input out : bytes) : string + bytes :=
  if Z.of_nat (length input) <? 4 then inr out
  else if be_to_Z (take 4 input) =? adler32 out then inr out
  else error "incorrect data check".

(** The blocks of the deflate stream; each block starts on a byte
    boundary, bit 0 of its first byte is BFINAL and bits 1-2 BTYPE. *)
Fixpoint blocks (fuel : nat) (input out : bytes) : string + bytes :=
  match fuel with
  | O => inr out
  | S fuel' =>
      match input with
      | [] => inr out
      | hd :: rest =>
          let bfinal := Z.land (byte_to_Z hd) 1 in
          let btype := Z.land (Z.shiftr (byte_to_Z hd) 1) 3 in
          if btype =? 0 then
            match rest with
            | l0 :: l1 :: n0 :: n1 :: body =>
                let len := Struct.le_to_Z [l0; l1] in
                let nlen := Struct.le_to_Z [n0; n1] in
                if negb (nlen =? 0xFFFF - len)
                then error "invalid stored block lengths"
                else if Z.of_nat (length body) <? len
                then inr (out ++ body)
                else
                  let out' := out ++ take (Z.to_nat len) body in
                  let input' := drop (Z.to_nat len) body in
                  if bfinal =? 1 then trailer input' out'
                  else blocks fuel' input' out'
            | _ => inr out
            end
          else if btype =? 3 then error "invalid block type"
          else error "block type outside the stored subset"
      end
  end.

Definition inflate (input : bytes) : string + bytes :=
  match input with
  | cmf :: flg :: rest =>
      let cmf := byte_to_Z cmf in
      let flg := byte_to_Z flg in
      if negb ((cmf * 256 + flg) mod 31 =? 0)
      then error "incorrect header check"
      else if negb (Z.land cmf 15 =? 8)
      then error "unknown compression method"
      else if 7 <? Z.shiftr cmf 4
      then error "invalid window size"
      else if negb (Z.land flg 32 =? 0)
      then (if (length rest <? 4)%nat then inr []
            else inl "Error 2 while decompressing data"%string)
      else blocks (length rest) rest []
  | _ => inr []
  end.

#[export] Instance zlib : Zlib := {|
  decompressor := unit;
  decompressobj := tt;
  decompress := fun _ input =>
    match inflate input with
    | inl e => inl e
    | inr out => inr (tt, out)
    end;
  flush := fun _ => inr [];
|}.

(** A compressor for this format: stored blocks of at most 65535
    bytes, the last one marked final. *)
Fixpoint stored_blocks (fuel : nat) (input : bytes) : bytes :=
  match fuel with
  | O => [x01; x00; x00; xff; xff]
  | S fuel' =>
      if Z.of_nat (length input) <=? 65535 then
        [x01] ++ le16 (Z.of_nat (length input))
              ++ le16 (65535 - Z.of_nat (length input)) ++ input
      else
        [x00; xff; xff; x00; x00] ++ take (Z.to_nat 65535) input
          ++ stored_blocks fuel' (drop (Z.to_nat 65535) input)
  end.

Definition compress (input : bytes) : bytes :=
  [x78; x01] ++ stored_blocks (S (length input)) input
             ++ be32 (adler32 input).

End Stored.

(** ** Sample containers *)

(** A header with the right magic and one entry in the table. *)
Definition sample_header : bytes :=
  [x4f; x15; x3d; x1d; x00; x00; x00; x00; x00; x00; x00; x00; x00; x00; x00; x00;
   x00; x00; x00; x00; x00; x00; x00; x00; x01; x00; x00; x00; x00; x00; x00; x00].

(** One entry, identifier 5, not compressed: four payload bytes at
    offset 64, all of them in the file. *)
Definition sample_pup : bytes :=
  sample_header ++
  [x00; x00; x50; x00; x00; x00; x00; x00; x40; x00; x00; x00; x00; x00; x00; x00;
   x04; x00; x00; x00; x00; x00; x00; x00; x04; x00; x00; x00; x00; x00; x00; x00] ++
  [xde; xad; xbe; xef].

(** The same table entry announcing eight payload bytes at offset 64, in
    a file that ends after four of them. *)
Definition truncated_pup : bytes :=
  sample_header ++
  [x00; x00; x50; x00; x00; x00; x00; x00; x40; x00; x00; x00; x00; x00; x00; x00;
   x08; x00; x00; x00; x00; x00; x00; x00; x08; x00; x00; x00; x00; x00; x00; x00] ++
  [xde; xad; xbe; xef].

(** An entry announcing four payload bytes at offset 100, in a file of 64
    bytes. *)
Definition beyond_pup : bytes :=
  sample_header ++
  [x00; x00; x50; x00; x00; x00; x00; x00; x64; x00; x00; x00; x00; x00; x00; x00;
   x04; x00; x00; x00; x00; x00; x00; x00; x04; x00; x00; x00; x00; x00; x00; x00].

(** A file of the right size whose first byte spoils the magic. *)
Definition bad_magic_pup : bytes := x00 :: drop 1 sample_pup.

(** An entry whose positions and size fit the stream's index type, and
    whose payload, if compressed, decompresses. *)
Definition loadable `{codec : Zlib} (file_data : bytes) (e : PUPEntry) : Prop :=
  offset e <= BytesIO.PY_SSIZE_T_MAX
  /\ file_size e <= BytesIO.PY_SSIZE_T_MAX
  /\ (compressed e = true ->
      exists out, inflate_stream (payload file_data e) = inr out).

(** The five bytes of ["hello"]. *)
Definition hello : bytes := [x68; x65; x6c; x6c; x6f].

(** One entry, identifier 5, with the compression bit set: sixteen
    payload bytes at offset 64, a zlib stream of ["hello"]. *)
Definition compressed_pup : bytes :=
  sample_header ++
  [x08; x00; x50; x00; x00; x00; x00; x00; x40; x00; x00; x00; x00; x00; x00; x00;
   x10; x00; x00; x00; x00; x00; x00; x00; x05; x00; x00; x00; x00; x00; x00; x00] ++
  Stored.compress hello.

(** ** Auxiliary notions for the proofs *)

(** The header format, compiled, and the exception for a buffer that is
    not 32 bytes long. *)
Definition header_codes : list Struct.code :=
  [Struct.I; Struct.B; Struct.B; Struct.B; Struct.B; Struct.B; Struct.B;
   Struct.H; Struct.H; Struct.H; Struct.I; Struct.I; Struct.H; Struct.H;
   Struct.I].

Definition short_buffer : exn :=
  StructError "unpack requires a buffer of 32 bytes".

(** What the second loop of [parse] needs of an entry to read its
    payload by position. *)
Definition from_table (e : PUPEntry) : Prop :=
  0 <= offset e /\ 0 <= file_size e.

(** Exceptions other than the [RuntimeError] of the magic check. *)
Definition library_error (err : exn) : Prop :=
  match err with
  | RuntimeError _ => False
  | _ => True
  end.

Definition raises_library_errors {A} (m : M A) : Prop :=
  forall fr fr' err, m fr = (fr', inl err) -> library_error err.

(** ** The command line ([main])

    What [main] meets outside the program is given to it: the argument
    vector, what the file system answers at a path, the failure, if any,
    that the file system holds for the writing of the output, and the
    directory [sys_modules] of the working directory.  What it does is
    collected: the lines printed on the standard output, the exit status,
    and the directory afterwards. *)

(** [str(Path(s))] on a POSIX system: the parts of [s] between slashes,
    without the empty ones and the dots, joined by single slashes behind
    the root, which is ["//"] for exactly two leading slashes and ["/"]
    for any other number of them; ["."] when nothing is left. *)
Fixpoint parts_of (s : string) (part : string) : list string :=
  match s with
  | EmptyString => [part]
  | String c s' =>
      if Ascii.eqb c "/" then part :: parts_of s' EmptyString
      else parts_of s' (part +:+ String c EmptyString)
  end.

Definition root_of (s : string) : string :=
  match s with
  | String "/" (String "/" (String "/" _)) => "/"
  | String "/" (String "/" _) => "//"
  | String "/" _ => "/"
  | _ => ""
  end.

Definition kept (part : string) : bool :=
  negb (String.eqb part "" || String.eqb part ".").

Fixpoint joined (parts : list string) : string :=
  match parts with
  | [] => ""
  | [part] => part
  | part :: parts' => part +:+ "/" +:+ joined parts'
  end.

Definition path_str (s : string) : string :=
  let shown := root_of s +:+ joined (filter (fun part => kept part = true)
                                            (parts_of s "")) in
  if String.eqb shown "" then "." else shown.

(** What the file system answers at a path: to [Path.exists], whether
    something is there, or the [OSError] of a [stat] that fails for
    another reason than a missing file; to [open] and [read], the bytes
    of the file or the message of the [OSError]. *)
Record place : Type := mkPlace {
  is_there : string + bool;
  opened : string + bytes;
}.

(** What the file system holds for the writing of the output: nothing,
    an [OSError] for [mkdir], or an [OSError] for the file of entry [i],
    which then is not there ([None]) or holds what was written of it. *)
Inductive fault : Type :=
  | NoFault
  | MkdirFails (msg : string)
  | WriteFails (i : nat) (msg : string) (partial : option bytes).

(** An exception that reaches the handler of [main]. *)
Inductive failure : Type :=
  | Raised (e : exn)
  | OSError (msg : string).

(** The lines [main] prints: the usage line, ["PUP file '<path>' not
    found"] for the path given, ["Firmware extracted to <directory>"],
    and ["Failed to install firmware: <exception>"]. *)
Inductive line : Type :=
  | Usage
  | NotFound (pup_path : string)
  | Extracted
  | Failed (f : failure).

Record outcome : Type := mkOutcome {
  printed : list line;
  status : Z;
  sys_modules : option (gmap string bytes);
}.

(** [extract] on a file system with a fault: the directory afterwards
    and the message of the [OSError], if one is raised.  A fault for an
    entry the container does not have never shows. *)
Definition extract_io (f : fault) (self : PUP)
    (out_dir : option (gmap string bytes))
    : option (gmap string bytes) * (string + unit) :=
  match f with
  | NoFault => (Some (extract self out_dir), inr tt)
  | MkdirFails msg => (out_dir, inl msg)
  | WriteFails i msg partial =>
      match entries self !! i with
      | None => (Some (extract self out_dir), inr tt)
      | Some entry =>
          let dir := foldl write_entry (mkdir out_dir) (take i (entries self)) in
          (Some (match partial with
                 | None => dir
                 | Some written => <[file_name entry := written]> dir
                 end),
           inl msg)
      end
  end.

(** Whether the fault shows while the entries of a container are
    written. *)
Definition shows (f : fault) (self : PUP) : bool :=
  match f with
  | NoFault => false
  | MkdirFails _ => true
  | WriteFails i _ _ => bool_decide (i < length (entries self))%nat
  end.

Section WithZlib.

Context `{codec : Zlib}.

(** [PUP.parse] with its first two lines, which open and read the file. *)
Definition parse_file (file : string + bytes) (self : PUP)
    : PUP * (failure + unit) :=
  match file with
  | inl msg => (self, inl (OSError msg))
  | inr file_data =>
      let '(self', r) := parse file_data self in
      (self', match r with
              | inl e => inl (Raised e)
              | inr u => inr u
              end)
  end.

(** An [OSError] of [Path.exists] is raised outside the [try]: nothing
    is printed on the standard output and the interpreter ends with
    status 1. *)
Definition main (argv : list string) (at_path : string -> place)
    (f : fault) (out_dir : option (gmap string bytes)) : outcome :=
  if decide (length argv ≠ 2%nat) then mkOutcome [Usage] 1 out_dir
  else
    let pup_path := path_str (default ""%string (argv !! 1%nat)) in
    match is_there (at_path pup_path) with
    | inl _ => mkOutcome [] 1 out_dir
    | inr false => mkOutcome [NotFound pup_path] 1 out_dir
    | inr true =>
        let '(pup, r) := parse_file (opened (at_path pup_path))
                                    (PUP_init pup_path) in
        match r with
        | inl e => mkOutcome [Failed e] 1 out_dir
        | inr _ =>
            match extract_io f pup out_dir with
            | (dir, inl msg) => mkOutcome [Failed (OSError msg)] 1 dir
            | (dir, inr _) => mkOutcome [Extracted] 0 dir
            end
        end
    end.

End WithZlib.

(** Whether a character occurs in a string. *)
Fixpoint occurs (c : ascii) (s : string) : bool :=
  match s with
  | EmptyString => false
  | String x s' => Ascii.eqb x c || occurs c s'
  end.

(** A header with the right magic and two entries in the table. *)
Definition two_header : bytes :=
  [x4f; x15; x3d; x1d; x00; x00; x00; x00; x00; x00; x00; x00; x00; x00; x00; x00;
   x00; x00; x00; x00; x00; x00; x00; x00; x02; x00; x00; x00; x00; x00; x00; x00].

(** Table records: identifier 5, four bytes at offset 96; identifier
    [0x101], two bytes at offset 100; identifier 5, four bytes at offset
    2^63, which does not fit the stream's index type.  None is
    compressed. *)
Definition record_coreos : bytes :=
  [x00; x00; x50; x00; x00; x00; x00; x00; x60; x00; x00; x00; x00; x00; x00; x00;
   x04; x00; x00; x00; x00; x00; x00; x00; x04; x00; x00; x00; x00; x00; x00; x00].

Definition record_eula : bytes :=
  [x00; x00; x10; x10; x00; x00; x00; x00; x64; x00; x00; x00; x00; x00; x00; x00;
   x02; x00; x00; x00; x00; x00; x00; x00; x02; x00; x00; x00; x00; x00; x00; x00].

Definition record_far : bytes :=
  [x00; x00; x50; x00; x00; x00; x00; x00; x00; x00; x00; x00; x00; x00; x00; x80;
   x04; x00; x00; x00; x00; x00; x00; x00; x04; x00; x00; x00; x00; x00; x00; x00].

(** Two entries with their payloads behind the table. *)
Definition two_pup : bytes :=
  two_header ++ record_coreos ++ record_eula ++ [xde; xad; xbe; xef] ++ [x3c; x3e].

(** A file that ends in the middle of the second record. *)
Definition partial_table_pup : bytes :=
  two_header ++ record_coreos ++ take 16 record_eula.

(** A file whose first entry loads and whose second does not. *)
Definition far_second_pup : bytes :=
  two_header ++ record_coreos ++ record_far ++ [xde; xad; xbe; xef].

(** A file system that holds [two_pup] as [PS4UPDATE.PUP] and nothing
    else. *)
Definition sample_disk (p : string) : place :=
  if decide (p = "PS4UPDATE.PUP"%string)
  then mkPlace (inr true) (inr two_pup)
  else mkPlace (inr false) (inl "[Errno 2] No such file or directory"%string).

(** ** A model of zlib's decompressor

    The decompression side of zlib for the zlib container (RFC 1950) over
    deflate streams (RFC 1951) with stored, fixed and dynamic Huffman
    blocks, as a decompression object of Python's [zlib] module behaves
    with the default window: it raises [zlib.error] with zlib's message
    on data that cannot be a stream, and when the input merely stops
    early it returns what has been decoded up to there.  The input is
    read as a sequence of bits, least significant bit of each byte
    first. *)

Module Inflate.

(** What a reading step comes to: a value and the bits left, the end of
    the input before the value was complete, or bad data. *)
Inductive step (A : Type) : Type :=
  | Got (a : A) (rest : list bool)
  | Starved
  | Bad (msg : string).

Arguments Got {A} a rest.
Arguments Starved {A}.
Arguments Bad {A} msg.

Definition bits_of_byte (b : byte) : list bool :=
  let n := byte_to_Z b in
  [Z.testbit n 0; Z.testbit n 1; Z.testbit n 2; Z.testbit n 3;
   Z.testbit n 4; Z.testbit n 5; Z.testbit n 6; Z.testbit n 7].

Fixpoint bits_of_bytes (bs : bytes) : list bool :=
  match bs with
  | [] => []
  | b :: bs' => bits_of_byte b ++ bits_of_bytes bs'
  end.

(** The number a bit sequence spells, least significant bit first. *)
Fixpoint number (bits : list bool) : Z :=
  match bits with
  | [] => 0
  | b :: bits' => Z.b2z b + 2 * number bits'
  end.

Fixpoint bytes_of_bits (bits : list bool) : bytes :=
  match bits with
  | b0 :: b1 :: b2 :: b3 :: b4 :: b5 :: b6 :: b7 :: bits' =>
      Stored.byte_of_Z (number [b0; b1; b2; b3; b4; b5; b6; b7])
        :: bytes_of_bits bits'
  | _ => []
  end.

(** [n] bits as a number. *)
Definition take_bits (n : nat) (bits : list bool) : step Z :=
  if (length bits <? n)%nat then Starved
  else Got (number (take n bits)) (drop n bits).

(** Skipping to the next byte boundary; the input is a whole number of
    bytes. *)
Definition align (bits : list bool) : list bool :=
  drop (length bits mod 8)%nat bits.

(** *** Huffman codes

    A code is given by the code length of every symbol (0 for a symbol
    that is not used); the codes are the canonical ones of RFC 1951,
    section 3.2.2. *)

Definition count (lens : list nat) (l : nat) : nat :=
  length (filter (fun x => x = l) lens).

(** The first code of length [l]. *)
Fixpoint first_code (lens : list nat) (l : nat) : Z :=
  match l with
  | O => 0
  | S l' =>
      2 * (first_code lens l'
           + match l' with O => 0 | _ => Z.of_nat (count lens l') end)
  end.

(** The [l] bits of the code [c], most significant bit first. *)
Fixpoint code_bits (l : nat) (c : Z) : list bool :=
  match l with
  | O => []
  | S l' => Z.testbit c (Z.of_nat l') :: code_bits l' c
  end.

(** The codes of the symbols from [sym] on, whose lengths are [rest];
    [seen] holds the lengths of the symbols before. *)
Fixpoint codes_from (lens : list nat) (sym : Z) (seen rest : list nat)
  : list (list bool * Z) :=
  match rest with
  | [] => []
  | l :: rest' =>
      match l with
      | O => codes_from lens (sym + 1) (l :: seen) rest'
      | _ =>
          (code_bits l (first_code lens l + Z.of_nat (count seen l)), sym)
            :: codes_from lens (sym + 1) (l :: seen) rest'
      end
  end.

Definition codes (lens : list nat) : list (list bool * Z) :=
  codes_from lens 0 [] lens.

Fixpoint is_prefix (p bits : list bool) : bool :=
  match p, bits with
  | [], _ => true
  | _ :: _, [] => false
  | x :: p', y :: bits' => Bool.eqb x y && is_prefix p' bits'
  end.

(** The symbol whose code starts the input. *)
Definition symbol (table : list (list bool * Z)) (bits : list bool) : step Z :=
  match find (fun e => is_prefix (fst e) bits) table with
  | Some (c, sym) => Got sym (drop (length c) bits)
  | None =>
      match bits with
      | [] => Starved
      | _ =>
          if existsb (fun e => is_prefix bits (fst e)) table then Starved
          else Bad "invalid code"
      end
  end.

(** What is left of the code space after the lengths up to [l], [None]
    when more codes are asked for than there are. *)
Fixpoint left_after (lens : list nat) (l : nat) : option Z :=
  match l with
  | O => Some 1
  | S l' =>
      match left_after lens l' with
      | None => None
      | Some room =>
          let room' := 2 * room - Z.of_nat (count lens l) in
          if room' <? 0 then None else Some room'
      end
  end.

Definition longest (lens : list nat) : nat := foldr Nat.max 0%nat lens.

(** The three uses of a code: for the code lengths, for literals and
    lengths, for distances. *)
Inductive kind : Type := CODES | LENS | DISTS.

(** Whether zlib takes a set of code lengths: not over-subscribed, and
    complete unless it is empty or, outside the code length code, a
    single code of one bit. *)
Definition lengths_ok (k : kind) (lens : list nat) : bool :=
  match longest lens with
  | O => true
  | m =>
      match left_after lens 15 with
      | None => false
      | Some room =>
          negb ((0 <? room)
                && (match k with CODES => true | _ => negb (m =? 1)%nat end))
      end
  end.

(** *** Lengths and distances *)

Definition length_base : list Z :=
  [3; 4; 5; 6; 7; 8; 9; 10; 11; 13; 15; 17; 19; 23; 27; 31; 35; 43; 51; 59;
   67; 83; 99; 115; 131; 163; 195; 227; 258].

Definition length_extra : list nat :=
  [0; 0; 0; 0; 0; 0; 0; 0; 1; 1; 1; 1; 2; 2; 2; 2; 3; 3; 3; 3; 4; 4; 4; 4;
   5; 5; 5; 5; 0]%nat.

Definition dist_base : list Z :=
  [1; 2; 3; 4; 5; 7; 9; 13; 17; 25; 33; 49; 65; 97; 129; 193; 257; 385; 513;
   769; 1025; 1537; 2049; 3073; 4097; 6145; 8193; 12289; 16385; 24577].

Definition dist_extra : list nat :=
  [0; 0; 0; 0; 1; 1; 2; 2; 3; 3; 4; 4; 5; 5; 6; 6; 7; 7; 8; 8; 9; 9; 10; 10;
   11; 11; 12; 12; 13; 13]%nat.

Definition fixed_lit_lengths : list nat :=
  replicate 144 8%nat ++ replicate 112 9%nat ++ replicate 24 7%nat
    ++ replicate 8 8%nat.

Definition fixed_dist_lengths : list nat := replicate 32 5%nat.

(** Copying [n] bytes from [d] back; [out] is the output so far, latest
    byte first. *)
Fixpoint copy (n d : nat) (out : bytes) : bytes :=
  match n with
  | O => out
  | S n' => copy n' d (nth (d - 1) out x00 :: out)
  end.

(** How the decoding of a block ends: at its end, with the bits behind
    it; at the end of the input; in an error. *)
Inductive ending : Type :=
  | EndOfBlock (rest : list bool) (out : bytes)
  | EndOfInput (out : bytes)
  | Failure (msg : string).

(** The length and distance of a match, after the length symbol [sym]. *)
Definition match_of (dist_table : list (list bool * Z)) (sym : Z)
    (bits : list bool) : step (Z * Z) :=
  let i := Z.to_nat (sym - 257) in
  match length_base !! i, length_extra !! i with
  | Some base, Some extra =>
      match take_bits extra bits with
      | Got more bits1 =>
          match symbol dist_table bits1 with
          | Got dsym bits2 =>
              let j := Z.to_nat dsym in
              match dist_base !! j, dist_extra !! j with
              | Some dbase, Some dextra =>
                  match take_bits dextra bits2 with
                  | Got dmore bits3 => Got (base + more, dbase + dmore) bits3
                  | Starved => Starved
                  | Bad msg => Bad msg
                  end
              | _, _ => Bad "invalid distance code"
              end
          | Starved => Starved
          | Bad _ => Bad "invalid distance code"
          end
      | Starved => Starved
      | Bad msg => Bad msg
      end
  | _, _ => Bad "invalid literal/length code"
  end.

(** The literals and matches of a Huffman coded block. *)
Fixpoint tokens (fuel : nat) (lit_table dist_table : list (list bool * Z))
    (bits : list bool) (out : bytes) : ending :=
  match fuel with
  | O => EndOfInput out
  | S fuel' =>
      match symbol lit_table bits with
      | Starved => EndOfInput out
      | Bad _ => Failure "invalid literal/length code"
      | Got sym bits1 =>
          if sym <? 256 then
            tokens fuel' lit_table dist_table bits1 (Stored.byte_of_Z sym :: out)
          else if sym =? 256 then EndOfBlock bits1 out
          else
            match match_of dist_table sym bits1 with
            | Starved => EndOfInput out
            | Bad msg => Failure msg
            | Got (len, dist) bits2 =>
                if Z.of_nat (length out) <? dist
                then Failure "invalid distance too far back"
                else tokens fuel' lit_table dist_table bits2
                            (copy (Z.to_nat len) (Z.to_nat dist) out)
            end
      end
  end.

(** *** Dynamic blocks: the code lengths *)

Definition code_length_order : list nat :=
  [16; 17; 18; 0; 8; 7; 9; 6; 10; 5; 11; 4; 12; 3; 13; 2; 14; 1; 15]%nat.

(** The lengths of the code length code: [n] of them, three bits each,
    in the order above. *)
Fixpoint code_length_lengths (n : nat) (order : list nat) (bits : list bool)
    (lens : list nat) : step (list nat) :=
  match n, order with
  | S n', sym :: order' =>
      match take_bits 3 bits with
      | Got l bits' =>
          code_length_lengths n' order' bits' (<[sym := Z.to_nat l]> lens)
      | Starved => Starved
      | Bad msg => Bad msg
      end
  | _, _ => Got lens bits
  end.

(** A symbol of the code length code.  With an empty code zlib reads
    one bit as a length of zero. *)
Definition code_length_symbol (table : list (list bool * Z)) (bits : list bool)
  : step Z :=
  match table with
  | [] => match bits with [] => Starved | _ :: bits' => Got 0 bits' end
  | _ => symbol table bits
  end.

(** The code lengths of the literal/length and distance codes, [total]
    of them, run-length coded; [lens] are the ones read so far, latest
    first. *)
Fixpoint code_lengths (fuel : nat) (table : list (list bool * Z)) (total : nat)
    (bits : list bool) (lens : list nat) : step (list nat) :=
  match fuel with
  | O => Starved
  | S fuel' =>
      if (total <=? length lens)%nat then Got (rev lens) bits
      else
        match code_length_symbol table bits with
        | Starved => Starved
        | Bad _ => Bad "invalid code lengths set"
        | Got sym bits1 =>
            if sym <? 16 then
              code_lengths fuel' table total bits1 (Z.to_nat sym :: lens)
            else
              let '(extra, base, previous) :=
                if sym =? 16 then (2%nat, 3, true)
                else if sym =? 17 then (3%nat, 3, false)
                else (7%nat, 11, false) in
              match take_bits extra bits1 with
              | Starved => Starved
              | Bad msg => Bad msg
              | Got more bits2 =>
                  let n := Z.to_nat (base + more) in
                  match previous, lens with
                  | true, [] => Bad "invalid bit length repeat"
                  | _, _ =>
                      if (total <? length lens + n)%nat
                      then Bad "invalid bit length repeat"
                      else
                        code_lengths fuel' table total bits2
                          (replicate n (if previous then hd 0%nat lens else 0%nat)
                             ++ lens)
                  end
              end
        end
  end.

(** The header of a dynamic block: the two codes it defines. *)
Definition dynamic_tables (bits : list bool)
  : step (list (list bool * Z) * list (list bool * Z)) :=
  match take_bits 5 bits with
  | Got hlit bits1 =>
    match take_bits 5 bits1 with
    | Got hdist bits2 =>
      match take_bits 4 bits2 with
      | Got hclen bits3 =>
          let nlen := Z.to_nat (hlit + 257) in
          let ndist := Z.to_nat (hdist + 1) in
          if (286 <? nlen)%nat || (30 <? ndist)%nat
          then Bad "too many length or distance symbols"
          else
            match code_length_lengths (Z.to_nat (hclen + 4)) code_length_order
                    bits3 (replicate 19 0%nat) with
            | Got cl bits4 =>
                if negb (lengths_ok CODES cl) then Bad "invalid code lengths set"
                else
                  match code_lengths (S (nlen + ndist)) (codes cl) (nlen + ndist)
                          bits4 [] with
                  | Got lens bits5 =>
                      if (default 0%nat (lens !! 256%nat) =? 0)%nat
                      then Bad "invalid code -- missing end-of-block"
                      else if negb (lengths_ok LENS (take nlen lens))
                      then Bad "invalid literal/lengths set"
                      else if negb (lengths_ok DISTS (drop nlen lens))
                      then Bad "invalid distances set"
                      else Got (codes (take nlen lens), codes (drop nlen lens))
                               bits5
                  | Starved => Starved
                  | Bad msg => Bad msg
                  end
            | Starved => Starved
            | Bad msg => Bad msg
            end
      | Starved => Starved
      | Bad msg => Bad msg
      end
    | Starved => Starved
    | Bad msg => Bad msg
    end
  | Starved => Starved
  | Bad msg => Bad msg
  end.

(** *** Blocks and the container *)

(** A stored block, behind its three header bits. *)
Definition stored (bits : list bool) (out : bytes) : ending :=
  let bits1 := align bits in
  match take_bits 16 bits1 with
  | Got len bits2 =>
      match take_bits 16 bits2 with
      | Got nlen bits3 =>
          if negb (nlen =? 0xFFFF - len)
          then Failure "invalid stored block lengths"
          else if (length bits3 <? 8 * Z.to_nat len)%nat
          then EndOfInput (rev (bytes_of_bits bits3) ++ out)
          else EndOfBlock (drop (8 * Z.to_nat len) bits3)
                          (rev (bytes_of_bits (take (8 * Z.to_nat len) bits3))
                             ++ out)
      | _ => EndOfInput out
      end
  | _ => EndOfInput out
  end.

Definition error {A} (msg : string) : string + A :=
  inl ("Error -3 while decompressing data: " +:+ msg)%string.

(** Behind the last block: the Adler-32 of the output, most significant
    byte first, when it has arrived. *)
Definition check (bits : list bool) (out : bytes) : string + bytes :=
  let bits1 := align bits in
  if (length bits1 <? 32)%nat then inr (rev out)
  else if Stored.be_to_Z (bytes_of_bits (take 32 bits1)) =? Stored.adler32 (rev out)
  then inr (rev out)
  else error "incorrect data check".

Fixpoint blocks (fuel : nat) (bits : list bool) (out : bytes) : string + bytes :=
  match fuel with
  | O => inr (rev out)
  | S fuel' =>
      match bits with
      | bfinal :: t0 :: t1 :: bits1 =>
          let body :=
            match t0, t1 with
            | false, false => stored bits1 out
            | true, false =>
                tokens (S (length bits1)) (codes fixed_lit_lengths)
                       (codes fixed_dist_lengths) bits1 out
            | false, true =>
                match dynamic_tables bits1 with
                | Got (lit_table, dist_table) bits2 =>
                    tokens (S (length bits2)) lit_table dist_table bits2 out
                | Starved => EndOfInput out
                | Bad msg => Failure msg
                end
            | true, true => Failure "invalid block type"
            end in
          match body with
          | EndOfBlock rest out' =>
              if bfinal then check rest out' else blocks fuel' rest out'
          | EndOfInput out' => inr (rev out')
          | Failure msg => error msg
          end
      | _ => inr (rev out)
      end
  end.

(** The whole of the input: the two header bytes of the container, the
    blocks, the check. *)
Definition inflate (input : bytes) : string + bytes :=
  match input with
  | cmf :: flg :: rest =>
      let cmf := byte_to_Z cmf in
      let flg := byte_to_Z flg in
      if negb ((cmf * 256 + flg) mod 31 =? 0)
      then error "incorrect header check"
      else if negb (Z.land cmf 15 =? 8)
      then error "unknown compression method"
      else if 7 <? Z.shiftr cmf 4
      then error "invalid window size"
      else if negb (Z.land flg 32 =? 0)
      then (if (length rest <? 4)%nat then inr []
            else inl "Error 2 while decompressing data"%string)
      else blocks (S (length rest)) (bits_of_bytes rest) []
  | _ => inr []
  end.

(** The decompression object: everything comes out of [decompress], and
    [flush] has nothing left to give. *)
#[export] Instance zlib : Zlib := {|
  decompressor := unit;
  decompressobj := tt;
  decompress := fun _ input =>
    match inflate input with
    | inl e => inl e
    | inr out => inr (tt, out)
    end;
  flush := fun _ => inr [];
|}.

End Inflate.

(** ** The zlib format, from the side of the compressor

    What a compressor may write: a stream is described by its two header
    bytes and its blocks, a block by what RFC 1951 lets it hold (the bytes
    of a stored block; the literals and matches of a Huffman coded block,
    with the code lengths, run-length coded, when the block brings its
    own codes), and [encode] writes the description out as bytes.  Every
    choice a compressor has (where to cut blocks, which matches to take,
    which codes to use) is a choice of description. *)

Module Deflate.

(** A literal byte, or a match: the code of its length (0 to 28, for the
    symbols 257 to 285) and of its distance (0 to 29), each with the
    value of the extra bits behind it. *)
Inductive token : Type :=
  | Literal (b : byte)
  | Match (lcode : nat) (lmore : Z) (dcode : nat) (dmore : Z).

Definition match_length (lcode : nat) (lmore : Z) : Z :=
  default 0 (Inflate.length_base !! lcode) + lmore.

Definition match_distance (dcode : nat) (dmore : Z) : Z :=
  default 0 (Inflate.dist_base !! dcode) + dmore.

(** What a token adds to the output, which is kept latest byte first. *)
Definition put (out : bytes) (t : token) : bytes :=
  match t with
  | Literal b => b :: out
  | Match lcode lmore dcode dmore =>
      Inflate.copy (Z.to_nat (match_length lcode lmore))
                   (Z.to_nat (match_distance dcode dmore)) out
  end.

(** The [n] low bits of [v], least significant first. *)
Fixpoint bits_of (n : nat) (v : Z) : list bool :=
  match n with
  | O => []
  | S n' => Z.odd v :: bits_of n' (Z.div2 v)
  end.

Definition fits (n : nat) (v : Z) : bool :=
  (0 <=? v) && (v <? 2 ^ Z.of_nat n).

(** The code of a symbol in a table, and whether it has one. *)
Definition code_for (table : list (list bool * Z)) (sym : Z) : list bool :=
  match find (fun e => snd e =? sym) table with
  | Some e => fst e
  | None => []
  end.

Definition coded (table : list (list bool * Z)) (sym : Z) : bool :=
  existsb (fun e => snd e =? sym) table.

(** No code of the table starts another one. *)
Fixpoint prefix_free (table : list (list bool * Z)) : bool :=
  match table with
  | [] => true
  | e :: table' =>
      forallb (fun e' => negb (Inflate.is_prefix (fst e) (fst e'))
                         && negb (Inflate.is_prefix (fst e') (fst e))) table'
      && prefix_free table'
  end.

(** A set of code lengths a block can use: one that zlib takes, whose
    codes can be told apart. *)
Definition table_ok (k : Inflate.kind) (lens : list nat) : bool :=
  Inflate.lengths_ok k lens && prefix_free (Inflate.codes lens).

Definition encode_token (lit dist : list (list bool * Z)) (t : token)
  : list bool :=
  match t with
  | Literal b => code_for lit (byte_to_Z b)
  | Match lcode lmore dcode dmore =>
      code_for lit (257 + Z.of_nat lcode)
        ++ bits_of (default 0%nat (Inflate.length_extra !! lcode)) lmore
        ++ code_for dist (Z.of_nat dcode)
        ++ bits_of (default 0%nat (Inflate.dist_extra !! dcode)) dmore
  end.

(** A token that can be written behind the output [out]: its symbols
    have codes, its extra bits fit, and a match does not reach back
    beyond the start of the output. *)
Definition token_ok (lit dist : list (list bool * Z)) (out : bytes)
    (t : token) : bool :=
  match t with
  | Literal b => coded lit (byte_to_Z b)
  | Match lcode lmore dcode dmore =>
      (lcode <? 29)%nat
      && fits (default 0%nat (Inflate.length_extra !! lcode)) lmore
      && coded lit (257 + Z.of_nat lcode)
      && (dcode <? 30)%nat
      && fits (default 0%nat (Inflate.dist_extra !! dcode)) dmore
      && coded dist (Z.of_nat dcode)
      && (match_distance dcode dmore <=? Z.of_nat (length out))
  end.

Fixpoint tokens_ok (lit dist : list (list bool * Z)) (out : bytes)
    (ts : list token) : bool :=
  match ts with
  | [] => true
  | t :: ts' => token_ok lit dist out t && tokens_ok lit dist (put out t) ts'
  end.

(** The run-length coding of the code lengths of a dynamic block: a
    length (symbols 0 to 15), the last length again 3 to 6 times (16),
    3 to 10 zeros (17), 11 to 138 zeros (18). *)
Inductive item : Type :=
  | Len (l : nat)
  | Again (n : nat)
  | Zeros (n : nat)
  | ManyZeros (n : nat).

(** What an item adds to the lengths, which are kept latest first. *)
Definition grow (lens : list nat) (it : item) : list nat :=
  match it with
  | Len l => l :: lens
  | Again n => replicate n (hd 0%nat lens) ++ lens
  | Zeros n => replicate n 0%nat ++ lens
  | ManyZeros n => replicate n 0%nat ++ lens
  end.

Definition encode_item (table : list (list bool * Z)) (it : item) : list bool :=
  match it with
  | Len l => code_for table (Z.of_nat l)
  | Again n => code_for table 16 ++ bits_of 2 (Z.of_nat n - 3)
  | Zeros n => code_for table 17 ++ bits_of 3 (Z.of_nat n - 3)
  | ManyZeros n => code_for table 18 ++ bits_of 7 (Z.of_nat n - 11)
  end.

Definition item_ok (table : list (list bool * Z)) (lens : list nat)
    (it : item) : bool :=
  match it with
  | Len l => (l <? 16)%nat && coded table (Z.of_nat l)
  | Again n =>
      (3 <=? n)%nat && (n <=? 6)%nat && coded table 16
      && match lens with [] => false | _ => true end
  | Zeros n => (3 <=? n)%nat && (n <=? 10)%nat && coded table 17
  | ManyZeros n => (11 <=? n)%nat && (n <=? 138)%nat && coded table 18
  end.

Fixpoint items_ok (table : list (list bool * Z)) (lens : list nat)
    (items : list item) : bool :=
  match items with
  | [] => true
  | it :: items' => item_ok table lens it && items_ok table (grow lens it) items'
  end.

Definition lengths_of (items : list item) : list nat :=
  rev (foldl grow [] items).

(** A block: stored bytes; tokens in the fixed codes; or tokens in codes
    of the block's own, given by the number of literal/length and of
    distance codes, the number of lengths of the code length code that
    are written, these lengths by symbol, and the items that spell the
    lengths of the two codes. *)
Inductive block : Type :=
  | StoredBlock (content : bytes)
  | FixedBlock (ts : list token)
  | DynamicBlock (nlen ndist ncode : nat) (cl : list nat) (items : list item)
                 (ts : list token).

Definition lit_table (b : block) : list (list bool * Z) :=
  match b with
  | DynamicBlock nlen _ _ _ items _ => Inflate.codes (take nlen (lengths_of items))
  | _ => Inflate.codes Inflate.fixed_lit_lengths
  end.

Definition dist_table (b : block) : list (list bool * Z) :=
  match b with
  | DynamicBlock nlen _ _ _ items _ => Inflate.codes (drop nlen (lengths_of items))
  | _ => Inflate.codes Inflate.fixed_dist_lengths
  end.

(** The output behind a block, latest byte first. *)
Definition block_out (out : bytes) (b : block) : bytes :=
  match b with
  | StoredBlock content => rev content ++ out
  | FixedBlock ts => foldl put out ts
  | DynamicBlock _ _ _ _ _ ts => foldl put out ts
  end.

Definition block_ok (out : bytes) (b : block) : bool :=
  match b with
  | StoredBlock content => (length content <=? Z.to_nat 65535)%nat
  | FixedBlock ts =>
      tokens_ok (lit_table b) (dist_table b) out ts
  | DynamicBlock nlen ndist ncode cl items ts =>
      (257 <=? nlen)%nat && (nlen <=? 286)%nat
      && (1 <=? ndist)%nat && (ndist <=? 30)%nat
      && (4 <=? ncode)%nat && (ncode <=? 19)%nat
      && (length cl =? 19)%nat
      && forallb (fun l => (l <? 8)%nat) cl
      && forallb (fun sym => (default 0%nat (cl !! sym) =? 0)%nat)
                 (drop ncode Inflate.code_length_order)
      && table_ok Inflate.CODES cl
      && items_ok (Inflate.codes cl) [] items
      && (length (lengths_of items) =? nlen + ndist)%nat
      && coded (lit_table b) 256
      && table_ok Inflate.LENS (take nlen (lengths_of items))
      && table_ok Inflate.DISTS (drop nlen (lengths_of items))
      && tokens_ok (lit_table b) (dist_table b) out ts
  end.

Fixpoint blocks_ok (out : bytes) (bs : list block) : bool :=
  match bs with
  | [] => true
  | b :: bs' => block_ok out b && blocks_ok (block_out out b) bs'
  end.

(** Zero bits up to the next byte boundary, [k] bits into the stream. *)
Definition pad_to_byte (k : nat) : list bool :=
  replicate ((8 - k mod 8) mod 8)%nat false.

Definition encode_tokens (b : block) (ts : list token) : list bool :=
  concat (map (encode_token (lit_table b) (dist_table b)) ts)
    ++ code_for (lit_table b) 256.

(** The bits of a block that starts [k] bits into the stream. *)
Definition encode_block (k : nat) (final : bool) (b : block) : list bool :=
  match b with
  | StoredBlock content =>
      [final; false; false] ++ pad_to_byte (k + 3)
        ++ bits_of 16 (Z.of_nat (length content))
        ++ bits_of 16 (65535 - Z.of_nat (length content))
        ++ Inflate.bits_of_bytes content
  | FixedBlock ts => [final; true; false] ++ encode_tokens b ts
  | DynamicBlock nlen ndist ncode cl items ts =>
      [final; false; true]
        ++ bits_of 5 (Z.of_nat nlen - 257)
        ++ bits_of 5 (Z.of_nat ndist - 1)
        ++ bits_of 4 (Z.of_nat ncode - 4)
        ++ concat (map (fun sym => bits_of 3 (Z.of_nat (default 0%nat (cl !! sym))))
                       (take ncode Inflate.code_length_order))
        ++ concat (map (encode_item (Inflate.codes cl)) items)
        ++ encode_tokens b ts
  end.

(** The blocks in a row, the last one marked final. *)
Fixpoint encode_blocks (k : nat) (bs : list block) : list bool :=
  match bs with
  | [] => []
  | b :: bs' =>
      let bits := encode_block k (match bs' with [] => true | _ => false end) b in
      bits ++ encode_blocks (k + length bits) bs'
  end.

Record stream : Type := mkStream {
  cmf : byte;
  flg : byte;
  body : list block;
}.

(** The bytes that come out of a stream. *)
Definition contents (s : stream) : bytes := rev (foldl block_out [] (body s)).

(** A header the decompressor takes: the check of the two bytes, method
    8, a window of at most 32K, no preset dictionary. *)
Definition header_ok (cmf flg : byte) : bool :=
  ((byte_to_Z cmf * 256 + byte_to_Z flg) mod 31 =? 0)
  && (Z.land (byte_to_Z cmf) 15 =? 8)
  && (Z.shiftr (byte_to_Z cmf) 4 <=? 7)
  && (Z.land (byte_to_Z flg) 32 =? 0).

Definition stream_ok (s : stream) : bool :=
  header_ok (cmf s) (flg s)
  && match body s with [] => false | _ => true end
  && blocks_ok [] (body s).

(** The stream as bytes, with [trailer] where the check belongs: the
    header, the blocks, filled up with zero bits to a whole byte, and
    the trailer. *)
Definition frame (s : stream) (trailer : bytes) : bytes :=
  let bits := encode_blocks 0 (body s) in
  cmf s :: flg s
    :: Inflate.bytes_of_bits (bits ++ pad_to_byte (length bits)) ++ trailer.

(** The stream as a compressor writes it, with the Adler-32 of the
    contents as the trailer. *)
Definition encode (s : stream) : bytes :=
  frame s (Stored.be32 (Stored.adler32 (contents s))).

(** *** Two compressors *)

(** The pieces of at most 65535 bytes of the input, as stored blocks. *)
Fixpoint stored_blocks (fuel : nat) (input : bytes) : list block :=
  match fuel with
  | O => [StoredBlock []]
  | S fuel' =>
      if (length input <=? Z.to_nat 65535)%nat then [StoredBlock input]
      else StoredBlock (take (Z.to_nat 65535) input)
             :: stored_blocks fuel' (drop (Z.to_nat 65535) input)
  end.

(** Compression without a search for matches or a choice of codes: the
    input in stored blocks, behind the header bytes of level 0. *)
Definition store (input : bytes) : stream :=
  mkStream x78 x01 (stored_blocks (length input) input).

(** Every byte as a literal in the fixed codes, one block. *)
Definition literals (input : bytes) : stream :=
  mkStream x78 x9c [FixedBlock (map Literal input)].

End Deflate.

(** ** Sample streams

    What [zlib.compress] writes for ["hello"] at the default level, one
    block of literals in the fixed codes. *)
Definition zlib_hello : bytes :=
  [x78; x9c; xcb; x48; xcd; xc9; xc9; x07; x00; x06; x2c; x02; x15].

(** What it writes for ["hello"] at level 0, cut off behind the third
    byte of the stored block. *)
Definition truncated_hello : bytes :=
  [x78; x01; x01; x05; x00; xfa; xff; x68; x65; x6c].

(** A text for which [zlib.compress] makes codes of its own, what it
    writes for it, and the description of that stream: one dynamic
    block, literals and one match. *)
Definition sample_text : bytes :=
  [x64; x62; x62; x62; x62; x62; x61; x62; x63; x61; x64; x64; x61; x61;
   x62; x64; x64; x63; x64; x61; x63; x62; x63; x63].

Definition zlib_sample : bytes :=
  [x78; x9c; x15; xc1; x01; x0d; x00; x00; x0c; x83; x30; xad; x0c; xfc;
   x6b; x78; xde; xb6; xc7; xa4; x60; x65; x38; x3d; x73; x65; x09; x3d].

Definition sample_stream : Deflate.stream :=
  Deflate.mkStream x78 x9c
    [Deflate.DynamicBlock 259 2 18
       [3; 3; 2; 3; 3; 0; 0; 0; 0; 0; 0; 0; 0; 0; 0; 0; 0; 0; 2]%nat
       [Deflate.ManyZeros 97; Deflate.Len 2; Deflate.Len 3; Deflate.Len 2;
        Deflate.Len 2; Deflate.ManyZeros 138; Deflate.ManyZeros 17;
        Deflate.Len 4; Deflate.Len 0; Deflate.Len 4; Deflate.Len 1;
        Deflate.Len 1]
       [Deflate.Literal x64; Deflate.Literal x62; Deflate.Match 1 0 0 0;
        Deflate.Literal x61; Deflate.Literal x62; Deflate.Literal x63;
        Deflate.Literal x61; Deflate.Literal x64; Deflate.Literal x64;
        Deflate.Literal x61; Deflate.Literal x61; Deflate.Literal x62;
        Deflate.Literal x64; Deflate.Literal x64; Deflate.Literal x63;
        Deflate.Literal x64; Deflate.Literal x61; Deflate.Literal x63;
        Deflate.Literal x62; Deflate.Literal x63; Deflate.Literal x63]].

(** * Theorems *)

(** * Upper-case hexadecimal formatting *)

Lemma hex_digit_value_digit (d : Z) :
  0 <= d < 16 -> hex_digit_value (hex_digit d) = Some d.
Proof.
  intros Hd.
  assert (Hcases : d = 0 \/ d = 1 \/ d = 2 \/ d = 3 \/ d = 4 \/ d = 5 \/ d = 6
                   \/ d = 7 \/ d = 8 \/ d = 9 \/ d = 10 \/ d = 11 \/ d = 12
                   \/ d = 13 \/ d = 14 \/ d = 15) by lia.
  repeat (destruct Hcases as [-> | Hcases]; [reflexivity |]).
  subst d. reflexivity.
Qed.

Lemma hex_digit_zero (d : Z) :
  0 <= d < 16 -> hex_digit d = "0"%char -> d = 0.
Proof.
  intros Hd Hc.
  assert (Hv : hex_digit_value (hex_digit d) = Some d)
    by (apply hex_digit_value_digit; exact Hd).
  rewrite Hc in Hv. change (hex_digit_value "0") with (Some 0) in Hv.
  congruence.
Qed.

Lemma append_String (c : ascii) (s t : string) :
  (String c s +:+ t = String c (s +:+ t))%string.
Proof. reflexivity. Qed.

Lemma append_Empty (t : string) : (EmptyString +:+ t = t)%string.
Proof. reflexivity. Qed.

Lemma append_snoc (s : string) (c : ascii) (t : string) :
  ((s +:+ String c EmptyString) +:+ t = s +:+ String c t)%string.
Proof.
  induction s as [| x s IHs]; [reflexivity |].
  rewrite !append_String. f_equal. exact IHs.
Qed.

Lemma length_snoc (s : string) (c : ascii) :
  String.length (s +:+ String c EmptyString) = S (String.length s).
Proof.
  induction s as [| x s IHs]; [reflexivity |].
  rewrite append_String. cbn [String.length]. f_equal. exact IHs.
Qed.

(** What [hex_digits] prepends: [k] digits that read back as [n], the
    first of which is zero only for [n = 0]. *)
Lemma hex_digits_spec (fuel : nat) :
  forall (n : Z) (acc : string),
    (0 < fuel)%nat ->
    0 <= n < 16 ^ Z.of_nat fuel ->
    exists (c : ascii) (ds : string),
      hex_digits fuel n acc = (String c ds ++ acc)%string
      /\ (c = "0"%char -> n = 0 /\ ds = EmptyString)
      /\ forall a, hex_value_from a (String c ds ++ acc)
                   = hex_value_from (a * 16 ^ Z.of_nat (String.length (String c ds)) + n) acc.
Proof.
  induction fuel as [| fuel IH]; intros n acc Hfuel Hn.
  - lia.
  - cbn [hex_digits].
    assert (Hmod : 0 <= n mod 16 < 16) by (apply Z.mod_pos_bound; lia).
    destruct (Z.eqb_spec (n / 16) 0) as [Hq | Hq].
    + assert (Hsmall : n mod 16 = n).
      { pose proof (Z.div_mod n 16 ltac:(lia)). lia. }
      exists (hex_digit (n mod 16)), EmptyString. repeat split.
      * rewrite Hsmall in H. apply hex_digit_zero in H; lia.
      * intros a. rewrite append_String, append_Empty.
        cbn [hex_value_from String.length].
        rewrite hex_digit_value_digit by exact Hmod.
        rewrite Hsmall. f_equal. lia.
    + assert (Hdiv : 0 <= n / 16 < 16 ^ Z.of_nat fuel).
      { split; [apply Z.div_pos; lia |].
        apply Z.div_lt_upper_bound; [lia |].
        replace (16 * 16 ^ Z.of_nat fuel) with (16 ^ Z.of_nat (S fuel)); [lia |].
        rewrite Nat2Z.inj_succ, Z.pow_succ_r by lia. reflexivity. }
      assert (Hpos : (0 < fuel)%nat).
      { destruct fuel; [| lia]. simpl in Hdiv. lia. }
      destruct (IH (n / 16) (String (hex_digit (n mod 16)) acc) Hpos Hdiv)
        as (c & ds & Heq & Hzero & Hval).
      exists c, (ds +:+ String (hex_digit (n mod 16)) EmptyString)%string.
      assert (Happ : (String c (ds +:+ String (hex_digit (n mod 16)) EmptyString) +:+ acc
                      = String c ds +:+ String (hex_digit (n mod 16)) acc)%string).
      { rewrite !append_String, append_snoc. reflexivity. }
      repeat split.
      * rewrite Heq, Happ. reflexivity.
      * destruct (Hzero H) as [Hz _]. contradiction.
      * destruct (Hzero H) as [Hz _]. contradiction.
      * intros a. rewrite Happ, Hval.
        cbn [hex_value_from]. rewrite hex_digit_value_digit by exact Hmod.
        f_equal. cbn [String.length]. rewrite length_snoc.
        rewrite (Nat2Z.inj_succ (S _)), Z.pow_succ_r by lia.
        pose proof (Z.div_mod n 16 ltac:(lia)). lia.
Qed.

Lemma append_Empty_r (s : string) : (s +:+ EmptyString = s)%string.
Proof.
  induction s as [| x s IHs]; [reflexivity |].
  rewrite append_String. f_equal. exact IHs.
Qed.

Lemma length_append (s t : string) :
  String.length (s +:+ t) = (String.length s + String.length t)%nat.
Proof.
  induction s as [| x s IHs]; [reflexivity |].
  rewrite append_String. cbn [String.length]. rewrite IHs. reflexivity.
Qed.

Lemma length_zeros (k : nat) : String.length (zeros k) = k.
Proof. induction k as [| k IHk]; [reflexivity |]. cbn. f_equal. exact IHk. Qed.

Lemma hex_value_zeros (k : nat) (s : string) :
  hex_value_from 0 (zeros k +:+ s) = hex_value_from 0 s.
Proof.
  induction k as [| k IHk]; [reflexivity |].
  cbn [zeros]. rewrite append_String. cbn [hex_value_from].
  change (hex_digit_value "0") with (Some 0). exact IHk.
Qed.

Lemma hex_upper_fuel (n : Z) :
  0 <= n -> 0 <= n < 16 ^ Z.of_nat (S (Z.to_nat (Z.log2 n))).
Proof.
  intros Hn. split; [exact Hn |].
  pose proof (Z.log2_nonneg n) as Hlog.
  rewrite Nat2Z.inj_succ, Z2Nat.id by exact Hlog.
  assert (Hlt : n < 2 ^ Z.succ (Z.log2 n)).
  { destruct (Z.eq_dec n 0) as [-> | Hne]; [reflexivity |].
    apply Z.log2_spec. lia. }
  assert (Hle : 2 ^ Z.succ (Z.log2 n) <= 16 ^ Z.succ (Z.log2 n))
    by (apply Z.pow_le_mono_l; lia).
  lia.
Qed.

(** The digits [hex_upper] writes read back as the number; there is at
    least one, and a leading zero only for zero itself. *)
Lemma hex_upper_spec (n : Z) :
  0 <= n ->
  exists (c : ascii) (ds : string),
    hex_upper n = String c ds
    /\ hex_value (String c ds) = Some n
    /\ (c = "0"%char -> ds = EmptyString).
Proof.
  intros Hn.
  destruct (hex_digits_spec (S (Z.to_nat (Z.log2 n))) n EmptyString
              ltac:(lia) (hex_upper_fuel n Hn)) as (c & ds & Heq & Hzero & Hval).
  rewrite append_Empty_r in Heq.
  exists c, ds. repeat split.
  - exact Heq.
  - unfold hex_value. specialize (Hval 0). rewrite append_Empty_r in Hval.
    rewrite Hval. cbn [hex_value_from]. f_equal; lia.
  - intros Hc. apply Hzero, Hc.
Qed.

(** [format(n, "04X")] of a non-negative integer: upper-case hexadecimal
    digits that read back as [n], at least four of them, with leading
    zeros only up to that width. *)
Lemma format_04X_spec (n : Z) :
  0 <= n ->
  hex_value (format_04X n) = Some n
  /\ (4 <= String.length (format_04X n))%nat
  /\ ((4 < String.length (format_04X n))%nat ->
      forall rest, format_04X n <> String "0"%char rest).
Proof.
  intros Hn. unfold format_04X.
  destruct (Z.ltb_spec n 0) as [Hneg | _]; [lia |].
  destruct (hex_upper_spec n Hn) as (c & ds & Heq & Hval & Hzero).
  rewrite Heq. cbv zeta. repeat split.
  - unfold hex_value. rewrite hex_value_zeros. exact Hval.
  - rewrite length_append, length_zeros. lia.
  - rewrite length_append, length_zeros. intros Hlong rest Hrest.
    assert (Hpad : (4 - String.length (String c ds) = 0)%nat) by lia.
    rewrite Hpad in Hrest. cbn [zeros] in Hrest. rewrite append_Empty in Hrest.
    injection Hrest as Hc _. specialize (Hzero Hc). subst ds.
    cbn [String.length] in Hlong. lia.
Qed.

Lemma FILES_nonempty (k : Z) (name : string) :
  FILES !! k = Some name -> name <> EmptyString.
Proof.
  intros Hk.
  assert (Hall : map_Forall (fun _ v => v <> EmptyString) FILES).
  { unfold FILES. repeat (apply map_Forall_insert_2; [discriminate |]).
    apply map_Forall_empty. }
  exact (Hall k name Hk).
Qed.

Lemma file_name_nonempty (e : PUPEntry) : file_name e <> EmptyString.
Proof.
  unfold file_name.
  destruct (FILES !! Z.shiftr (flags e) 20) as [name |] eqn:Hk; cbn [default].
  - eapply FILES_nonempty, Hk.
  - discriminate.
Qed.

(** C4: the output file name of an entry is the table's value for the
    identifier [flags >> 20] when the table has that key; otherwise it is
    ["unknown_"] followed by the identifier in upper-case hexadecimal,
    zero-padded to four digits.  Identifier [0xFFF] gives
    ["unknown_0FFF"]. *)
Theorem file_name_resolution (e : PUPEntry) :
  0 <= flags e ->
  let id := Z.shiftr (flags e) 20 in
  match FILES !! id with
  | Some name => file_name e = name
  | None =>
      exists ds : string,
        file_name e = ("unknown_" +:+ ds)%string
        /\ hex_value ds = Some id
        /\ (4 <= String.length ds)%nat
        /\ ((4 < String.length ds)%nat -> forall rest, ds <> String "0"%char rest)
  end
  /\ (id = 0xFFF -> file_name e = "unknown_0FFF"%string).
Proof.
  intros Hflags id.
  assert (Hid : 0 <= id) by (apply Z.shiftr_nonneg; exact Hflags).
  split.
  - unfold file_name. fold id.
    destruct (FILES !! id) as [name |]; cbn [default]; [reflexivity |].
    exists (format_04X id). split; [reflexivity |].
    apply format_04X_spec, Hid.
  - intros Hfff. unfold file_name. fold id. rewrite Hfff. reflexivity.
Qed.

(** * Payload processing *)

(** [flags & 0x8] is non-zero exactly when bit 3 is set. *)
Lemma compressed_testbit (e : PUPEntry) :
  compressed e = Z.testbit (flags e) 3.
Proof.
  unfold compressed.
  assert (Hland : Z.land (flags e) 8 = if Z.testbit (flags e) 3 then 8 else 0).
  { apply Z.bits_inj'. intros i Hi.
    rewrite Z.land_spec.
    destruct (Z.eq_dec i 3) as [-> | Hne].
    - change (Z.testbit 8 3) with true. rewrite andb_true_r.
      destruct (Z.testbit (flags e) 3); reflexivity.
    - replace (Z.testbit 8 i) with false.
      + rewrite andb_false_r.
        destruct (Z.testbit (flags e) 3); [| symmetry; apply Z.bits_0].
        change 8 with (2 ^ 3). symmetry. apply Z.pow2_bits_false. lia.
      + change 8 with (2 ^ 3). symmetry. apply Z.pow2_bits_false. lia. }
  rewrite Hland. destruct (Z.testbit (flags e) 3); reflexivity.
Qed.

Section Processing.

Context `{codec : Zlib}.

Lemma inflate_stream_error (raw : bytes) (err : exn) :
  inflate_stream raw = inl err -> exists msg, err = ZlibError msg.
Proof.
  unfold inflate_stream.
  destruct (decompress decompressobj raw) as [msg | [dobj out]].
  - intros [= <-]. eauto.
  - destruct (flush dobj) as [msg | rest]; [| discriminate].
    intros [= <-]. eauto.
Qed.

Lemma process_bytes_inflate (e : PUPEntry) (raw : bytes) :
  process_bytes e raw =
    if compressed e then
      match inflate_stream raw with
      | inl err => inl err
      | inr out => inr (set_data e out)
      end
    else inr (set_data e raw).
Proof.
  unfold process_bytes, inflate_stream.
  destruct (compressed e); [| reflexivity].
  destruct (decompress decompressobj raw) as [msg | [dobj out]]; [reflexivity |].
  destruct (flush dobj); reflexivity.
Qed.


(** C9: processing a payload changes the [data] field of the entry and
    nothing else. *)
Theorem process_bytes_frame (e e' : PUPEntry) (raw : bytes) :
  process_bytes e raw = inr e' ->
  flags e' = flags e /\ offset e' = offset e
  /\ file_size e' = file_size e /\ memory_size e' = memory_size e
  /\ e' = set_data e (data e').
Proof.
  rewrite process_bytes_inflate.
  destruct (compressed e).
  - destruct (inflate_stream raw); [discriminate |].
    intros [= <-]. repeat split.
  - intros [= <-]. repeat split.
Qed.

End Processing.

(** * Extraction *)

Lemma write_entry_insert (dir : gmap string bytes) (e : PUPEntry) :
  write_entry dir e = <[file_name e := data e]> dir.
Proof.
  unfold write_entry. case_decide as Hname; [| reflexivity].
  exfalso. exact (file_name_nonempty e Hname).
Qed.

Lemma named_app (name : string) (es1 es2 : list PUPEntry) :
  named name (es1 ++ es2) = named name es1 ++ named name es2.
Proof. unfold named. apply filter_app. Qed.

(** After writing a list of entries, a name holds the data of the last
    entry that resolves to it, or what the directory had before. *)
Lemma foldl_write_entry_lookup (es : list PUPEntry) :
  forall (dir : gmap string bytes) (name : string),
    foldl write_entry dir es !! name =
      match last (named name es) with
      | Some e => Some (data e)
      | None => dir !! name
      end.
Proof.
  induction es as [| e es IH] using rev_ind; intros dir name.
  - reflexivity.
  - rewrite foldl_app. cbn [foldl]. rewrite write_entry_insert, named_app.
    unfold named at 2. rewrite filter_cons, filter_nil.
    case_decide as Hname.
    + rewrite last_snoc. subst name. apply lookup_insert_eq.
    + rewrite app_nil_r, lookup_insert_ne by exact Hname. apply IH.
Qed.

Lemma foldl_write_entry_dom (es : list PUPEntry) :
  forall dir : gmap string bytes,
    dom (foldl write_entry dir es)
    = dom dir ∪ list_to_set (file_name <$> es).
Proof.
  induction es as [| e es IH]; intros dir.
  - cbn. rewrite union_empty_r_L. reflexivity.
  - cbn [foldl fmap list_fmap list_to_set].
    rewrite IH, write_entry_insert, dom_insert_L.
    rewrite (union_comm_L {[file_name e]} (dom dir)), union_assoc_L.
    reflexivity.
Qed.

Lemma named_elem (e : PUPEntry) (es : list PUPEntry) :
  e ∈ es -> exists e', last (named (file_name e) es) = Some e'.
Proof.
  intros Hin.
  assert (Hne : named (file_name e) es <> []).
  { intros Hnil.
    assert (He : e ∈ named (file_name e) es)
      by (apply list_elem_of_filter; split; [reflexivity | exact Hin]).
    rewrite Hnil in He. inversion He. }
  destruct (last (named (file_name e) es)) as [e' |] eqn:Hlast; [eauto |].
  apply last_None in Hlast. contradiction.
Qed.

(** C8: [extract] leaves one file per distinct resolved file name (every
    entry gets one), and where several entries resolve to the same name
    the file holds the data of the last of them in table order; other
    files of the directory are left as they were. *)
Theorem extract_last_wins (self : PUP) (out_dir : option (gmap string bytes)) :
  (forall name : string,
      extract self out_dir !! name =
        match last (named name (entries self)) with
        | Some e => Some (data e)
        | None => mkdir out_dir !! name
        end)
  /\ (forall e, e ∈ entries self ->
        exists e', last (named (file_name e) (entries self)) = Some e'
                   /\ extract self out_dir !! file_name e = Some (data e'))
  /\ dom (extract self out_dir)
     = dom (mkdir out_dir) ∪ list_to_set (file_name <$> entries self)
  /\ size (extract self None)
     = length (remove_dups (file_name <$> entries self)).
Proof.
  unfold extract. repeat split.
  - intros name. apply foldl_write_entry_lookup.
  - intros e Hin. destruct (named_elem e (entries self) Hin) as [e' He'].
    exists e'. split; [exact He' |].
    rewrite foldl_write_entry_lookup, He'. reflexivity.
  - apply foldl_write_entry_dom.
  - rewrite <- size_dom, foldl_write_entry_dom.
    unfold mkdir. cbn [default]. rewrite dom_empty_L, union_empty_l_L.
    rewrite <- (size_list_to_set (C := gset string)
                  (remove_dups (file_name <$> entries self)))
      by apply NoDup_remove_dups.
    f_equal. apply set_eq. intros x.
    rewrite !elem_of_list_to_set, elem_of_remove_dups. reflexivity.
Qed.

(** * Byte strings and the stream *)

Lemma byte_to_Z_range (b : byte) : 0 <= byte_to_Z b < 256.
Proof.
  unfold byte_to_Z. pose proof (Byte.to_N_bounded b) as Hb. lia.
Qed.

Lemma le_to_Z_range (bs : bytes) :
  0 <= Struct.le_to_Z bs < 256 ^ Z.of_nat (length bs).
Proof.
  induction bs as [| b bs IH].
  - cbn. lia.
  - cbn [Struct.le_to_Z length]. pose proof (byte_to_Z_range b).
    rewrite Nat2Z.inj_succ, Z.pow_succ_r by lia. lia.
Qed.

Lemma length_slice (b : bytes) (p n : Z) :
  0 <= p -> 0 <= n ->
  Z.of_nat (length (slice b p n)) = Z.min n (Z.max 0 (Z.of_nat (length b) - p)).
Proof.
  intros Hp Hn. unfold slice. rewrite length_take, length_drop. lia.
Qed.

Lemma slice_full (b : bytes) (p n : Z) :
  0 <= p -> 0 <= n -> p + n <= Z.of_nat (length b) ->
  Z.of_nat (length (slice b p n)) = n.
Proof. intros Hp Hn Hle. rewrite length_slice by lia. lia. Qed.

(** A slice of a slice that is long enough is a slice of the whole. *)
Lemma slice_slice (b : bytes) (p n q m : Z) :
  0 <= p -> 0 <= q -> 0 <= m -> q + m <= n ->
  slice (slice b p n) q m = slice b (p + q) m.
Proof.
  intros Hp Hq Hm Hle. unfold slice.
  apply list_eq. intros i.
  rewrite !lookup_take, !lookup_drop.
  destruct (decide (i < Z.to_nat m)%nat) as [Hi | Hi]; [| reflexivity].
  rewrite lookup_take, lookup_drop.
  destruct (decide (Z.to_nat q + i < Z.to_nat n)%nat) as [Hj | Hj]; [| lia].
  f_equal. lia.
Qed.

Lemma read_spec (size : Z) (s : BytesIO.t) :
  0 <= BytesIO.pos s -> 0 <= size <= BytesIO.PY_SSIZE_T_MAX ->
  BytesIO.read size s =
    (BytesIO.mk (BytesIO.buf s)
       (BytesIO.pos s
        + Z.of_nat (length (slice (BytesIO.buf s) (BytesIO.pos s) size))),
     inr (slice (BytesIO.buf s) (BytesIO.pos s) size)).
Proof.
  intros Hpos Hsize. destruct s as [b p]. cbn [BytesIO.buf BytesIO.pos] in *.
  pose proof (length_slice b p size Hpos ltac:(lia)) as Hlen.
  unfold BytesIO.read. cbn [BytesIO.buf BytesIO.pos].
  destruct (Z.ltb_spec BytesIO.PY_SSIZE_T_MAX size) as [Hbig | _]; [lia |].
  destruct (Z.ltb_spec size 0) as [Hneg | _]; [lia |]. cbn [orb].
  destruct (Z.ltb_spec (Z.of_nat (length b) - p) size) as [Hshort | Hfits].
  - assert (Hall : slice b p size = drop (Z.to_nat p) b).
    { unfold slice. apply take_ge. rewrite length_drop. lia. }
    destruct (Z.eqb_spec (Z.max (Z.of_nat (length b) - p) 0) 0) as [Hz | Hnz].
    + rewrite Hlen. replace (Z.min _ _) with 0 by lia.
      rewrite Z.add_0_r. f_equal. f_equal. symmetry.
      rewrite Hall. apply drop_ge. lia.
    + rewrite Hlen. f_equal; [f_equal; lia |]. f_equal.
      rewrite Hall. apply take_ge. rewrite length_drop. lia.
  - destruct (Z.eqb_spec size 0) as [-> | Hnz].
    + rewrite Hlen. replace (Z.min _ _) with 0 by lia.
      rewrite Z.add_0_r. reflexivity.
    + rewrite Hlen. f_equal. f_equal. lia.
Qed.

Lemma seek_spec (p : Z) (s : BytesIO.t) :
  0 <= p <= BytesIO.PY_SSIZE_T_MAX ->
  BytesIO.seek p s = (BytesIO.mk (BytesIO.buf s) p, inr p).
Proof.
  intros Hp. unfold BytesIO.seek.
  destruct (Z.ltb_spec BytesIO.PY_SSIZE_T_MAX p) as [Hbig | _]; [lia |].
  destruct (Z.ltb_spec p 0) as [Hneg | _]; [lia |]. reflexivity.
Qed.

(** * The two layouts *)

Lemma compile_header : Struct.compile PUP_HEADER_FORMAT = inr header_codes.
Proof. reflexivity. Qed.

Lemma compile_entry :
  Struct.compile PUP_ENTRY_FORMAT = inr [Struct.Q; Struct.Q; Struct.Q; Struct.Q].
Proof. reflexivity. Qed.

Lemma calcsize_header : Struct.calcsize PUP_HEADER_FORMAT = inr HEADER_SIZE.
Proof. reflexivity. Qed.

Lemma calcsize_entry : Struct.calcsize PUP_ENTRY_FORMAT = inr ENTRY_SIZE.
Proof. reflexivity. Qed.

Lemma unpack_header_short (hdr : bytes) :
  Z.of_nat (length hdr) <> 32 ->
  Struct.unpack PUP_HEADER_FORMAT hdr = inl short_buffer.
Proof.
  intros Hlen. unfold Struct.unpack. rewrite compile_header.
  change (Struct.size_of header_codes) with 32.
  case_decide; [contradiction | reflexivity].
Qed.

Lemma unpack_entry_short (r : bytes) :
  Z.of_nat (length r) <> 32 ->
  Struct.unpack PUP_ENTRY_FORMAT r = inl short_buffer.
Proof.
  intros Hlen. unfold Struct.unpack. rewrite compile_entry.
  change (Struct.size_of _) with 32.
  case_decide; [contradiction | reflexivity].
Qed.

Lemma unpack_entry (r : bytes) :
  Z.of_nat (length r) = 32 ->
  Struct.unpack PUP_ENTRY_FORMAT r =
    inr [Struct.le_to_Z (slice r 0 8); Struct.le_to_Z (slice r 8 8);
         Struct.le_to_Z (slice r 16 8); Struct.le_to_Z (slice r 24 8)].
Proof.
  intros Hlen. unfold Struct.unpack. rewrite compile_entry.
  change (Struct.size_of _) with 32.
  case_decide; [| contradiction].
  cbn [Struct.unpack_fields Struct.size]. rewrite !drop_drop. reflexivity.
Qed.

Lemma unpack_header (hdr : bytes) :
  Z.of_nat (length hdr) = 32 ->
  exists version mode endian flags content product padding header_size
         hash_size file_size padding2 flags2 unk1C,
    Struct.unpack PUP_HEADER_FORMAT hdr =
      inr [Struct.le_to_Z (slice hdr 0 4); version; mode; endian; flags;
           content; product; padding; header_size; hash_size; file_size;
           padding2; Struct.le_to_Z (slice hdr 24 2); flags2; unk1C].
Proof.
  intros Hlen. unfold Struct.unpack. rewrite compile_header.
  change (Struct.size_of header_codes) with 32.
  case_decide; [| contradiction].
  unfold header_codes. cbn [Struct.unpack_fields Struct.size].
  rewrite !drop_drop. do 13 eexists. reflexivity.
Qed.

(** * The entry table loop *)

Section Loops.

Context `{codec : Zlib}.

Lemma read_entry_ok (file_data : bytes) (k : Z) (es : list PUPEntry) :
  0 <= k ->
  32 + 32 * (k + 1) <= Z.of_nat (length file_data) ->
  read_entry (mkFrame (BytesIO.mk file_data (32 + 32 * k)) es)
  = (mkFrame (BytesIO.mk file_data (32 + 32 * (k + 1)))
             (es ++ [descriptor file_data k]), inr tt).
Proof.
  intros Hk Hlen. unfold read_entry, bind, lift, stream_read.
  rewrite calcsize_entry. cbn [stream self_entries].
  rewrite read_spec by (cbn; unfold BytesIO.PY_SSIZE_T_MAX, ENTRY_SIZE; lia).
  cbn [BytesIO.buf BytesIO.pos].
  assert (Hrec : Z.of_nat (length (slice file_data (32 + 32 * k) ENTRY_SIZE)) = 32).
  { apply slice_full; unfold ENTRY_SIZE; lia. }
  rewrite Hrec, unpack_entry by exact Hrec.
  unfold entries_append. cbn [stream self_entries].
  f_equal. f_equal. f_equal. lia.
Qed.

Lemma read_entry_short (file_data : bytes) (k : Z) (es : list PUPEntry) :
  0 <= k ->
  Z.of_nat (length file_data) < 32 + 32 * (k + 1) ->
  exists s,
    read_entry (mkFrame (BytesIO.mk file_data (32 + 32 * k)) es)
    = (mkFrame s es, inl short_buffer).
Proof.
  intros Hk Hlen. unfold read_entry, bind, lift, stream_read.
  rewrite calcsize_entry. cbn [stream self_entries].
  rewrite read_spec by (cbn; unfold BytesIO.PY_SSIZE_T_MAX, ENTRY_SIZE; lia).
  cbn [BytesIO.buf BytesIO.pos].
  rewrite unpack_entry_short.
  - eexists. reflexivity.
  - rewrite length_slice by (unfold ENTRY_SIZE; lia). unfold ENTRY_SIZE. lia.
Qed.

(** With the whole table in the file, the loop appends its records in
    order. *)
Lemma for_range_read_entry_ok (file_data : bytes) (n : nat) :
  forall (k : nat) (es : list PUPEntry),
    32 + 32 * Z.of_nat (k + n) <= Z.of_nat (length file_data) ->
    for_range n read_entry
      (mkFrame (BytesIO.mk file_data (32 + 32 * Z.of_nat k)) es)
    = (mkFrame (BytesIO.mk file_data (32 + 32 * Z.of_nat (k + n)))
               (es ++ ((fun i => descriptor file_data (Z.of_nat i)) <$> seq k n)),
       inr tt).
Proof.
  induction n as [| n IH]; intros k es Hlen.
  - cbn [for_range seq fmap list_fmap]. unfold ret.
    rewrite app_nil_r, Nat.add_0_r. reflexivity.
  - cbn [for_range]. unfold bind at 1.
    rewrite read_entry_ok by lia.
    replace (Z.of_nat k + 1) with (Z.of_nat (S k)) by lia.
    rewrite IH by lia.
    cbn [seq fmap list_fmap]. rewrite <- app_assoc. cbn [app].
    replace (S k + n)%nat with (k + S n)%nat by lia. reflexivity.
Qed.

(** With the file ending inside the table, the loop raises
    [struct.error]. *)
Lemma for_range_read_entry_short (file_data : bytes) (n : nat) :
  forall (k : nat) (es : list PUPEntry),
    32 + 32 * Z.of_nat k <= Z.of_nat (length file_data) ->
    Z.of_nat (length file_data) < 32 + 32 * Z.of_nat (k + n) ->
    snd (for_range n read_entry
           (mkFrame (BytesIO.mk file_data (32 + 32 * Z.of_nat k)) es))
    = inl short_buffer.
Proof.
  induction n as [| n IH]; intros k es Hlo Hhi.
  - lia.
  - cbn [for_range]. unfold bind at 1.
    destruct (Z.le_gt_cases (32 + 32 * (Z.of_nat k + 1))
                            (Z.of_nat (length file_data))) as [Hfits | Hshort].
    + rewrite read_entry_ok by lia.
      replace (Z.of_nat k + 1) with (Z.of_nat (S k)) by lia.
      apply IH; lia.
    + destruct (read_entry_short file_data (Z.of_nat k) es ltac:(lia) ltac:(lia))
        as [s ->]. reflexivity.
Qed.

(** * The payload loop *)

Lemma load_entry_spec (file_data : bytes) (fr : frame) (i : nat) (e : PUPEntry) :
  BytesIO.buf (stream fr) = file_data ->
  self_entries fr !! i = Some e ->
  0 <= offset e -> 0 <= file_size e ->
  exists s,
    BytesIO.buf s = file_data
    /\ load_entry i fr =
         match load_one file_data e with
         | inl err => (mkFrame s (self_entries fr), inl err)
         | inr e' => (mkFrame s (<[i := e']> (self_entries fr)), inr tt)
         end.
Proof.
  intros Hbuf Hget Hoff Hsize.
  unfold load_entry, load_one, bind at 1, entries_get. rewrite Hget.
  unfold bind at 1, stream_seek, BytesIO.seek.
  destruct (Z.ltb_spec BytesIO.PY_SSIZE_T_MAX (offset e)) as [Hbig | Hfit].
  { exists (stream fr). split; [exact Hbuf |]. destruct fr; reflexivity. }
  destruct (Z.ltb_spec (offset e) 0) as [Hneg | _]; [lia |].
  unfold bind at 1, stream_read. cbn [stream self_entries].
  unfold BytesIO.read at 1.
  destruct (Z.ltb_spec BytesIO.PY_SSIZE_T_MAX (file_size e)) as [Hbig | Hfit'].
  { exists (BytesIO.mk (BytesIO.buf (stream fr)) (offset e)).
    split; [exact Hbuf |]. reflexivity. }
  pose proof (read_spec (file_size e)
                (BytesIO.mk (BytesIO.buf (stream fr)) (offset e))
                Hoff ltac:(lia)) as Hread.
  unfold BytesIO.read in Hread.
  destruct (Z.ltb_spec BytesIO.PY_SSIZE_T_MAX (file_size e)) as [Hbig | _];
    [lia |].
  rewrite Hread. cbn [BytesIO.buf BytesIO.pos]. rewrite Hbuf.
  eexists. split; [| unfold bind, lift, payload, entries_set;
                     cbn [stream self_entries];
                     destruct (process_bytes e _); reflexivity].
  reflexivity.
Qed.

End Loops.

Lemma descriptor_unsigned64 (file_data : bytes) (i : Z) :
  unsigned64 (descriptor file_data i).
Proof.
  unfold unsigned64, descriptor, PUPEntry_init.
  cbn [flags offset file_size memory_size].
  assert (Hfield : forall r p, 0 <= p ->
            0 <= Struct.le_to_Z (slice r p 8) < 2 ^ 64).
  { intros r p Hp. pose proof (le_to_Z_range (slice r p 8)) as Hr.
    pose proof (length_slice r p 8 Hp ltac:(lia)) as Hl.
    assert (Hpow : 256 ^ Z.of_nat (length (slice r p 8)) <= 256 ^ 8)
      by (apply Z.pow_le_mono_r; lia).
    change (256 ^ 8) with (2 ^ 64) in Hpow. lia. }
  repeat split; apply Hfield; lia.
Qed.

Lemma table_from_table (file_data : bytes) (n : nat) :
  Forall from_table (table file_data n).
Proof.
  unfold table. apply Forall_forall. intros e Hin.
  apply list_elem_of_fmap in Hin. destruct Hin as (i & -> & _).
  destruct (descriptor_unsigned64 file_data (Z.of_nat i)) as (_ & Ho & Hs & _).
  split; lia.
Qed.

Section Loops.

Context `{codec : Zlib}.

Lemma for_index_load_entry (file_data : bytes) (todo : list PUPEntry) :
  forall (done : list PUPEntry) (fr : frame),
    BytesIO.buf (stream fr) = file_data ->
    self_entries fr = done ++ todo ->
    Forall from_table todo ->
    exists fr',
      for_index (length done) (length todo) load_entry fr
      = (fr', match load_all file_data todo with
              | inl err => inl err
              | inr _ => inr tt
              end)
      /\ forall todo', load_all file_data todo = inr todo' ->
                       self_entries fr' = done ++ todo'.
Proof.
  induction todo as [| e todo IH]; intros done fr Hbuf Hes Hall.
  - exists fr. split; [reflexivity |].
    intros todo' [= <-]. exact Hes.
  - apply Forall_cons in Hall. destruct Hall as [[Hoff Hsize] Hall].
    assert (Hget : self_entries fr !! length done = Some e)
      by (rewrite Hes; apply list_lookup_middle; reflexivity).
    destruct (load_entry_spec file_data fr (length done) e Hbuf Hget Hoff Hsize)
      as (s & Hs & Hload).
    cbn [for_index length load_all]. unfold bind at 1. rewrite Hload.
    destruct (load_one file_data e) as [err | e'].
    + eexists. split; [reflexivity |]. discriminate.
    + destruct (IH (done ++ [e'])
                  (mkFrame s (<[length done := e']> (self_entries fr))))
        as (fr' & Hrun & Hfinal).
      * exact Hs.
      * cbn [self_entries]. rewrite Hes.
        rewrite insert_app_r_alt, Nat.sub_diag by reflexivity.
        rewrite <- app_assoc. reflexivity.
      * exact Hall.
      * rewrite length_app, Nat.add_1_r in Hrun. cbn [length] in Hrun.
        exists fr'. split.
        -- rewrite Hrun. destruct (load_all file_data todo); reflexivity.
        -- intros todo'. destruct (load_all file_data todo) as [err | es''];
             [discriminate |].
           intros [= <-]. rewrite (Hfinal es'' eq_refl), <- app_assoc.
           reflexivity.
Qed.

(** * What [parse] does, case by case *)

Lemma parse_header_short (file_data : bytes) (self : PUP) :
  Z.of_nat (length file_data) < HEADER_SIZE ->
  parse file_data self = (self, inl short_buffer).
Proof.
  intros Hlen. unfold HEADER_SIZE in Hlen.
  unfold parse, parse_body, bind, lift, stream_read.
  rewrite calcsize_header. cbn [stream self_entries].
  rewrite read_spec
    by (cbn; unfold BytesIO.PY_SSIZE_T_MAX, HEADER_SIZE; lia).
  rewrite unpack_header_short.
  - destruct self; reflexivity.
  - cbn [BytesIO.new BytesIO.buf BytesIO.pos].
    rewrite length_slice by (unfold HEADER_SIZE; lia). unfold HEADER_SIZE. lia.
Qed.

(** The state of [parse] once the header has been read and unpacked. *)
Lemma parse_body_after_header (file_data : bytes) (es : list PUPEntry) :
  HEADER_SIZE <= Z.of_nat (length file_data) ->
  parse_body (mkFrame (BytesIO.new file_data) es) =
    (if decide (magic_of file_data ≠ 0x1D3D154F)
     then raise (RuntimeError "Invalid PUP file")
     else
       run for_range (Z.to_nat (entries_count_of file_data)) read_entry ;
       do count <~ entries_length ;
       for_index 0 count load_entry)
      (mkFrame (BytesIO.mk file_data 32) es).
Proof.
  intros Hlen. unfold HEADER_SIZE in Hlen.
  unfold parse_body, bind at 1, lift at 1. rewrite calcsize_header.
  unfold bind at 1, stream_read at 1. cbn [stream self_entries].
  rewrite read_spec
    by (cbn; unfold BytesIO.PY_SSIZE_T_MAX, HEADER_SIZE; lia).
  cbn [BytesIO.new BytesIO.buf BytesIO.pos].
  assert (Hhdr : Z.of_nat (length (slice file_data 0 HEADER_SIZE)) = 32)
    by (apply slice_full; unfold HEADER_SIZE; lia).
  rewrite Hhdr.
  destruct (unpack_header (slice file_data 0 HEADER_SIZE) Hhdr)
    as (version & mode & endian & fl & content & product & padding
        & header_size & hash_size & fsize & padding2 & flags2 & unk1C & Hun).
  unfold bind at 1, lift at 1. rewrite Hun.
  unfold HEADER_SIZE.
  rewrite !slice_slice by lia. reflexivity.
Qed.

(** A wrong magic stops [parse] with the stream right behind the
    header and the entry list untouched. *)
Lemma parse_body_invalid_magic (file_data : bytes) (es : list PUPEntry) :
  HEADER_SIZE <= Z.of_nat (length file_data) ->
  magic_of file_data <> MAGIC ->
  parse_body (mkFrame (BytesIO.new file_data) es)
  = (mkFrame (BytesIO.mk file_data HEADER_SIZE) es,
     inl (RuntimeError "Invalid PUP file")).
Proof.
  intros Hlen Hmagic.
  rewrite parse_body_after_header by exact Hlen.
  case_decide as Hm; [reflexivity | contradiction].
Qed.

Lemma parse_invalid_magic (file_data : bytes) (self : PUP) :
  HEADER_SIZE <= Z.of_nat (length file_data) ->
  magic_of file_data <> MAGIC ->
  parse file_data self = (self, inl (RuntimeError "Invalid PUP file")).
Proof.
  intros Hlen Hmagic. unfold parse.
  rewrite parse_body_invalid_magic by assumption.
  cbn [self_entries]. destruct self; reflexivity.
Qed.

Lemma parse_table_short (file_data : bytes) (self : PUP) :
  HEADER_SIZE <= Z.of_nat (length file_data) ->
  magic_of file_data = MAGIC ->
  Z.of_nat (length file_data)
    < HEADER_SIZE + ENTRY_SIZE * entries_count_of file_data ->
  snd (parse file_data self) = inl short_buffer.
Proof.
  intros Hlen Hmagic Hshort. unfold HEADER_SIZE, ENTRY_SIZE in *. unfold parse.
  rewrite parse_body_after_header by exact Hlen.
  case_decide as Hm; [contradiction |].
  unfold bind at 1.
  pose proof (for_range_read_entry_short file_data
                (Z.to_nat (entries_count_of file_data)) 0 (entries self)
                ltac:(lia) ltac:(lia)) as Hloop.
  change (32 + 32 * Z.of_nat 0) with 32 in Hloop.
  destruct (for_range _ _ _) as [fr r]. cbn [snd] in Hloop. subst r.
  reflexivity.
Qed.

(** With the header and the table in the file, [parse] on a fresh
    container is [load_all] over the table. *)
Lemma parse_table_complete (file_data : bytes) (p : string) :
  HEADER_SIZE <= Z.of_nat (length file_data) ->
  magic_of file_data = MAGIC ->
  HEADER_SIZE + ENTRY_SIZE * entries_count_of file_data
    <= Z.of_nat (length file_data) ->
  let tbl := table file_data (Z.to_nat (entries_count_of file_data)) in
  exists self',
    parse file_data (PUP_init p)
    = (self', match load_all file_data tbl with
              | inl err => inl err
              | inr _ => inr tt
              end)
    /\ path self' = p
    /\ forall es, load_all file_data tbl = inr es -> entries self' = es.
Proof.
  intros Hlen Hmagic Hfits tbl. unfold HEADER_SIZE, ENTRY_SIZE in *.
  pose proof (le_to_Z_range (slice file_data 24 2)) as [Hcount _].
  fold (entries_count_of file_data) in Hcount.
  unfold parse. cbn [PUP_init entries path].
  rewrite parse_body_after_header by exact Hlen.
  case_decide as Hm; [contradiction |].
  unfold bind at 1.
  pose proof (for_range_read_entry_ok file_data
                (Z.to_nat (entries_count_of file_data)) 0 []
                ltac:(lia)) as Hloop.
  change (32 + 32 * Z.of_nat 0) with 32 in Hloop.
  rewrite Hloop. cbn [app]. fold (table file_data (Z.to_nat (entries_count_of file_data))).
  fold tbl. unfold bind at 1, entries_length. cbn [self_entries].
  destruct (for_index_load_entry file_data tbl []
              (mkFrame (BytesIO.mk file_data
                          (32 + 32 * Z.of_nat (0 + Z.to_nat (entries_count_of file_data))))
                       tbl))
    as (fr' & Hrun & Hfinal).
  - reflexivity.
  - reflexivity.
  - apply table_from_table.
  - cbn [length] in Hrun. rewrite Hrun.
    exists (mkPUP p (self_entries fr')). repeat split.
    intros es Hes. cbn [entries]. rewrite (Hfinal es Hes). reflexivity.
Qed.

End Loops.

(** * Where the exceptions of [parse] come from *)

Lemma bind_raises {A B} (m : M A) (k : A -> M B) :
  raises_library_errors m ->
  (forall a, raises_library_errors (k a)) ->
  raises_library_errors (bind m k).
Proof.
  intros Hm Hk fr fr' err. unfold bind.
  destruct (m fr) as [fr1 [e | a]] eqn:Hrun.
  - intros [= <- <-]. eapply Hm, Hrun.
  - apply Hk.
Qed.

Lemma lift_raises {A} (r : result A) :
  (forall err, r = inl err -> library_error err) ->
  raises_library_errors (lift r).
Proof. intros Hr fr fr' err [= _ Herr]. apply Hr, Herr. Qed.

Lemma ret_raises {A} (a : A) : raises_library_errors (ret a).
Proof. intros fr fr' err. discriminate. Qed.

Lemma calcsize_raises (fmt : string) (err : exn) :
  Struct.calcsize fmt = inl err -> library_error err.
Proof.
  unfold Struct.calcsize, Struct.compile.
  destruct fmt as [| c s]; [intros [= <-]; exact I |].
  destruct (Ascii.eqb_spec c "<"%char) as [-> | Hc].
  - destruct (Struct.codes_of s); [discriminate | intros [= <-]; exact I].
  - destruct c as [[] [] [] [] [] [] [] []]; try (intros [= <-]; exact I).
    contradiction.
Qed.

Lemma unpack_raises (fmt : string) (b : bytes) (err : exn) :
  Struct.unpack fmt b = inl err -> library_error err.
Proof.
  unfold Struct.unpack.
  destruct (Struct.compile fmt) as [e | cs] eqn:Hc.
  - intros [= <-]. apply (calcsize_raises fmt).
    unfold Struct.calcsize. rewrite Hc. reflexivity.
  - case_decide; [discriminate | intros [= <-]; exact I].
Qed.

Lemma stream_read_raises (size : Z) : raises_library_errors (stream_read size).
Proof.
  intros fr fr' err. unfold stream_read, BytesIO.read.
  destruct (BytesIO.PY_SSIZE_T_MAX <? size); [intros [= _ <-]; exact I |].
  cbv zeta. destruct (_ =? 0); discriminate.
Qed.

Lemma stream_seek_raises (p : Z) : raises_library_errors (stream_seek p).
Proof.
  intros fr fr' err. unfold stream_seek, BytesIO.seek.
  destruct (BytesIO.PY_SSIZE_T_MAX <? p); [intros [= _ <-]; exact I |].
  destruct (p <? 0); [intros [= _ <-]; exact I | discriminate].
Qed.

Lemma for_range_raises (n : nat) (body : M unit) :
  raises_library_errors body -> raises_library_errors (for_range n body).
Proof.
  intros Hbody. induction n as [| n IH]; cbn [for_range].
  - apply ret_raises.
  - apply bind_raises; [exact Hbody | intros _; exact IH].
Qed.

Lemma for_index_raises (n : nat) (body : nat -> M unit) :
  (forall i, raises_library_errors (body i)) ->
  forall start, raises_library_errors (for_index start n body).
Proof.
  intros Hbody. induction n as [| n IH]; intros start; cbn [for_index].
  - apply ret_raises.
  - apply bind_raises; [apply Hbody | intros _; apply IH].
Qed.

Section Provenance.

Context `{codec : Zlib}.

Lemma process_bytes_raises (e : PUPEntry) (raw : bytes) (err : exn) :
  process_bytes e raw = inl err -> library_error err.
Proof.
  rewrite process_bytes_inflate.
  destruct (compressed e); [| discriminate].
  destruct (inflate_stream raw) as [e' |] eqn:Hinf; [| discriminate].
  intros [= <-]. destruct (inflate_stream_error raw e' Hinf) as [msg ->].
  exact I.
Qed.

Lemma read_entry_raises : raises_library_errors read_entry.
Proof.
  unfold read_entry.
  apply bind_raises; [apply lift_raises, calcsize_raises |]. intros n.
  apply bind_raises; [apply stream_read_raises |]. intros entry_data.
  apply bind_raises; [apply lift_raises, unpack_raises |]. intros fields.
  destruct fields as [| f0 [| f1 [| f2 [| f3 [| f4 fs]]]]];
    intros fr fr' err; try discriminate; intros [= _ <-]; exact I.
Qed.

Lemma load_entry_raises (i : nat) : raises_library_errors (load_entry i).
Proof.
  unfold load_entry.
  apply bind_raises.
  { intros fr fr' err. unfold entries_get.
    destruct (self_entries fr !! i); [discriminate | intros [= _ <-]; exact I]. }
  intros entry.
  apply bind_raises; [apply stream_seek_raises |]. intros _.
  apply bind_raises; [apply stream_read_raises |]. intros raw.
  apply bind_raises; [apply lift_raises, process_bytes_raises |]. intros e'.
  intros fr fr' err. discriminate.
Qed.

Lemma loops_raise (count : Z) :
  raises_library_errors
    (run for_range (Z.to_nat count) read_entry ;
     do n <~ entries_length ;
     for_index 0 n load_entry).
Proof.
  apply bind_raises; [apply for_range_raises, read_entry_raises |]. intros _.
  apply bind_raises; [intros fr fr' err; discriminate |]. intros n.
  apply for_index_raises, load_entry_raises.
Qed.

(** A [RuntimeError] out of [parse] is the one of the magic check, and
    nothing has been appended or loaded by then. *)
Lemma parse_runtime_error (file_data : bytes) (self : PUP) (self' : PUP)
      (msg : string) :
  parse file_data self = (self', inl (RuntimeError msg)) ->
  HEADER_SIZE <= Z.of_nat (length file_data)
  /\ magic_of file_data <> MAGIC
  /\ msg = "Invalid PUP file"%string
  /\ self' = self.
Proof.
  intros Hparse.
  destruct (Z.lt_ge_cases (Z.of_nat (length file_data)) HEADER_SIZE)
    as [Hshort | Hlen].
  { rewrite parse_header_short in Hparse by exact Hshort. discriminate. }
  destruct (Z.eq_dec (magic_of file_data) MAGIC) as [Hmagic | Hmagic].
  - exfalso. unfold parse in Hparse.
    rewrite parse_body_after_header in Hparse by exact Hlen.
    case_decide as Hm; [contradiction |].
    destruct (bind _ _ _) as [fr r] eqn:Hrun.
    injection Hparse as _ ->.
    exact (loops_raise _ _ _ _ Hrun).
  - rewrite parse_invalid_magic in Hparse by assumption.
    injection Hparse as <- <-. repeat split; assumption.
Qed.

End Provenance.

Lemma table_lookup (file_data : bytes) (n i : nat) :
  (i < n)%nat -> table file_data n !! i = Some (descriptor file_data (Z.of_nat i)).
Proof.
  intros Hi. unfold table. rewrite list_lookup_fmap, lookup_seq_lt by exact Hi.
  reflexivity.
Qed.

Lemma length_table (file_data : bytes) (n : nat) : length (table file_data n) = n.
Proof. unfold table. rewrite length_fmap, length_seq. reflexivity. Qed.

Section Parse.

Context `{codec : Zlib}.

Lemma process_bytes_fields (e e' : PUPEntry) (raw : bytes) :
  process_bytes e raw = inr e' -> exists d, e' = set_data e d.
Proof.
  rewrite process_bytes_inflate.
  destruct (compressed e).
  - destruct (inflate_stream raw) as [| out]; [discriminate |].
    intros [= <-]. eauto.
  - intros [= <-]. eauto.
Qed.

Lemma load_one_inr (file_data : bytes) (e e' : PUPEntry) :
  load_one file_data e = inr e' ->
  offset e <= BytesIO.PY_SSIZE_T_MAX
  /\ file_size e <= BytesIO.PY_SSIZE_T_MAX
  /\ process_bytes e (payload file_data e) = inr e'.
Proof.
  unfold load_one.
  destruct (Z.ltb_spec BytesIO.PY_SSIZE_T_MAX (offset e)); [discriminate |].
  destruct (Z.ltb_spec BytesIO.PY_SSIZE_T_MAX (file_size e)); [discriminate |].
  intros Hp. repeat split; assumption.
Qed.

Lemma load_all_inr (file_data : bytes) (es : list PUPEntry) :
  forall es', load_all file_data es = inr es' ->
              Forall2 (fun e e' => load_one file_data e = inr e') es es'.
Proof.
  induction es as [| e es IH]; intros es'; cbn [load_all].
  - intros [= <-]. constructor.
  - destruct (load_one file_data e) as [| e1] eqn:Hone; [discriminate |].
    destruct (load_all file_data es) as [| es1]; [discriminate |].
    intros [= <-]. constructor; [exact Hone | apply IH; reflexivity].
Qed.

Lemma loadable_load_one (file_data : bytes) (e : PUPEntry) :
  loadable file_data e -> exists e', load_one file_data e = inr e'.
Proof.
  intros (Hoff & Hsize & Hinf). unfold load_one.
  destruct (Z.ltb_spec BytesIO.PY_SSIZE_T_MAX (offset e)); [lia |].
  destruct (Z.ltb_spec BytesIO.PY_SSIZE_T_MAX (file_size e)); [lia |].
  rewrite process_bytes_inflate.
  destruct (compressed e); [| eauto].
  destruct (Hinf eq_refl) as [out ->]. eauto.
Qed.

Lemma loadable_load_all (file_data : bytes) (es : list PUPEntry) :
  Forall (loadable file_data) es -> exists es', load_all file_data es = inr es'.
Proof.
  induction 1 as [| e es He _ IH]; cbn [load_all]; [eauto |].
  destruct (loadable_load_one file_data e He) as [e' ->].
  destruct IH as [es' ->]. eauto.
Qed.

(** What a successful [parse] of a fresh container has established. *)
Lemma parse_inr (file_data : bytes) (p : string) (self' : PUP) :
  parse file_data (PUP_init p) = (self', inr tt) ->
  HEADER_SIZE + ENTRY_SIZE * entries_count_of file_data
    <= Z.of_nat (length file_data)
  /\ magic_of file_data = MAGIC
  /\ load_all file_data (table file_data (Z.to_nat (entries_count_of file_data)))
     = inr (entries self').
Proof.
  intros Hparse.
  destruct (Z.lt_ge_cases (Z.of_nat (length file_data)) HEADER_SIZE)
    as [Hshort | Hlen].
  { rewrite parse_header_short in Hparse by exact Hshort. discriminate. }
  destruct (Z.eq_dec (magic_of file_data) MAGIC) as [Hmagic | Hmagic].
  2: { rewrite parse_invalid_magic in Hparse by assumption. discriminate. }
  destruct (Z.lt_ge_cases (Z.of_nat (length file_data))
              (HEADER_SIZE + ENTRY_SIZE * entries_count_of file_data))
    as [Htable | Htable].
  { pose proof (parse_table_short file_data (PUP_init p) Hlen Hmagic Htable)
      as Herr.
    rewrite Hparse in Herr. discriminate. }
  destruct (parse_table_complete file_data p Hlen Hmagic Htable)
    as (self'' & Hrun & _ & Hentries).
  rewrite Hparse in Hrun. injection Hrun as <- Hres.
  destruct (load_all file_data _) as [| es] eqn:Hall; [discriminate |].
  rewrite (Hentries es eq_refl). repeat split; assumption.
Qed.

End Parse.

Section Container.

Context `{codec : Zlib}.

(** C1 (as the code has it): a successful [parse] of a fresh container
    leaves exactly [entries_count] entries, in table order; entry [i]
    carries the four little-endian 64-bit fields of the 32-byte record
    [i] after the header, and its data comes from processing the raw
    payload, which is the part of the file from [offset] up to
    [offset + file_size] or the end of the file, whichever comes
    first: [file_size] bytes when the file is long enough. *)
Theorem parse_entries (file_data : bytes) (p : string) (self' : PUP) :
  parse file_data (PUP_init p) = (self', inr tt) ->
  length (entries self') = Z.to_nat (entries_count_of file_data)
  /\ forall i : nat,
      (i < Z.to_nat (entries_count_of file_data))%nat ->
      exists e,
        entries self' !! i = Some e
        /\ let d := descriptor file_data (Z.of_nat i) in
           flags e = flags d /\ offset e = offset d
           /\ file_size e = file_size d /\ memory_size e = memory_size d
           /\ process_bytes d (slice file_data (offset d) (file_size d)) = inr e
           /\ (offset d + file_size d <= Z.of_nat (length file_data) ->
               Z.of_nat (length (slice file_data (offset d) (file_size d)))
               = file_size d).
Proof.
  intros Hparse.
  destruct (parse_inr file_data p self' Hparse) as (_ & _ & Hall).
  apply load_all_inr in Hall.
  split.
  - rewrite <- (Forall2_length _ _ _ Hall). apply length_table.
  - intros i Hi.
    destruct (Forall2_lookup_l _ _ _ i _ Hall (table_lookup file_data _ i Hi))
      as (e & He & Hone).
    exists e. split; [exact He |]. cbv zeta.
    apply load_one_inr in Hone. destruct Hone as (_ & _ & Hproc).
    destruct (process_bytes_fields _ _ _ Hproc) as [d' ->].
    repeat split; [exact Hproc |].
    intros Hfits.
    destruct (descriptor_unsigned64 file_data (Z.of_nat i))
      as (_ & Hoff & Hsize & _).
    apply slice_full; lia.
Qed.

(** C2 (as the code has it): [parse] has no bounds check on payloads.
    With a valid header, the whole table in the file and every entry
    loadable, it succeeds also when an entry announces more payload than
    the file holds; that entry is processed from the bytes between its
    offset and the end of the file, which are fewer than a positive
    [file_size]. *)
Theorem parse_reads_to_end_of_file (file_data : bytes) (p : string) (i : nat) :
  HEADER_SIZE <= Z.of_nat (length file_data) ->
  magic_of file_data = MAGIC ->
  HEADER_SIZE + ENTRY_SIZE * entries_count_of file_data
    <= Z.of_nat (length file_data) ->
  Forall (loadable file_data)
         (table file_data (Z.to_nat (entries_count_of file_data))) ->
  (i < Z.to_nat (entries_count_of file_data))%nat ->
  Z.of_nat (length file_data)
    < offset (descriptor file_data (Z.of_nat i))
      + file_size (descriptor file_data (Z.of_nat i)) ->
  exists self' e,
    parse file_data (PUP_init p) = (self', inr tt)
    /\ entries self' !! i = Some e
    /\ let d := descriptor file_data (Z.of_nat i) in
       let rest := drop (Z.to_nat (offset d)) file_data in
       process_bytes d rest = inr e
       /\ (0 < file_size d -> Z.of_nat (length rest) < file_size d)
       /\ (compressed d = false -> data e = rest).
Proof.
  intros Hlen Hmagic Htable Hload Hi Hbeyond.
  destruct (parse_table_complete file_data p Hlen Hmagic Htable)
    as (self' & Hrun & _ & Hentries).
  destruct (loadable_load_all _ _ Hload) as [es Hall].
  rewrite Hall in Hrun. specialize (Hentries es Hall).
  apply load_all_inr in Hall.
  destruct (Forall2_lookup_l _ _ _ i _ Hall (table_lookup file_data _ i Hi))
    as (e & He & Hone).
  exists self', e. split; [exact Hrun |]. split; [rewrite Hentries; exact He |].
  cbv zeta.
  apply load_one_inr in Hone. destruct Hone as (_ & _ & Hproc).
  destruct (descriptor_unsigned64 file_data (Z.of_nat i))
    as (_ & Hoff & Hsize & _).
  assert (Hrest : payload file_data (descriptor file_data (Z.of_nat i))
                  = drop (Z.to_nat (offset (descriptor file_data (Z.of_nat i))))
                         file_data).
  { unfold payload, slice. apply take_ge. rewrite length_drop. lia. }
  rewrite Hrest in Hproc.
  split; [exact Hproc |]. split; [rewrite length_drop; lia |].
  intros Hraw. rewrite process_bytes_inflate, Hraw in Hproc.
  injection Hproc as <-. reflexivity.
Qed.

(** C6: a buffer that holds a whole header whose first four bytes,
    read as a little-endian integer, are not [0x1D3D154F] makes [parse]
    raise [RuntimeError('Invalid PUP file')], whatever the rest of the
    header and of the buffer is. *)
Theorem parse_rejects_bad_magic (file_data : bytes) (self : PUP) :
  32 <= Z.of_nat (length file_data) ->
  Struct.le_to_Z (take 4 file_data) <> 0x1D3D154F ->
  snd (parse file_data self) = inl (RuntimeError "Invalid PUP file").
Proof.
  intros Hlen Hmagic.
  rewrite parse_invalid_magic; [reflexivity | exact Hlen | exact Hmagic].
Qed.

(** C7: a buffer shorter than the header (32 bytes, the size of the
    header format) makes [parse] raise [struct.error] when it unpacks
    the header. *)
Theorem parse_rejects_short_header (file_data : bytes) (self : PUP) :
  Z.of_nat (length file_data) < 32 ->
  Struct.calcsize PUP_HEADER_FORMAT = inr 32
  /\ snd (parse file_data self)
     = inl (StructError "unpack requires a buffer of 32 bytes").
Proof.
  intros Hlen. split; [reflexivity |].
  rewrite parse_header_short by exact Hlen. reflexivity.
Qed.

(** C10: when [parse] raises the error of the magic check, the container
    is as it was before the call: the check comes before any entry is
    decoded or any payload read (the stream stands right behind the
    header), so nothing has been appended and a container without
    entries still has none. *)
Theorem parse_bad_magic_leaves_entries (file_data : bytes) (self self' : PUP)
        (msg : string) :
  parse file_data self = (self', inl (RuntimeError msg)) ->
  self' = self
  /\ msg = "Invalid PUP file"%string
  /\ magic_of file_data <> 0x1D3D154F
  /\ parse_body (mkFrame (BytesIO.new file_data) (entries self))
     = (mkFrame (BytesIO.mk file_data 32) (entries self),
        inl (RuntimeError "Invalid PUP file"))
  /\ (entries self = [] -> entries self' = []).
Proof.
  intros Hparse.
  destruct (parse_runtime_error file_data self self' msg Hparse)
    as (Hlen & Hmagic & Hmsg & ->).
  repeat split; [exact Hmsg | exact Hmagic | | intros Hnone; exact Hnone].
  apply parse_body_invalid_magic; assumption.
Qed.

End Container.

(** * The reference decompressor inverts its compressor *)

Module StoredFacts.

Import Stored.

Lemma byte_to_of_Z (z : Z) : 0 <= z < 256 -> byte_to_Z (byte_of_Z z) = z.
Proof.
  intros Hz. unfold byte_to_Z, byte_of_Z.
  destruct (Byte.of_N (Z.to_N z)) as [b |] eqn:Hb.
  - change (default x00 (Some b)) with b. apply Byte.to_of_N in Hb. rewrite Hb, Z2N.id; lia.
  - apply Byte.of_N_None_iff in Hb. lia.
Qed.

Lemma le_to_Z_le16 (z : Z) : 0 <= z < 65536 -> Struct.le_to_Z (le16 z) = z.
Proof.
  intros Hz. unfold le16. cbn [Struct.le_to_Z].
  rewrite !byte_to_of_Z by (apply Z.mod_pos_bound; lia).
  Z.div_mod_to_equations. lia.
Qed.

Lemma be_to_Z_be32 (z : Z) : 0 <= z < 2 ^ 32 -> be_to_Z (be32 z) = z.
Proof.
  intros Hz. unfold be_to_Z, be32. cbn [rev app Struct.le_to_Z].
  rewrite !byte_to_of_Z by (apply Z.mod_pos_bound; lia).
  Z.div_mod_to_equations. lia.
Qed.

Lemma adler32_range (bs : bytes) : 0 <= adler32 bs < 2 ^ 32.
Proof.
  unfold adler32.
  assert (Hinv : forall s, 0 <= fst s < 65521 -> 0 <= snd s < 65521 ->
            0 <= fst (foldl adler_step s bs) < 65521
            /\ 0 <= snd (foldl adler_step s bs) < 65521).
  { induction bs as [| b bs IH]; intros s Ha Hb; [split; assumption |].
    cbn [foldl]. apply IH; unfold adler_step; cbn [fst snd];
      apply Z.mod_pos_bound; lia. }
  destruct (Hinv (1, 0)) as [Ha Hb]; cbn [fst snd]; try lia.
Qed.

Lemma trailer_checksum (out : bytes) : trailer (be32 (adler32 out)) out = inr out.
Proof.
  unfold trailer.
  change (Z.of_nat (length (be32 (adler32 out))) <? 4) with false. cbv iota.
  change (take 4 (be32 (adler32 out))) with (be32 (adler32 out)).
  rewrite be_to_Z_be32 by apply adler32_range.
  rewrite Z.eqb_refl. reflexivity.
Qed.

Lemma blocks_stored_blocks (fuel : nat) :
  forall (input out tail : bytes) (fuel' : nat),
    (length input < fuel)%nat -> (fuel <= fuel')%nat ->
    blocks fuel' (stored_blocks fuel input ++ tail) out
    = trailer tail (out ++ input).
Proof.
  induction fuel as [| fuel IH]; intros input out tail fuel' Hin Hfuel; [lia |].
  destruct fuel' as [| fuel']; [lia |].
  cbn [stored_blocks].
  destruct (Z.leb_spec (Z.of_nat (length input)) 65535) as [Hlast | Hmore].
  - rewrite <- !app_assoc.
    change ([x01] ++ ?r) with (x01 :: r).
    unfold le16 at 1 2. cbn [app]. cbn [blocks].
    change (Z.land (byte_to_Z x01) 1) with 1.
    change (Z.land (Z.shiftr (byte_to_Z x01) 1) 3) with 0.
    cbv iota beta.
    change (Z.eqb 0 0) with true. cbv iota.
    fold (le16 (Z.of_nat (length input))).
    fold (le16 (65535 - Z.of_nat (length input))).
    rewrite !le_to_Z_le16 by lia.
    rewrite Z.eqb_refl. cbn [negb].
    rewrite length_app.
    destruct (Z.ltb_spec (Z.of_nat (length input + length tail))
                         (Z.of_nat (length input))) as [Hbad | _]; [lia |].
    rewrite Nat2Z.id, take_app_length, drop_app_length. reflexivity.
  - rewrite <- !app_assoc. cbn [app]. cbn [blocks].
    change (Z.land (byte_to_Z x00) 1) with 0.
    change (Z.land (Z.shiftr (byte_to_Z x00) 1) 3) with 0.
    change (Struct.le_to_Z [xff; xff]) with 65535.
    change (Struct.le_to_Z [x00; x00]) with 0.
    cbv iota beta.
    change (Z.eqb 0 0) with true.
    change (negb (0 =? 65535 - 65535)) with false.
    change (0 =? 1) with false. cbv iota.
    assert (Hlen : length (take (Z.to_nat 65535) input) = Z.to_nat 65535)
      by (rewrite length_take; lia).
    destruct (Z.ltb_spec
                (Z.of_nat (length (take (Z.to_nat 65535) input
                                   ++ stored_blocks fuel (drop (Z.to_nat 65535) input)
                                   ++ tail)))
                65535) as [Hbad | _].
    { rewrite length_app, Hlen in Hbad. lia. }
    rewrite take_app_length', drop_app_length' by (symmetry; exact Hlen).
    rewrite IH.
    + rewrite <- app_assoc, take_drop. reflexivity.
    + rewrite length_drop. lia.
    + lia.
Qed.

Lemma length_stored_blocks (fuel : nat) :
  forall input : bytes,
    (length input < fuel)%nat ->
    (length input < length (stored_blocks fuel input))%nat.
Proof.
  induction fuel as [| fuel IH]; intros input Hfuel; [lia |].
  cbn [stored_blocks].
  destruct (Z.leb_spec (Z.of_nat (length input)) 65535) as [Hlast | Hmore].
  - rewrite !length_app. cbn [length]. lia.
  - rewrite !length_app. specialize (IH (drop (Z.to_nat 65535) input)).
    rewrite length_drop in IH. rewrite length_take. cbn [length]. lia.
Qed.

(** Every byte sequence comes back from its compressed form. *)
Lemma inflate_compress (input : bytes) : inflate (compress input) = inr input.
Proof.
  unfold compress. cbn [app]. unfold inflate.
  change (negb ((byte_to_Z x78 * 256 + byte_to_Z x01) mod 31 =? 0)) with false.
  change (negb (Z.land (byte_to_Z x78) 15 =? 8)) with false.
  change (7 <? Z.shiftr (byte_to_Z x78) 4) with false.
  change (negb (Z.land (byte_to_Z x01) 32 =? 0)) with false.
  cbv iota.
  rewrite blocks_stored_blocks.
  - apply trailer_checksum.
  - lia.
  - rewrite length_app.
    pose proof (length_stored_blocks (S (length input)) input ltac:(lia)). lia.
Qed.

Lemma inflate_stream_compress (input : bytes) :
  inflate_stream (codec := zlib) (compress input) = inr input.
Proof.
  unfold inflate_stream. cbn [decompress decompressobj flush zlib].
  rewrite inflate_compress, app_nil_r. reflexivity.
Qed.

(** With the reference decompressor, an entry with the compression
    bit set gets back any byte sequence from its compressed form. *)
Lemma process_bytes_stored (e : PUPEntry) (input : bytes) :
  Z.testbit (flags e) 3 = true ->
  process_bytes (codec := zlib) e (compress input) = inr (set_data e input).
Proof.
  intros Hbit.
  rewrite process_bytes_inflate, compressed_testbit, Hbit.
  rewrite inflate_stream_compress. reflexivity.
Qed.

End StoredFacts.

(** * The theorems at the sample containers *)

(** The two scenarios of the format description: an uncompressed and a
    compressed entry with identifier 5 both end up in [coreos.slb]. *)
Example extract_sample_pup :
  extract (fst (parse (codec := Stored.zlib) sample_pup (PUP_init "PS4UPDATE.PUP")))
          None
  = {[ "coreos.slb"%string := [xde; xad; xbe; xef] ]}.
Proof. vm_compute. reflexivity. Qed.

Example extract_compressed_pup :
  extract (fst (parse (codec := Stored.zlib) compressed_pup
                      (PUP_init "PS4UPDATE.PUP")))
          None
  = {[ "coreos.slb"%string := hello ]}.
Proof. vm_compute. reflexivity. Qed.

Lemma parse_entries_witness :
  parse (codec := Stored.zlib) sample_pup (PUP_init "PS4UPDATE.PUP")
  = (mkPUP "PS4UPDATE.PUP" [mkPUPEntry 0x500000 64 4 4 [xde; xad; xbe; xef]],
     inr tt)
  /\ length [mkPUPEntry 0x500000 64 4 4 [xde; xad; xbe; xef]]
     = Z.to_nat (entries_count_of sample_pup).
Proof.
  assert (Hparse :
    parse (codec := Stored.zlib) sample_pup (PUP_init "PS4UPDATE.PUP")
    = (mkPUP "PS4UPDATE.PUP" [mkPUPEntry 0x500000 64 4 4 [xde; xad; xbe; xef]],
       inr tt)) by (vm_compute; reflexivity).
  split; [exact Hparse |].
  exact (proj1 (parse_entries sample_pup "PS4UPDATE.PUP" _ Hparse)).
Defined.

(** C1, as stated, fails: this container parses, and its only entry
    announces four payload bytes at offset 100 of a 64-byte file; the raw
    payload it gets is empty. *)
Lemma parse_payload_not_file_size :
  parse (codec := Stored.zlib) beyond_pup (PUP_init "PS4UPDATE.PUP")
  = (mkPUP "PS4UPDATE.PUP" [mkPUPEntry 0x500000 100 4 4 []], inr tt)
  /\ descriptor beyond_pup 0 = mkPUPEntry 0x500000 100 4 4 []
  /\ payload beyond_pup (descriptor beyond_pup 0) = []
  /\ Z.of_nat (length (payload beyond_pup (descriptor beyond_pup 0)))
     <> file_size (descriptor beyond_pup 0).
Proof. repeat split; vm_compute; congruence. Qed.

Lemma truncated_pup_loadable :
  Forall (loadable (codec := Stored.zlib) truncated_pup)
         (table truncated_pup (Z.to_nat (entries_count_of truncated_pup))).
Proof.
  repeat constructor; try (vm_compute; discriminate).
Defined.

Lemma parse_reads_to_end_of_file_witness :
  Z.of_nat (length truncated_pup)
    < offset (descriptor truncated_pup 0) + file_size (descriptor truncated_pup 0)
  /\ exists self' e,
      parse (codec := Stored.zlib) truncated_pup (PUP_init "PS4UPDATE.PUP")
      = (self', inr tt)
      /\ entries self' !! 0%nat = Some e
      /\ let d := descriptor truncated_pup (Z.of_nat 0) in
         let rest := drop (Z.to_nat (offset d)) truncated_pup in
         process_bytes (codec := Stored.zlib) d rest = inr e
         /\ (0 < file_size d -> Z.of_nat (length rest) < file_size d)
         /\ (compressed d = false -> data e = rest).
Proof.
  split; [vm_compute; reflexivity |].
  apply (parse_reads_to_end_of_file (codec := Stored.zlib)
           truncated_pup "PS4UPDATE.PUP" 0).
  - vm_compute. discriminate.
  - reflexivity.
  - vm_compute. discriminate.
  - exact truncated_pup_loadable.
  - vm_compute. lia.
  - vm_compute. reflexivity.
Defined.

(** C2, as stated, fails: the entry announces bytes 64 to 72 of a file
    of 68 bytes, and [parse] returns normally with the four bytes that
    are there as the entry's data. *)
Lemma parse_truncated_payload_succeeds :
  Z.of_nat (length truncated_pup) = 68
  /\ offset (descriptor truncated_pup 0) + file_size (descriptor truncated_pup 0)
     = 72
  /\ parse (codec := Stored.zlib) truncated_pup (PUP_init "PS4UPDATE.PUP")
     = (mkPUP "PS4UPDATE.PUP" [mkPUPEntry 0x500000 64 8 8 [xde; xad; xbe; xef]],
        inr tt).
Proof. repeat split. Qed.

Lemma file_name_resolution_witness :
  0 <= flags (mkPUPEntry 0xFFF00000 0 0 0 [])
  /\ file_name (mkPUPEntry 0xFFF00000 0 0 0 []) = "unknown_0FFF"%string.
Proof.
  assert (Hflags : 0 <= flags (mkPUPEntry 0xFFF00000 0 0 0 []))
    by (vm_compute; discriminate).
  split; [exact Hflags |].
  exact (proj2 (file_name_resolution (mkPUPEntry 0xFFF00000 0 0 0 []) Hflags)
               eq_refl).
Defined.

Lemma process_bytes_frame_witness :
  process_bytes (codec := Stored.zlib) (mkPUPEntry 0x500008 64 16 5 [])
                (Stored.compress hello)
  = inr (mkPUPEntry 0x500008 64 16 5 hello)
  /\ flags (mkPUPEntry 0x500008 64 16 5 hello) = 0x500008
  /\ offset (mkPUPEntry 0x500008 64 16 5 hello) = 64
  /\ file_size (mkPUPEntry 0x500008 64 16 5 hello) = 16
  /\ memory_size (mkPUPEntry 0x500008 64 16 5 hello) = 5.
Proof.
  assert (Hrun :
    process_bytes (codec := Stored.zlib) (mkPUPEntry 0x500008 64 16 5 [])
                  (Stored.compress hello)
    = inr (mkPUPEntry 0x500008 64 16 5 hello)) by (vm_compute; reflexivity).
  split; [exact Hrun |].
  destruct (process_bytes_frame (codec := Stored.zlib) _ _ _ Hrun)
    as (Hf & Ho & Hs & Hm & _).
  repeat split; assumption.
Defined.

Lemma parse_rejects_bad_magic_witness :
  snd (parse (codec := Stored.zlib) bad_magic_pup (PUP_init "PS4UPDATE.PUP"))
  = inl (RuntimeError "Invalid PUP file").
Proof.
  apply (parse_rejects_bad_magic (codec := Stored.zlib)).
  - vm_compute. discriminate.
  - vm_compute. discriminate.
Defined.

Lemma parse_rejects_short_header_witness :
  Struct.calcsize PUP_HEADER_FORMAT = inr 32
  /\ snd (parse (codec := Stored.zlib) (take 31 sample_pup)
                (PUP_init "PS4UPDATE.PUP"))
     = inl (StructError "unpack requires a buffer of 32 bytes").
Proof.
  apply (parse_rejects_short_header (codec := Stored.zlib)).
  vm_compute. reflexivity.
Defined.

Lemma parse_bad_magic_leaves_entries_witness :
  parse (codec := Stored.zlib) bad_magic_pup (PUP_init "PS4UPDATE.PUP")
  = (PUP_init "PS4UPDATE.PUP", inl (RuntimeError "Invalid PUP file"))
  /\ entries (PUP_init "PS4UPDATE.PUP") = [].
Proof.
  assert (Hrun :
    parse (codec := Stored.zlib) bad_magic_pup (PUP_init "PS4UPDATE.PUP")
    = (PUP_init "PS4UPDATE.PUP", inl (RuntimeError "Invalid PUP file")))
    by (vm_compute; reflexivity).
  split; [exact Hrun |].
  destruct (parse_bad_magic_leaves_entries (codec := Stored.zlib) _ _ _ _ Hrun)
    as (_ & _ & _ & _ & Hentries).
  apply Hentries. reflexivity.
Defined.

(** * Further properties of [parse] *)

Section MoreParse.

Context `{codec : Zlib}.

(** When the file ends inside the table, the first loop stops at the
    first record that is not whole, with the whole ones appended. *)
Lemma for_range_read_entry_partial (file_data : bytes) (n : nat) :
  forall (k m : nat) (es : list PUPEntry),
    32 + 32 * Z.of_nat (k + m) <= Z.of_nat (length file_data) ->
    Z.of_nat (length file_data) < 32 + 32 * Z.of_nat (k + m + 1) ->
    (m < n)%nat ->
    exists s,
      for_range n read_entry
        (mkFrame (BytesIO.mk file_data (32 + 32 * Z.of_nat k)) es)
      = (mkFrame s (es ++ ((fun i => descriptor file_data (Z.of_nat i)) <$> seq k m)),
         inl short_buffer).
Proof.
  induction n as [| n IH]; intros k m es Hlo Hhi Hm; [lia |].
  cbn [for_range]. unfold bind at 1.
  destruct m as [| m].
  - destruct (read_entry_short file_data (Z.of_nat k) es ltac:(lia) ltac:(lia))
      as [s ->].
    exists s. cbn [seq fmap list_fmap]. rewrite app_nil_r. reflexivity.
  - rewrite read_entry_ok by lia.
    replace (Z.of_nat k + 1) with (Z.of_nat (S k)) by lia.
    destruct (IH (S k) m (es ++ [descriptor file_data (Z.of_nat k)])
                ltac:(lia) ltac:(lia) ltac:(lia)) as [s ->].
    exists s. cbn [seq fmap list_fmap]. rewrite <- app_assoc. reflexivity.
Qed.

(** X1: a file that ends inside the entry table makes [parse] raise
    [struct.error], and the container is left with the records that were
    whole, in table order and with empty data: the failure is not
    atomic. *)
Theorem parse_truncated_table_keeps_prefix (file_data : bytes) (p : string) :
  HEADER_SIZE <= Z.of_nat (length file_data) ->
  magic_of file_data = MAGIC ->
  Z.of_nat (length file_data)
    < HEADER_SIZE + ENTRY_SIZE * entries_count_of file_data ->
  parse file_data (PUP_init p)
  = (mkPUP p (table file_data
                (Z.to_nat ((Z.of_nat (length file_data) - HEADER_SIZE) / ENTRY_SIZE))),
     inl (StructError "unpack requires a buffer of 32 bytes")).
Proof.
  intros Hlen Hmagic Hshort. unfold HEADER_SIZE, ENTRY_SIZE in *.
  set (m := Z.to_nat ((Z.of_nat (length file_data) - 32) / 32)).
  assert (Hm : 32 * Z.of_nat m <= Z.of_nat (length file_data) - 32
               < 32 * (Z.of_nat m + 1)).
  { unfold m. rewrite Z2Nat.id by (apply Z.div_pos; lia).
    pose proof (Z.div_mod (Z.of_nat (length file_data) - 32) 32 ltac:(lia)).
    pose proof (Z.mod_pos_bound (Z.of_nat (length file_data) - 32) 32 ltac:(lia)).
    lia. }
  unfold parse. cbn [PUP_init entries path].
  rewrite parse_body_after_header by exact Hlen.
  case_decide as Hm'; [contradiction |].
  unfold bind at 1.
  destruct (for_range_read_entry_partial file_data
              (Z.to_nat (entries_count_of file_data)) 0 m []
              ltac:(lia) ltac:(lia) ltac:(lia)) as [s Hloop].
  change (32 + 32 * Z.of_nat 0) with 32 in Hloop.
  rewrite Hloop. reflexivity.
Qed.

Lemma parse_path (file_data : bytes) (self self' : PUP) (r : result unit) :
  parse file_data self = (self', r) -> path self' = path self.
Proof.
  unfold parse. destruct (parse_body _) as [fr r'].
  intros [= <- _]. reflexivity.
Qed.

(** X2: [parse] on a fresh container returns normally exactly when the
    file holds the header with the right magic and the whole entry table
    and every entry of the table loads; the container then holds the
    loaded entries. *)
Theorem parse_succeeds_iff (file_data : bytes) (p : string) (self' : PUP) :
  parse file_data (PUP_init p) = (self', inr tt)
  <-> (magic_of file_data = MAGIC
       /\ HEADER_SIZE + ENTRY_SIZE * entries_count_of file_data
          <= Z.of_nat (length file_data)
       /\ path self' = p
       /\ load_all file_data
            (table file_data (Z.to_nat (entries_count_of file_data)))
          = inr (entries self')).
Proof.
  split.
  - intros Hparse.
    destruct (parse_inr file_data p self' Hparse) as (Htable & Hmagic & Hall).
    repeat split; try assumption.
    exact (parse_path _ _ _ _ Hparse).
  - intros (Hmagic & Htable & Hpath & Hall).
    assert (Hlen : HEADER_SIZE <= Z.of_nat (length file_data)).
    { pose proof (le_to_Z_range (slice file_data 24 2)) as [Hcount _].
      fold (entries_count_of file_data) in Hcount.
      unfold HEADER_SIZE, ENTRY_SIZE in *. lia. }
    destruct (parse_table_complete file_data p Hlen Hmagic Htable)
      as (self'' & Hrun & Hpath' & Hentries).
    rewrite Hall in Hrun. rewrite Hrun. f_equal.
    specialize (Hentries _ Hall).
    destruct self'' as [p'' es''], self' as [p' es'].
    cbn [path entries] in *. congruence.
Qed.

Lemma load_one_inl (file_data : bytes) (e : PUPEntry) (err : exn) :
  load_one file_data e = inl err ->
  err = OverflowError \/ exists msg, err = ZlibError msg.
Proof.
  unfold load_one.
  destruct (BytesIO.PY_SSIZE_T_MAX <? offset e); [intros [= <-]; left; reflexivity |].
  destruct (BytesIO.PY_SSIZE_T_MAX <? file_size e);
    [intros [= <-]; left; reflexivity |].
  rewrite process_bytes_inflate.
  destruct (compressed e); [| discriminate].
  destruct (inflate_stream _) as [e' |] eqn:Hinf; [| discriminate].
  intros [= <-]. right. eapply inflate_stream_error, Hinf.
Qed.

Lemma load_all_inl (file_data : bytes) (es : list PUPEntry) (err : exn) :
  load_all file_data es = inl err ->
  exists e, e ∈ es /\ load_one file_data e = inl err.
Proof.
  induction es as [| e es IH]; cbn [load_all]; [discriminate |].
  destruct (load_one file_data e) as [err' | e'] eqn:Hone.
  - intros [= <-]. exists e. split; [left | exact Hone].
  - destruct (load_all file_data es) as [err' | es']; [| discriminate].
    intros [= <-]. destruct (IH eq_refl) as (e0 & Hin & He0).
    exists e0. split; [right; exact Hin | exact He0].
Qed.

(** X3: the exceptions [parse] can raise on a fresh container are the
    [OSError] of a file that cannot be opened or read, [struct.error] for
    a file that ends inside the header or the table, the [RuntimeError] of
    the magic check, [OverflowError] for an offset or size that does not
    fit the stream's index type, and [zlib.error] from a compressed
    payload; nothing else.  Each comes with its cause. *)
Theorem parse_raises_only (file : string + bytes) (p : string) (self' : PUP)
        (f : failure) :
  parse_file file (PUP_init p) = (self', inl f) ->
  (exists msg, f = OSError msg /\ file = inl msg)
  \/ exists file_data err,
       file = inr file_data /\ f = Raised err
       /\ ((err = StructError "unpack requires a buffer of 32 bytes"
            /\ Z.of_nat (length file_data)
               < HEADER_SIZE + ENTRY_SIZE * entries_count_of file_data)
           \/ (err = RuntimeError "Invalid PUP file"
               /\ HEADER_SIZE <= Z.of_nat (length file_data)
               /\ magic_of file_data <> MAGIC)
           \/ (err = OverflowError
               /\ exists e,
                    e ∈ table file_data (Z.to_nat (entries_count_of file_data))
                    /\ (BytesIO.PY_SSIZE_T_MAX < offset e
                        \/ BytesIO.PY_SSIZE_T_MAX < file_size e))
           \/ (exists msg e,
                 err = ZlibError msg
                 /\ e ∈ table file_data (Z.to_nat (entries_count_of file_data))
                 /\ compressed e = true)).
Proof.
  unfold parse_file. destruct file as [msg | file_data].
  { intros [= _ <-]. left. exists msg. split; reflexivity. }
  destruct (parse file_data (PUP_init p)) as [self'' [err | []]] eqn:Hparse;
    [| discriminate].
  intros [= _ <-]. right. exists file_data, err.
  split; [reflexivity |]. split; [reflexivity |].
  pose proof (le_to_Z_range (slice file_data 24 2)) as [Hcount _].
  fold (entries_count_of file_data) in Hcount.
  destruct (Z.lt_ge_cases (Z.of_nat (length file_data)) HEADER_SIZE)
    as [Hshort | Hlen].
  { rewrite parse_header_short in Hparse by exact Hshort.
    injection Hparse as _ <-. left. split; [reflexivity |].
    unfold HEADER_SIZE, ENTRY_SIZE in *. lia. }
  destruct (Z.eq_dec (magic_of file_data) MAGIC) as [Hmagic | Hmagic].
  2: { rewrite parse_invalid_magic in Hparse by assumption.
       injection Hparse as _ <-. right. left.
       split; [reflexivity |]. split; [lia | exact Hmagic]. }
  destruct (Z.lt_ge_cases (Z.of_nat (length file_data))
              (HEADER_SIZE + ENTRY_SIZE * entries_count_of file_data))
    as [Htable | Htable].
  { pose proof (parse_table_short file_data (PUP_init p) Hlen Hmagic Htable)
      as Herr.
    rewrite Hparse in Herr. injection Herr as ->.
    left. split; [reflexivity | exact Htable]. }
  destruct (parse_table_complete file_data p Hlen Hmagic Htable)
    as (self3 & Hrun & _ & _).
  rewrite Hparse in Hrun. injection Hrun as _ Hres.
  destruct (load_all file_data _) as [err' | es] eqn:Hall; [| discriminate].
  injection Hres as ->.
  destruct (load_all_inl _ _ _ Hall) as (e & Hin & Hone).
  right. right.
  unfold load_one in Hone.
  destruct (Z.ltb_spec BytesIO.PY_SSIZE_T_MAX (offset e)) as [Hoff | Hoff].
  { injection Hone as <-. left. split; [reflexivity |]. exists e. tauto. }
  destruct (Z.ltb_spec BytesIO.PY_SSIZE_T_MAX (file_size e)) as [Hsz | Hsz].
  { injection Hone as <-. left. split; [reflexivity |]. exists e. tauto. }
  right. rewrite process_bytes_inflate in Hone.
  destruct (compressed e) eqn:Hc; [| discriminate].
  destruct (inflate_stream _) as [e' |] eqn:Hinf; [| discriminate].
  injection Hone as <-.
  destruct (inflate_stream_error _ _ Hinf) as [msg ->].
  exists msg, e. repeat split; assumption.
Qed.

End MoreParse.

Section PayloadLoop.

Context `{codec : Zlib}.

Lemma load_all_app_inr (file_data : bytes) (es1 es2 es1' es2' : list PUPEntry) :
  load_all file_data es1 = inr es1' ->
  load_all file_data es2 = inr es2' ->
  load_all file_data (es1 ++ es2) = inr (es1' ++ es2').
Proof.
  revert es1'. induction es1 as [| e es1 IH]; intros es1'; cbn [load_all app].
  - intros [= <-] Hes2. exact Hes2.
  - destruct (load_one file_data e) as [| e']; [discriminate |].
    destruct (load_all file_data es1) as [| es1'']; [discriminate |].
    intros [= <-] Hes2. rewrite (IH es1'' eq_refl Hes2). reflexivity.
Qed.

(** The second loop stops at the first entry that does not load: the
    entries before it are loaded, it and the ones after it are as they
    were. *)
Lemma for_index_load_entry_stops (file_data : bytes) (pre : list PUPEntry) :
  forall (done pre' post : list PUPEntry) (e : PUPEntry) (err : exn) (fr : frame),
    BytesIO.buf (stream fr) = file_data ->
    self_entries fr = done ++ pre ++ e :: post ->
    Forall from_table (pre ++ [e]) ->
    load_all file_data pre = inr pre' ->
    load_one file_data e = inl err ->
    exists s,
      for_index (length done) (length (pre ++ e :: post)) load_entry fr
      = (mkFrame s (done ++ pre' ++ e :: post), inl err).
Proof.
  induction pre as [| e0 pre IH];
    intros done pre' post e err fr Hbuf Hes Hall Hpre Hone.
  - cbn [load_all] in Hpre. injection Hpre as <-. cbn [app] in *.
    apply Forall_cons in Hall. destruct Hall as [[Hoff Hsize] _].
    assert (Hget : self_entries fr !! length done = Some e)
      by (rewrite Hes; apply list_lookup_middle; reflexivity).
    destruct (load_entry_spec file_data fr (length done) e Hbuf Hget Hoff Hsize)
      as (s & _ & Hload).
    cbn [for_index length]. unfold bind at 1. rewrite Hload, Hone.
    exists s. rewrite Hes. reflexivity.
  - cbn [load_all] in Hpre.
    destruct (load_one file_data e0) as [| e0'] eqn:Hone0; [discriminate |].
    destruct (load_all file_data pre) as [| pre''] eqn:Hpre''; [discriminate |].
    injection Hpre as <-.
    cbn [app] in Hall. apply Forall_cons in Hall.
    destruct Hall as [[Hoff Hsize] Hall].
    assert (Hget : self_entries fr !! length done = Some e0)
      by (rewrite Hes; apply list_lookup_middle; reflexivity).
    destruct (load_entry_spec file_data fr (length done) e0 Hbuf Hget Hoff Hsize)
      as (s & Hs & Hload).
    cbn [app for_index length]. unfold bind at 1. rewrite Hload, Hone0.
    assert (Hes' : self_entries
                     (mkFrame s (<[length done := e0']> (self_entries fr)))
                   = (done ++ [e0']) ++ pre ++ e :: post).
    { cbn [self_entries]. rewrite Hes.
      rewrite insert_app_r_alt, Nat.sub_diag by reflexivity.
      cbn [app]. rewrite <- app_assoc. reflexivity. }
    destruct (IH (done ++ [e0']) pre'' post e err
                (mkFrame s (<[length done := e0']> (self_entries fr)))
                Hs Hes' Hall eq_refl Hone)
      as (s' & Hrun).
    rewrite length_app, Nat.add_1_r in Hrun.
    exists s'. rewrite Hrun, <- app_assoc. reflexivity.
Qed.

(** [parse] on a container that already has entries: the table of the
    file is appended, and all entries, old and new, are loaded from the
    file. *)
Lemma parse_table_complete_again (file_data : bytes) (self : PUP) :
  HEADER_SIZE <= Z.of_nat (length file_data) ->
  magic_of file_data = MAGIC ->
  HEADER_SIZE + ENTRY_SIZE * entries_count_of file_data
    <= Z.of_nat (length file_data) ->
  Forall from_table (entries self) ->
  let all := entries self
             ++ table file_data (Z.to_nat (entries_count_of file_data)) in
  exists self',
    parse file_data self
    = (self', match load_all file_data all with
              | inl err => inl err
              | inr _ => inr tt
              end)
    /\ path self' = path self
    /\ forall es, load_all file_data all = inr es -> entries self' = es.
Proof.
  intros Hlen Hmagic Hfits Hold all. unfold HEADER_SIZE, ENTRY_SIZE in *.
  pose proof (le_to_Z_range (slice file_data 24 2)) as [Hcount _].
  fold (entries_count_of file_data) in Hcount.
  unfold parse.
  rewrite parse_body_after_header by exact Hlen.
  case_decide as Hm; [contradiction |].
  unfold bind at 1.
  pose proof (for_range_read_entry_ok file_data
                (Z.to_nat (entries_count_of file_data)) 0 (entries self)
                ltac:(lia)) as Hloop.
  change (32 + 32 * Z.of_nat 0) with 32 in Hloop.
  rewrite Hloop. fold (table file_data (Z.to_nat (entries_count_of file_data))).
  fold all. unfold bind at 1, entries_length. cbn [self_entries].
  destruct (for_index_load_entry file_data all []
              (mkFrame (BytesIO.mk file_data
                          (32 + 32 * Z.of_nat (0 + Z.to_nat (entries_count_of file_data))))
                       all))
    as (fr' & Hrun & Hfinal).
  - reflexivity.
  - reflexivity.
  - apply Forall_app. split; [exact Hold | apply table_from_table].
  - cbn [length] in Hrun. rewrite Hrun.
    exists (mkPUP (path self) (self_entries fr')). repeat split.
    intros es Hes. cbn [entries]. rewrite (Hfinal es Hes). reflexivity.
Qed.

(** Loading does not look at the data an entry already has. *)
Lemma load_one_set_data (file_data : bytes) (e : PUPEntry) (d : bytes) :
  load_one file_data (set_data e d) = load_one file_data e.
Proof.
  unfold load_one, payload, process_bytes, compressed, set_data.
  cbn [flags offset file_size memory_size]. reflexivity.
Qed.

Lemma load_all_again (file_data : bytes) (es es' : list PUPEntry) :
  load_all file_data es = inr es' ->
  load_all file_data es' = inr es' /\ Forall2 (fun e e' => exists d, e' = set_data e d) es es'.
Proof.
  revert es'. induction es as [| e es IH]; intros es'; cbn [load_all].
  - intros [= <-]. split; [reflexivity | constructor].
  - destruct (load_one file_data e) as [| e'] eqn:Hone; [discriminate |].
    destruct (load_all file_data es) as [| es'']; [discriminate |].
    intros [= <-]. destruct (IH es'' eq_refl) as [Hagain Hrel].
    destruct (load_one_inr _ _ _ Hone) as (_ & _ & Hproc).
    destruct (process_bytes_fields _ _ _ Hproc) as [d ->].
    split.
    + cbn [load_all]. rewrite load_one_set_data, Hone, Hagain. reflexivity.
    + constructor; [eauto | exact Hrel].
Qed.

End PayloadLoop.

Section MoreParseState.

Context `{codec : Zlib}.

(** With the header and the table in the file, what is left of [parse]
    on a fresh container is the second loop over the table. *)
Lemma parse_after_table (file_data : bytes) (p : string) :
  HEADER_SIZE <= Z.of_nat (length file_data) ->
  magic_of file_data = MAGIC ->
  HEADER_SIZE + ENTRY_SIZE * entries_count_of file_data
    <= Z.of_nat (length file_data) ->
  let n := Z.to_nat (entries_count_of file_data) in
  exists s,
    BytesIO.buf s = file_data
    /\ parse file_data (PUP_init p)
       = (let '(fr, r) := for_index 0 (length (table file_data n)) load_entry
                            (mkFrame s (table file_data n)) in
          (mkPUP p (self_entries fr), r)).
Proof.
  intros Hlen Hmagic Hfits n. unfold HEADER_SIZE, ENTRY_SIZE in *.
  pose proof (le_to_Z_range (slice file_data 24 2)) as [Hcount _].
  fold (entries_count_of file_data) in Hcount.
  unfold parse. cbn [PUP_init entries path].
  rewrite parse_body_after_header by exact Hlen.
  case_decide as Hm; [contradiction |].
  unfold bind at 1.
  pose proof (for_range_read_entry_ok file_data
                (Z.to_nat (entries_count_of file_data)) 0 []
                ltac:(lia)) as Hloop.
  change (32 + 32 * Z.of_nat 0) with 32 in Hloop.
  rewrite Hloop. cbn [app].
  fold (table file_data (Z.to_nat (entries_count_of file_data))). fold n.
  unfold bind at 1, entries_length. cbn [self_entries].
  eexists. split; [| reflexivity]. reflexivity.
Qed.

(** X4: when the header and the table are in the file and the entry at
    index [i] is the first that does not load (a position or size beyond
    the stream's index type, or a payload the decompressor refuses),
    [parse] raises that entry's exception and leaves the container with
    the entries before [i] loaded and the entries from [i] on as decoded
    from the table, with empty data. *)
Theorem parse_stops_at_first_failure (file_data : bytes) (p : string)
        (i : nat) (loaded : list PUPEntry) (err : exn) :
  magic_of file_data = MAGIC ->
  HEADER_SIZE + ENTRY_SIZE * entries_count_of file_data
    <= Z.of_nat (length file_data) ->
  (i < Z.to_nat (entries_count_of file_data))%nat ->
  load_all file_data
    (take i (table file_data (Z.to_nat (entries_count_of file_data))))
  = inr loaded ->
  load_one file_data (descriptor file_data (Z.of_nat i)) = inl err ->
  parse file_data (PUP_init p)
  = (mkPUP p (loaded
              ++ drop i (table file_data (Z.to_nat (entries_count_of file_data)))),
     inl err).
Proof.
  intros Hmagic Hfits Hi Hpre Hone.
  assert (Hlen : HEADER_SIZE <= Z.of_nat (length file_data)).
  { pose proof (le_to_Z_range (slice file_data 24 2)) as [Hcount _].
    fold (entries_count_of file_data) in Hcount.
    unfold HEADER_SIZE, ENTRY_SIZE in *. lia. }
  destruct (parse_after_table file_data p Hlen Hmagic Hfits) as (s & Hs & ->).
  set (tbl := table file_data (Z.to_nat (entries_count_of file_data))) in *.
  assert (Hsplit : tbl = take i tbl ++ descriptor file_data (Z.of_nat i)
                                    :: drop (S i) tbl).
  { symmetry. apply take_drop_middle, table_lookup, Hi. }
  assert (Hdrop : drop i tbl = descriptor file_data (Z.of_nat i) :: drop (S i) tbl).
  { apply drop_S, table_lookup, Hi. }
  destruct (for_index_load_entry_stops file_data (take i tbl) [] loaded
              (drop (S i) tbl) (descriptor file_data (Z.of_nat i)) err
              (mkFrame s tbl)) as (s' & Hrun).
  - exact Hs.
  - cbn [self_entries app]. exact Hsplit.
  - apply Forall_app. split.
    + apply Forall_take, table_from_table.
    + constructor; [| constructor].
      destruct (descriptor_unsigned64 file_data (Z.of_nat i)) as (_ & Ho & Hz & _).
      split; lia.
  - exact Hpre.
  - exact Hone.
  - rewrite <- Hsplit in Hrun. cbn [length app] in Hrun. rewrite Hrun.
    rewrite Hdrop. reflexivity.
Qed.

Lemma loaded_from_table (file_data : bytes) (es es' : list PUPEntry) :
  Forall from_table es ->
  load_all file_data es = inr es' ->
  Forall from_table es'.
Proof.
  intros Hes Hall. destruct (load_all_again _ _ _ Hall) as [_ Hrel].
  clear Hall. induction Hrel as [| e e' es es' [d ->] _ IH]; [constructor |].
  apply Forall_cons in Hes. destruct Hes as [He Hes].
  constructor; [exact He | apply IH; exact Hes].
Qed.

(** X5: [parse] does not reset the entry list.  A second call on the
    same container and the same file returns normally as the first did
    and leaves every entry twice: the entries of the first call, loaded
    again, followed by the table once more. *)
Theorem parse_twice_doubles (file_data : bytes) (p : string) (self' : PUP) :
  parse file_data (PUP_init p) = (self', inr tt) ->
  parse file_data self' = (mkPUP p (entries self' ++ entries self'), inr tt).
Proof.
  intros Hparse.
  destruct (parse_inr file_data p self' Hparse) as (Hfits & Hmagic & Hall).
  pose proof (parse_path _ _ _ _ Hparse) as Hpath. cbn [PUP_init path] in Hpath.
  assert (Hlen : HEADER_SIZE <= Z.of_nat (length file_data)).
  { pose proof (le_to_Z_range (slice file_data 24 2)) as [Hcount _].
    fold (entries_count_of file_data) in Hcount.
    unfold HEADER_SIZE, ENTRY_SIZE in *. lia. }
  assert (Hold : Forall from_table (entries self'))
    by (eapply loaded_from_table; [apply table_from_table | exact Hall]).
  destruct (parse_table_complete_again file_data self' Hlen Hmagic Hfits Hold)
    as (self'' & Hrun & Hpath' & Hentries).
  destruct (load_all_again _ _ _ Hall) as [Hagain _].
  pose proof (load_all_app_inr _ _ _ _ _ Hagain Hall) as Hboth.
  rewrite Hboth in Hrun. specialize (Hentries _ Hboth).
  rewrite Hrun. f_equal.
  destruct self'' as [p'' es'']. cbn [path entries] in *. congruence.
Qed.

(** X6: what holds of every entry after a successful [parse] of a fresh
    container: there are at most 65535 of them, their four fields are
    unsigned 64-bit values, and an entry that is not compressed never
    carries more data than its [file_size] or than the file has. *)
Theorem parse_entries_bounded (file_data : bytes) (p : string) (self' : PUP) :
  parse file_data (PUP_init p) = (self', inr tt) ->
  Z.of_nat (length (entries self')) <= 65535
  /\ Forall (fun e =>
               unsigned64 e
               /\ (compressed e = false ->
                   Z.of_nat (length (data e)) <= file_size e
                   /\ (length (data e) <= length file_data)%nat))
            (entries self').
Proof.
  intros Hparse.
  destruct (parse_inr file_data p self' Hparse) as (_ & _ & Hall).
  apply load_all_inr in Hall. split.
  - rewrite <- (Forall2_length _ _ _ Hall), length_table.
    pose proof (le_to_Z_range (slice file_data 24 2)) as [_ Hcount].
    fold (entries_count_of file_data) in Hcount.
    assert (Hpow : 256 ^ Z.of_nat (length (slice file_data 24 2)) <= 256 ^ 2).
    { apply Z.pow_le_mono_r; [lia |].
      rewrite length_slice by lia. lia. }
    change (256 ^ 2) with 65536 in Hpow. lia.
  - apply Forall_forall. intros e' Hin.
    apply list_elem_of_lookup in Hin. destruct Hin as [i Hi].
    destruct (Forall2_lookup_r _ _ _ _ _ Hall Hi) as (d & Hd & Hone).
    apply list_elem_of_lookup_2, list_elem_of_fmap in Hd.
    destruct Hd as (j & -> & _).
    apply load_one_inr in Hone. destruct Hone as (_ & _ & Hproc).
    pose proof (descriptor_unsigned64 file_data (Z.of_nat j)) as Hu.
    rewrite process_bytes_inflate in Hproc.
    destruct (compressed (descriptor file_data (Z.of_nat j))) eqn:Hc.
    + destruct (inflate_stream _) as [| out]; [discriminate |].
      injection Hproc as <-. split; [exact Hu |].
      unfold compressed in *. cbn [set_data flags] in *. congruence.
    + injection Hproc as <-. split; [exact Hu |]. intros _.
      cbn [set_data data file_size].
      destruct Hu as (_ & Ho & Hz & _).
      pose proof (length_slice file_data
                    (offset (descriptor file_data (Z.of_nat j)))
                    (file_size (descriptor file_data (Z.of_nat j)))
                    ltac:(lia) ltac:(lia)) as Hl.
      unfold payload. lia.
Qed.

End MoreParseState.

(** * Further properties of file names and of [extract] *)

Lemma occurs_append (c : ascii) (s t : string) :
  occurs c (s +:+ t) = occurs c s || occurs c t.
Proof.
  induction s as [| x s IHs]; [reflexivity |].
  rewrite append_String. cbn [occurs]. rewrite IHs, orb_assoc. reflexivity.
Qed.

Lemma hex_digit_not_slash (d : Z) : Ascii.eqb (hex_digit d) "/" = false.
Proof.
  unfold hex_digit. generalize (Z.to_nat d). intros k.
  do 17 (destruct k as [| k]; [reflexivity |]). reflexivity.
Qed.

Lemma hex_digits_no_slash (fuel : nat) :
  forall (n : Z) (acc : string),
    occurs "/" (hex_digits fuel n acc) = occurs "/" acc.
Proof.
  induction fuel as [| fuel IH]; intros n acc; [reflexivity |].
  cbn [hex_digits].
  destruct (n / 16 =? 0).
  - cbn [occurs]. rewrite hex_digit_not_slash. reflexivity.
  - rewrite IH. cbn [occurs]. rewrite hex_digit_not_slash. reflexivity.
Qed.

Lemma zeros_no_slash (k : nat) : occurs "/" (zeros k) = false.
Proof. induction k as [| k IHk]; [reflexivity | exact IHk]. Qed.

Lemma format_04X_no_slash (n : Z) : occurs "/" (format_04X n) = false.
Proof.
  unfold format_04X, hex_upper. destruct (n <? 0); cbv zeta.
  - cbn [occurs]. rewrite occurs_append, zeros_no_slash, hex_digits_no_slash.
    reflexivity.
  - rewrite occurs_append, zeros_no_slash, hex_digits_no_slash. reflexivity.
Qed.

Lemma FILES_plain (k : Z) (name : string) :
  FILES !! k = Some name ->
  occurs "/" name = false
  /\ name <> "."%string /\ name <> ".."%string
  /\ forall s, name <> ("unknown_" +:+ s)%string.
Proof.
  intros Hk.
  assert (Hall : map_Forall
            (fun _ v => occurs "/" v = false
                        /\ v <> "."%string /\ v <> ".."%string
                        /\ forall s, v <> ("unknown_" +:+ s)%string) FILES).
  { unfold FILES.
    repeat (apply map_Forall_insert_2;
            [repeat split; try reflexivity; try discriminate;
             intros s; rewrite append_String; discriminate |]).
    apply map_Forall_empty. }
  exact (Hall k name Hk).
Qed.

(** X7: the file name of an entry, whatever its flags, is a plain name:
    not empty, without a path separator, and neither [.] nor [..]; so
    [out_dir / file_name] is a file directly inside [out_dir], and
    [extract] skips no entry. *)
Theorem file_name_plain (e : PUPEntry) :
  file_name e <> EmptyString
  /\ occurs "/" (file_name e) = false
  /\ file_name e <> "."%string
  /\ file_name e <> ".."%string.
Proof.
  split; [apply file_name_nonempty |].
  unfold file_name.
  destruct (FILES !! Z.shiftr (flags e) 20) as [name |] eqn:Hk; cbn [default].
  - destruct (FILES_plain _ _ Hk) as (Hs & Hd & Hdd & _). repeat split; assumption.
  - repeat split.
    + rewrite occurs_append, format_04X_no_slash. reflexivity.
    + rewrite append_String. discriminate.
    + rewrite append_String. discriminate.
Qed.

Lemma unknown_prefix_inj (s t : string) :
  ("unknown_" +:+ s = "unknown_" +:+ t)%string -> s = t.
Proof.
  rewrite !append_String, !append_Empty.
  intros Heq. injection Heq as Heq. exact Heq.
Qed.

(** X8: an entry whose identifier is not in the table shares its file
    name only with entries of the same identifier: a synthesized name
    never coincides with a name of the table or with the name of another
    unknown identifier. *)
Theorem unknown_name_collides_only_with_itself (e1 e2 : PUPEntry) :
  0 <= flags e1 -> 0 <= flags e2 ->
  FILES !! Z.shiftr (flags e1) 20 = None ->
  file_name e1 = file_name e2 ->
  Z.shiftr (flags e1) 20 = Z.shiftr (flags e2) 20.
Proof.
  intros H1 H2 Hnone Hname. unfold file_name in Hname.
  rewrite Hnone in Hname. cbn [default] in Hname.
  destruct (FILES !! Z.shiftr (flags e2) 20) as [name |] eqn:Hk;
    cbn [default] in Hname.
  - destruct (FILES_plain _ _ Hk) as (_ & _ & _ & Hun).
    exfalso. exact (Hun _ (eq_sym Hname)).
  - apply unknown_prefix_inj in Hname.
    destruct (format_04X_spec (Z.shiftr (flags e1) 20)) as [Hv1 _];
      [apply Z.shiftr_nonneg; exact H1 |].
    destruct (format_04X_spec (Z.shiftr (flags e2) 20)) as [Hv2 _];
      [apply Z.shiftr_nonneg; exact H2 |].
    rewrite Hname in Hv1. congruence.
Qed.

(** X9: extracting again into the directory just written changes
    nothing. *)
Theorem extract_idempotent (self : PUP) (out_dir : option (gmap string bytes)) :
  extract self (Some (extract self out_dir)) = extract self out_dir.
Proof.
  apply map_eq. intros name. unfold extract at 1.
  rewrite foldl_write_entry_lookup.
  destruct (last (named name (entries self))) as [e |] eqn:Hlast.
  - unfold extract. rewrite foldl_write_entry_lookup, Hlast. reflexivity.
  - reflexivity.
Qed.

Lemma length_remove_dups_le {A} `{EqDecision A} (l : list A) :
  (length (remove_dups l) <= length l)%nat.
Proof.
  induction l as [| x l IH]; [reflexivity |].
  cbn [remove_dups length]. destruct (decide_rel elem_of x l); cbn [length]; lia.
Qed.

Lemma length_remove_dups_eq {A} `{EqDecision A} (l : list A) :
  length (remove_dups l) = length l <-> NoDup l.
Proof.
  induction l as [| x l IH].
  - split; [constructor | reflexivity].
  - cbn [remove_dups length].
    pose proof (length_remove_dups_le l) as Hle.
    destruct (decide_rel elem_of x l) as [Hin | Hnin]; cbn [length].
    + split; [lia |]. intros Hnd. apply NoDup_cons in Hnd. tauto.
    + rewrite NoDup_cons. split.
      * intros Hlen. split; [exact Hnin | apply IH; lia].
      * intros [_ Hnd]. apply IH in Hnd. lia.
Qed.

Lemma size_extract (self : PUP) :
  size (extract self None) = length (remove_dups (file_name <$> entries self)).
Proof.
  unfold extract.
  rewrite <- size_dom, foldl_write_entry_dom.
  unfold mkdir. cbn [default]. rewrite dom_empty_L, union_empty_l_L.
  rewrite <- (size_list_to_set (C := gset string)
                (remove_dups (file_name <$> entries self)))
    by apply NoDup_remove_dups.
  f_equal. apply set_eq. intros x.
  rewrite !elem_of_list_to_set, elem_of_remove_dups. reflexivity.
Qed.

(** X10: extraction into a new directory never writes more files than
    there are entries, and writes exactly one file per entry if and only
    if the entries resolve to pairwise different names; otherwise some
    entry is overwritten. *)
Theorem extract_file_count (self : PUP) :
  (size (extract self None) <= length (entries self))%nat
  /\ (size (extract self None) = length (entries self)
      <-> NoDup (file_name <$> entries self)).
Proof.
  rewrite size_extract.
  rewrite <- (length_fmap file_name (entries self)).
  split; [apply length_remove_dups_le | apply length_remove_dups_eq].
Qed.

(** * From the file to the directory *)

Lemma file_name_set_data (e : PUPEntry) (d : bytes) :
  file_name (set_data e d) = file_name e.
Proof. reflexivity. Qed.

Lemma named_none (name : string) (es : list PUPEntry) :
  Forall (fun e => file_name e <> name) es -> named name es = [].
Proof.
  unfold named. induction 1 as [| e es He _ IH]; [reflexivity |].
  rewrite filter_cons. case_decide; [contradiction | exact IH].
Qed.

Section EndToEnd.

Context `{codec : Zlib}.

(** The file that [extract] leaves for the name of table record [i],
    when no later record resolves to that name: the data of entry [i]. *)
Lemma extract_after_parse (file_data : bytes) (p : string) (self' : PUP)
      (out_dir : option (gmap string bytes)) (i : nat) :
  parse file_data (PUP_init p) = (self', inr tt) ->
  (i < Z.to_nat (entries_count_of file_data))%nat ->
  (forall j : nat,
      (i < j < Z.to_nat (entries_count_of file_data))%nat ->
      file_name (descriptor file_data (Z.of_nat j))
      <> file_name (descriptor file_data (Z.of_nat i))) ->
  exists e,
    entries self' !! i = Some e
    /\ process_bytes (descriptor file_data (Z.of_nat i))
                     (payload file_data (descriptor file_data (Z.of_nat i)))
       = inr e
    /\ extract self' out_dir !! file_name (descriptor file_data (Z.of_nat i))
       = Some (data e).
Proof.
  intros Hparse Hi Hlater.
  destruct (parse_inr file_data p self' Hparse) as (_ & _ & Hall).
  apply load_all_inr in Hall.
  set (n := Z.to_nat (entries_count_of file_data)) in *.
  destruct (Forall2_lookup_l _ _ _ i _ Hall (table_lookup file_data n i Hi))
    as (e & He & Hone).
  apply load_one_inr in Hone. destruct Hone as (_ & _ & Hproc).
  exists e. split; [exact He |]. split; [exact Hproc |].
  assert (Hname : file_name e = file_name (descriptor file_data (Z.of_nat i))).
  { destruct (process_bytes_fields _ _ _ Hproc) as [d ->].
    apply file_name_set_data. }
  unfold extract. rewrite foldl_write_entry_lookup.
  rewrite <- (take_drop_middle (entries self') i e He).
  rewrite named_app. unfold named at 2. rewrite filter_cons.
  case_decide as Hn; [| contradiction].
  fold (named (file_name (descriptor file_data (Z.of_nat i)))
              (drop (S i) (entries self'))).
  rewrite (named_none _ (drop (S i) (entries self'))).
  - rewrite last_snoc. reflexivity.
  - apply Forall_forall. intros e' Hin.
    apply list_elem_of_lookup in Hin. destruct Hin as [k Hk].
    rewrite lookup_drop in Hk.
    destruct (Forall2_lookup_r _ _ _ _ _ Hall Hk) as (d' & Hd' & Hone').
    assert (Hrange : (S i + k < n)%nat).
    { apply lookup_lt_Some in Hd'. rewrite length_table in Hd'. exact Hd'. }
    rewrite table_lookup in Hd' by exact Hrange. injection Hd' as <-.
    apply load_one_inr in Hone'. destruct Hone' as (_ & _ & Hproc').
    destruct (process_bytes_fields _ _ _ Hproc') as [d'' ->].
    rewrite file_name_set_data. apply Hlater. lia.
Qed.

(** X11: after a successful [parse] and [extract], the file named after
    an uncompressed table record holds exactly that record's payload
    bytes from the container, provided no later record resolves to the
    same name. *)
Theorem extract_holds_payload (file_data : bytes) (p : string) (self' : PUP)
        (out_dir : option (gmap string bytes)) (i : nat) :
  parse file_data (PUP_init p) = (self', inr tt) ->
  (i < Z.to_nat (entries_count_of file_data))%nat ->
  compressed (descriptor file_data (Z.of_nat i)) = false ->
  (forall j : nat,
      (i < j < Z.to_nat (entries_count_of file_data))%nat ->
      file_name (descriptor file_data (Z.of_nat j))
      <> file_name (descriptor file_data (Z.of_nat i))) ->
  extract self' out_dir !! file_name (descriptor file_data (Z.of_nat i))
  = Some (slice file_data (offset (descriptor file_data (Z.of_nat i)))
                          (file_size (descriptor file_data (Z.of_nat i)))).
Proof.
  intros Hparse Hi Hraw Hlater.
  destruct (extract_after_parse file_data p self' out_dir i Hparse Hi Hlater)
    as (e & _ & Hproc & Hfile).
  rewrite Hfile. rewrite process_bytes_inflate, Hraw in Hproc.
  injection Hproc as <-. reflexivity.
Qed.

End EndToEnd.

(** * The command line *)

Lemma extract_io_quiet (f : fault) (self : PUP)
      (out_dir : option (gmap string bytes)) :
  shows f self = false ->
  extract_io f self out_dir = (Some (extract self out_dir), inr tt).
Proof.
  destruct f as [| msg | i msg partial]; cbn; [reflexivity | discriminate |].
  intros Hshow. apply bool_decide_eq_false in Hshow.
  rewrite lookup_ge_None_2 by lia. reflexivity.
Qed.

Lemma extract_io_fails (f : fault) (self : PUP)
      (out_dir : option (gmap string bytes)) :
  shows f self = true ->
  exists dir msg, extract_io f self out_dir = (dir, inl msg).
Proof.
  destruct f as [| msg | i msg partial]; cbn; [discriminate | eauto |].
  intros Hshow. apply bool_decide_eq_true in Hshow.
  destruct (lookup_lt_is_Some_2 (entries self) i Hshow) as [e ->]. eauto.
Qed.

Section CommandLine.

Context `{codec : Zlib}.

(** The run of [main] on a file that is there, can be read and parses. *)
Lemma main_after_parse (prog arg : string) (at_path : string -> place)
      (f : fault) (out_dir : option (gmap string bytes))
      (file_data : bytes) (self' : PUP) (r : result unit) :
  is_there (at_path (path_str arg)) = inr true ->
  opened (at_path (path_str arg)) = inr file_data ->
  parse file_data (PUP_init (path_str arg)) = (self', r) ->
  main [prog; arg] at_path f out_dir
  = match r with
    | inl err => mkOutcome [Failed (Raised err)] 1 out_dir
    | inr _ =>
        match extract_io f self' out_dir with
        | (dir, inl msg) => mkOutcome [Failed (OSError msg)] 1 dir
        | (dir, inr _) => mkOutcome [Extracted] 0 dir
        end
    end.
Proof.
  intros Hthere Hopen Hparse. unfold main.
  case_decide as Hlen; [cbn in Hlen; contradiction |].
  cbn [lookup list_lookup default from_option id].
  rewrite Hthere. unfold parse_file. rewrite Hopen, Hparse.
  destruct r; reflexivity.
Qed.

(** X12: the runs of [main] that end before anything is written.  With
    anything but one argument it prints the usage line; when [exists]
    itself fails, the [OSError] is raised outside the [try] and nothing
    is printed on the standard output; with nothing at the path, the line
    that the file was not found, with the path as [Path] shows it; with a
    file that cannot be read, or that [parse] refuses, or an output
    directory that cannot be made, the line of failure with the
    exception: [struct.error] for a file that ends inside the header or
    the table, the [RuntimeError] of the magic check for a wrong magic.
    Each time the status is 1 and the output directory is as it was. *)
Theorem main_fails_before_writing (argv : list string)
        (at_path : string -> place) (f : fault)
        (out_dir : option (gmap string bytes)) :
  (length argv <> 2%nat ->
   main argv at_path f out_dir = mkOutcome [Usage] 1 out_dir)
  /\ (forall prog arg msg,
        argv = [prog; arg] ->
        is_there (at_path (path_str arg)) = inl msg ->
        main argv at_path f out_dir = mkOutcome [] 1 out_dir)
  /\ (forall prog arg,
        argv = [prog; arg] ->
        is_there (at_path (path_str arg)) = inr false ->
        main argv at_path f out_dir
        = mkOutcome [NotFound (path_str arg)] 1 out_dir)
  /\ (forall prog arg msg,
        argv = [prog; arg] ->
        is_there (at_path (path_str arg)) = inr true ->
        opened (at_path (path_str arg)) = inl msg ->
        main argv at_path f out_dir
        = mkOutcome [Failed (OSError msg)] 1 out_dir)
  /\ (forall prog arg file_data self' err,
        argv = [prog; arg] ->
        is_there (at_path (path_str arg)) = inr true ->
        opened (at_path (path_str arg)) = inr file_data ->
        parse file_data (PUP_init (path_str arg)) = (self', inl err) ->
        main argv at_path f out_dir
        = mkOutcome [Failed (Raised err)] 1 out_dir)
  /\ (forall prog arg file_data,
        argv = [prog; arg] ->
        is_there (at_path (path_str arg)) = inr true ->
        opened (at_path (path_str arg)) = inr file_data ->
        Z.of_nat (length file_data) < HEADER_SIZE
        \/ (magic_of file_data = MAGIC
            /\ Z.of_nat (length file_data)
               < HEADER_SIZE + ENTRY_SIZE * entries_count_of file_data) ->
        main argv at_path f out_dir
        = mkOutcome
            [Failed (Raised (StructError "unpack requires a buffer of 32 bytes"))]
            1 out_dir)
  /\ (forall prog arg file_data,
        argv = [prog; arg] ->
        is_there (at_path (path_str arg)) = inr true ->
        opened (at_path (path_str arg)) = inr file_data ->
        HEADER_SIZE <= Z.of_nat (length file_data) ->
        magic_of file_data <> MAGIC ->
        main argv at_path f out_dir
        = mkOutcome [Failed (Raised (RuntimeError "Invalid PUP file"))]
                    1 out_dir)
  /\ (forall prog arg file_data self' msg,
        argv = [prog; arg] ->
        is_there (at_path (path_str arg)) = inr true ->
        opened (at_path (path_str arg)) = inr file_data ->
        parse file_data (PUP_init (path_str arg)) = (self', inr tt) ->
        f = MkdirFails msg ->
        main argv at_path f out_dir
        = mkOutcome [Failed (OSError msg)] 1 out_dir).
Proof.
  assert (Hraise : forall prog arg file_data self' err,
            argv = [prog; arg] ->
            is_there (at_path (path_str arg)) = inr true ->
            opened (at_path (path_str arg)) = inr file_data ->
            parse file_data (PUP_init (path_str arg)) = (self', inl err) ->
            main argv at_path f out_dir
            = mkOutcome [Failed (Raised err)] 1 out_dir).
  { intros prog arg file_data self' err -> Hthere Hopen Hparse.
    apply (main_after_parse _ _ _ _ _ _ _ _ Hthere Hopen Hparse). }
  repeat split.
  - intros Hargs. unfold main. case_decide; [reflexivity | contradiction].
  - intros prog arg msg -> Hthere. unfold main.
    case_decide as Hlen; [cbn in Hlen; contradiction |].
    cbn [lookup list_lookup default from_option id].
    rewrite Hthere. reflexivity.
  - intros prog arg -> Hthere. unfold main.
    case_decide as Hlen; [cbn in Hlen; contradiction |].
    cbn [lookup list_lookup default from_option id].
    rewrite Hthere. reflexivity.
  - intros prog arg msg -> Hthere Hopen. unfold main.
    case_decide as Hlen; [cbn in Hlen; contradiction |].
    cbn [lookup list_lookup default from_option id].
    rewrite Hthere. unfold parse_file. rewrite Hopen. reflexivity.
  - exact Hraise.
  - intros prog arg file_data Hargv Hthere Hopen [Hshort | [Hmagic Htable]].
    + eapply Hraise; [exact Hargv | exact Hthere | exact Hopen |].
      apply parse_header_short, Hshort.
    + destruct (Z.lt_ge_cases (Z.of_nat (length file_data)) HEADER_SIZE)
        as [Hshort | Hlen].
      * eapply Hraise; [exact Hargv | exact Hthere | exact Hopen |].
        apply parse_header_short, Hshort.
      * pose proof (parse_table_short file_data (PUP_init (path_str arg))
                      Hlen Hmagic Htable) as Herr.
        destruct (parse file_data (PUP_init (path_str arg)))
          as [self' r] eqn:Hparse.
        cbn [snd] in Herr. subst r.
        eapply Hraise; [exact Hargv | exact Hthere | exact Hopen | exact Hparse].
  - intros prog arg file_data Hargv Hthere Hopen Hlen Hmagic.
    eapply Hraise; [exact Hargv | exact Hthere | exact Hopen |].
    apply parse_invalid_magic; assumption.
  - intros prog arg file_data self' msg -> Hthere Hopen Hparse ->.
    rewrite (main_after_parse _ _ _ _ _ _ _ _ Hthere Hopen Hparse).
    reflexivity.
Qed.


(** X14: a successful run of [main] on a container leaves in
    [sys_modules], for an uncompressed table record that no later record
    overrides, a file with exactly the record's payload bytes, and keeps
    every file that was there under a name no entry resolves to. *)
Theorem main_installs_payload (prog arg : string)
        (at_path : string -> place) (f : fault)
        (out_dir : option (gmap string bytes))
        (file_data : bytes) (i : nat) :
  opened (at_path (path_str arg)) = inr file_data ->
  status (main [prog; arg] at_path f out_dir) = 0 ->
  (i < Z.to_nat (entries_count_of file_data))%nat ->
  compressed (descriptor file_data (Z.of_nat i)) = false ->
  (forall j : nat,
      (i < j < Z.to_nat (entries_count_of file_data))%nat ->
      file_name (descriptor file_data (Z.of_nat j))
      <> file_name (descriptor file_data (Z.of_nat i))) ->
  exists dir,
    sys_modules (main [prog; arg] at_path f out_dir) = Some dir
    /\ dir !! file_name (descriptor file_data (Z.of_nat i))
       = Some (slice file_data (offset (descriptor file_data (Z.of_nat i)))
                               (file_size (descriptor file_data (Z.of_nat i))))
    /\ forall name,
        (forall k : nat,
            (k < Z.to_nat (entries_count_of file_data))%nat ->
            file_name (descriptor file_data (Z.of_nat k)) <> name) ->
        dir !! name = mkdir out_dir !! name.
Proof.
  intros Hopen Hstatus Hi Hraw Hlater. unfold main in *.
  case_decide as Hlen; [cbn in Hlen; contradiction |].
  cbn [lookup list_lookup default from_option id] in *.
  destruct (is_there (at_path (path_str arg))) as [msg | []];
    try discriminate.
  unfold parse_file in *. rewrite Hopen in *.
  destruct (parse file_data (PUP_init (path_str arg)))
    as [self' [err | []]] eqn:Hparse; [discriminate |].
  destruct (shows f self') eqn:Hshow.
  { destruct (extract_io_fails f self' out_dir Hshow) as (dir & msg & Hio).
    rewrite Hio in Hstatus. discriminate. }
  rewrite (extract_io_quiet f self' out_dir Hshow).
  cbn [sys_modules]. eexists. split; [reflexivity |]. split.
  - destruct (extract_after_parse file_data (path_str arg) self' out_dir i
                Hparse Hi Hlater) as (e & _ & Hproc & Hfile).
    rewrite Hfile. rewrite process_bytes_inflate, Hraw in Hproc.
    injection Hproc as <-. reflexivity.
  - intros name Hfree. unfold extract. rewrite foldl_write_entry_lookup.
    rewrite named_none; [reflexivity |].
    destruct (parse_inr file_data (path_str arg) self' Hparse)
      as (_ & _ & Hall).
    apply load_all_inr in Hall.
    apply Forall_forall. intros e' Hin.
    apply list_elem_of_lookup in Hin. destruct Hin as [k Hk].
    destruct (Forall2_lookup_r _ _ _ _ _ Hall Hk) as (d' & Hd' & Hone').
    assert (Hrange : (k < Z.to_nat (entries_count_of file_data))%nat).
    { apply lookup_lt_Some in Hd'. rewrite length_table in Hd'. exact Hd'. }
    rewrite table_lookup in Hd' by exact Hrange. injection Hd' as <-.
    apply load_one_inr in Hone'. destruct Hone' as (_ & _ & Hproc').
    destruct (process_bytes_fields _ _ _ Hproc') as [d'' ->].
    rewrite file_name_set_data. apply Hfree, Hrange.
Qed.

(** X15: a failure of the file system while the file of entry [i] is
    written ends the run with status 1 and the line of failure, and
    nothing is undone: the file of every earlier entry stays, with the
    entry's data, unless an entry between the two or the failing entry
    itself resolves to the same name. *)
Theorem main_write_failure_keeps_earlier (prog arg : string)
        (at_path : string -> place) (out_dir : option (gmap string bytes))
        (file_data : bytes) (self' : PUP) (i j : nat) (msg : string)
        (partial : option bytes) (e : PUPEntry) :
  is_there (at_path (path_str arg)) = inr true ->
  opened (at_path (path_str arg)) = inr file_data ->
  parse file_data (PUP_init (path_str arg)) = (self', inr tt) ->
  (i < length (entries self'))%nat ->
  (j < i)%nat ->
  entries self' !! j = Some e ->
  (forall k e', (j < k <= i)%nat -> entries self' !! k = Some e' ->
                file_name e' <> file_name e) ->
  exists dir,
    main [prog; arg] at_path (WriteFails i msg partial) out_dir
    = mkOutcome [Failed (OSError msg)] 1 (Some dir)
    /\ dir !! file_name e = Some (data e).
Proof.
  intros Hthere Hopen Hparse Hi Hj He Hlater.
  rewrite (main_after_parse _ _ _ _ _ _ _ _ Hthere Hopen Hparse).
  unfold extract_io.
  destruct (lookup_lt_is_Some_2 (entries self') i Hi) as [ei Hei].
  rewrite Hei. eexists. split; [reflexivity |].
  assert (Hdir : foldl write_entry (mkdir out_dir) (take i (entries self'))
                 !! file_name e = Some (data e)).
  { rewrite foldl_write_entry_lookup.
    assert (Hj' : take i (entries self') !! j = Some e)
      by (rewrite lookup_take_lt by lia; exact He).
    rewrite <- (take_drop_middle (take i (entries self')) j e Hj').
    rewrite named_app. unfold named at 2. rewrite filter_cons.
    case_decide as Hn; [| contradiction].
    fold (named (file_name e) (drop (S j) (take i (entries self')))).
    rewrite (named_none _ (drop (S j) (take i (entries self')))).
    - rewrite last_snoc. reflexivity.
    - apply Forall_forall. intros e' Hin.
      apply list_elem_of_lookup in Hin. destruct Hin as [k Hk].
      rewrite lookup_drop in Hk.
      assert (Hlt : (S j + k < i)%nat).
      { apply lookup_lt_Some in Hk. rewrite length_take in Hk. lia. }
      rewrite lookup_take_lt in Hk by lia.
      apply (Hlater (S j + k)%nat); [lia | exact Hk]. }
  destruct partial as [written |]; [| exact Hdir].
  rewrite lookup_insert_ne; [exact Hdir |].
  apply (Hlater i); [lia | exact Hei].
Qed.

End CommandLine.

(** * The further theorems at sample inputs *)

Lemma parse_truncated_table_keeps_prefix_witness :
  parse (codec := Stored.zlib) partial_table_pup (PUP_init "PS4UPDATE.PUP")
  = (mkPUP "PS4UPDATE.PUP" [mkPUPEntry 0x500000 96 4 4 []],
     inl (StructError "unpack requires a buffer of 32 bytes")).
Proof.
  apply (parse_truncated_table_keeps_prefix (codec := Stored.zlib)
           partial_table_pup "PS4UPDATE.PUP").
  - vm_compute. discriminate.
  - reflexivity.
  - vm_compute. reflexivity.
Defined.

Lemma parse_raises_only_witness :
  (exists msg, Raised OverflowError = OSError msg
               /\ inr far_second_pup = @inl string bytes msg)
  \/ exists file_data err,
       @inr string bytes far_second_pup = inr file_data
       /\ Raised OverflowError = Raised err
       /\ ((err = StructError "unpack requires a buffer of 32 bytes"
            /\ Z.of_nat (length file_data)
               < HEADER_SIZE + ENTRY_SIZE * entries_count_of file_data)
           \/ (err = RuntimeError "Invalid PUP file"
               /\ HEADER_SIZE <= Z.of_nat (length file_data)
               /\ magic_of file_data <> MAGIC)
           \/ (err = OverflowError
               /\ exists e,
                    e ∈ table file_data (Z.to_nat (entries_count_of file_data))
                    /\ (BytesIO.PY_SSIZE_T_MAX < offset e
                        \/ BytesIO.PY_SSIZE_T_MAX < file_size e))
           \/ (exists msg e,
                 err = ZlibError msg
                 /\ e ∈ table file_data (Z.to_nat (entries_count_of file_data))
                 /\ compressed e = true)).
Proof.
  apply (parse_raises_only (codec := Stored.zlib) (inr far_second_pup)
           "PS4UPDATE.PUP"
           (mkPUP "PS4UPDATE.PUP"
              [mkPUPEntry 0x500000 96 4 4 [xde; xad; xbe; xef];
               mkPUPEntry 0x500000 (2 ^ 63) 4 4 []])
           (Raised OverflowError)).
  vm_compute. reflexivity.
Defined.

Lemma parse_stops_at_first_failure_witness :
  parse (codec := Stored.zlib) far_second_pup (PUP_init "PS4UPDATE.PUP")
  = (mkPUP "PS4UPDATE.PUP"
       ([mkPUPEntry 0x500000 96 4 4 [xde; xad; xbe; xef]]
        ++ drop 1 (table far_second_pup
                     (Z.to_nat (entries_count_of far_second_pup)))),
     inl OverflowError).
Proof.
  apply (parse_stops_at_first_failure (codec := Stored.zlib)
           far_second_pup "PS4UPDATE.PUP" 1).
  - reflexivity.
  - vm_compute. discriminate.
  - vm_compute. lia.
  - vm_compute. reflexivity.
  - vm_compute. reflexivity.
Defined.

Lemma parse_twice_doubles_witness :
  parse (codec := Stored.zlib) sample_pup
        (mkPUP "PS4UPDATE.PUP" [mkPUPEntry 0x500000 64 4 4 [xde; xad; xbe; xef]])
  = (mkPUP "PS4UPDATE.PUP"
       [mkPUPEntry 0x500000 64 4 4 [xde; xad; xbe; xef];
        mkPUPEntry 0x500000 64 4 4 [xde; xad; xbe; xef]],
     inr tt).
Proof.
  apply (parse_twice_doubles (codec := Stored.zlib) sample_pup "PS4UPDATE.PUP"
           (mkPUP "PS4UPDATE.PUP" [mkPUPEntry 0x500000 64 4 4 [xde; xad; xbe; xef]])).
  vm_compute. reflexivity.
Defined.

Lemma parse_entries_bounded_witness :
  Z.of_nat (length [mkPUPEntry 0x500000 96 4 4 [xde; xad; xbe; xef];
                    mkPUPEntry 0x10100000 100 2 2 [x3c; x3e]]) <= 65535.
Proof.
  apply (parse_entries_bounded (codec := Stored.zlib) two_pup "PS4UPDATE.PUP"
           (mkPUP "PS4UPDATE.PUP"
              [mkPUPEntry 0x500000 96 4 4 [xde; xad; xbe; xef];
               mkPUPEntry 0x10100000 100 2 2 [x3c; x3e]])).
  vm_compute. reflexivity.
Defined.

Lemma unknown_name_collides_only_with_itself_witness :
  Z.shiftr (flags (mkPUPEntry 0xFFF00000 0 0 0 [])) 20
  = Z.shiftr (flags (mkPUPEntry 0xFFF00008 64 4 4 hello)) 20.
Proof.
  apply (unknown_name_collides_only_with_itself
           (mkPUPEntry 0xFFF00000 0 0 0 []) (mkPUPEntry 0xFFF00008 64 4 4 hello)).
  - vm_compute. discriminate.
  - vm_compute. discriminate.
  - reflexivity.
  - reflexivity.
Defined.

Lemma two_pup_names_differ (j : nat) :
  (0 < j < Z.to_nat (entries_count_of two_pup))%nat ->
  file_name (descriptor two_pup (Z.of_nat j))
  <> file_name (descriptor two_pup (Z.of_nat 0)).
Proof.
  intros Hj. change (Z.to_nat (entries_count_of two_pup)) with 2%nat in Hj.
  assert (Hone : j = 1%nat) by lia. subst j. vm_compute. discriminate.
Defined.

Lemma extract_holds_payload_witness :
  extract (mkPUP "PS4UPDATE.PUP"
             [mkPUPEntry 0x500000 96 4 4 [xde; xad; xbe; xef];
              mkPUPEntry 0x10100000 100 2 2 [x3c; x3e]])
          None
    !! file_name (descriptor two_pup (Z.of_nat 0))
  = Some (slice two_pup (offset (descriptor two_pup (Z.of_nat 0)))
                        (file_size (descriptor two_pup (Z.of_nat 0)))).
Proof.
  apply (extract_holds_payload (codec := Stored.zlib) two_pup "PS4UPDATE.PUP").
  - vm_compute. reflexivity.
  - vm_compute. lia.
  - reflexivity.
  - exact two_pup_names_differ.
Defined.

Lemma main_installs_payload_witness :
  exists dir,
    sys_modules (main (codec := Stored.zlib)
                      ["install_ps4_firmware.py"%string; "./PS4UPDATE.PUP"%string]
                      sample_disk NoFault None) = Some dir
    /\ dir !! file_name (descriptor two_pup (Z.of_nat 0))
       = Some (slice two_pup (offset (descriptor two_pup (Z.of_nat 0)))
                             (file_size (descriptor two_pup (Z.of_nat 0))))
    /\ forall name,
        (forall k : nat,
            (k < Z.to_nat (entries_count_of two_pup))%nat ->
            file_name (descriptor two_pup (Z.of_nat k)) <> name) ->
        dir !! name = mkdir None !! name.
Proof.
  apply (main_installs_payload (codec := Stored.zlib)).
  - reflexivity.
  - vm_compute. reflexivity.
  - vm_compute. lia.
  - reflexivity.
  - exact two_pup_names_differ.
Defined.

Lemma main_write_failure_keeps_earlier_witness :
  exists dir,
    main (codec := Stored.zlib)
         ["install_ps4_firmware.py"%string; "PS4UPDATE.PUP"%string]
         sample_disk
         (WriteFails 1 "[Errno 28] No space left on device" None) None
    = mkOutcome
        [Failed (OSError "[Errno 28] No space left on device")] 1 (Some dir)
    /\ dir !! file_name (mkPUPEntry 0x500000 96 4 4 [xde; xad; xbe; xef])
       = Some (data (mkPUPEntry 0x500000 96 4 4 [xde; xad; xbe; xef])).
Proof.
  apply (main_write_failure_keeps_earlier (codec := Stored.zlib)
           "install_ps4_firmware.py" "PS4UPDATE.PUP" sample_disk None two_pup
           (mkPUP "PS4UPDATE.PUP"
              [mkPUPEntry 0x500000 96 4 4 [xde; xad; xbe; xef];
               mkPUPEntry 0x10100000 100 2 2 [x3c; x3e]])
           1 0).
  - reflexivity.
  - reflexivity.
  - vm_compute. reflexivity.
  - cbn. lia.
  - lia.
  - reflexivity.
  - intros k e' Hk. assert (Hone : k = 1%nat) by lia. subst k.
    intros [= <-]. vm_compute. discriminate.
Defined.

(** The path as [main] shows and opens it. *)
Example path_str_samples :
  map path_str ["PS4UPDATE.PUP"; "./PS4UPDATE.PUP"; "fw//PS4UPDATE.PUP/";
                "/fw/./PS4UPDATE.PUP"; "//fw/x"; "///fw/x"; "fw/../x";
                ""; "."; "./"; "/"; "//"]%string
  = ["PS4UPDATE.PUP"; "PS4UPDATE.PUP"; "fw/PS4UPDATE.PUP";
     "/fw/PS4UPDATE.PUP"; "//fw/x"; "/fw/x"; "fw/../x";
     "."; "."; "."; "/"; "//"]%string.
Proof. vm_compute. reflexivity. Qed.

(** The whole run on the sample file system: both files arrive. *)
Example main_sample_disk :
  main (codec := Stored.zlib)
       ["install_ps4_firmware.py"%string; "./PS4UPDATE.PUP"%string]
       sample_disk NoFault None
  = mkOutcome [Extracted] 0
      (Some {[ "coreos.slb"%string := [xde; xad; xbe; xef];
               "eula.xml"%string := [x3c; x3e] ]}).
Proof. vm_compute. reflexivity. Qed.

(** A path that is not there is shown as [Path] shows it. *)
Example main_missing :
  main (codec := Stored.zlib)
       ["install_ps4_firmware.py"%string; "./missing.pup"%string]
       sample_disk NoFault None
  = mkOutcome [NotFound "missing.pup"] 1 None.
Proof. vm_compute. reflexivity. Qed.

(** * The decompressor inverts the format *)

Section Bits.

Local Ltac Zify.zify_post_hook ::= Z.div_mod_to_equations.

Lemma byte_of_to_Z (b : byte) : Stored.byte_of_Z (byte_to_Z b) = b.
Proof. destruct b; reflexivity. Qed.

Lemma length_bits_of_byte (b : byte) : length (Inflate.bits_of_byte b) = 8%nat.
Proof. reflexivity. Qed.

Lemma length_bits_of_bytes (bs : bytes) :
  length (Inflate.bits_of_bytes bs) = (8 * length bs)%nat.
Proof.
  induction bs as [| b bs IH]; [reflexivity |].
  cbn [Inflate.bits_of_bytes]. rewrite length_app, IH, length_bits_of_byte.
  cbn [length]. lia.
Qed.

Lemma bits_of_bytes_app (xs ys : bytes) :
  Inflate.bits_of_bytes (xs ++ ys)
  = Inflate.bits_of_bytes xs ++ Inflate.bits_of_bytes ys.
Proof.
  induction xs as [| x xs IH]; [reflexivity |].
  cbn [app Inflate.bits_of_bytes]. rewrite IH, app_assoc. reflexivity.
Qed.

Lemma byte_of_bits (b0 b1 b2 b3 b4 b5 b6 b7 : bool) :
  Inflate.bits_of_byte
    (Stored.byte_of_Z (Inflate.number [b0; b1; b2; b3; b4; b5; b6; b7]))
  = [b0; b1; b2; b3; b4; b5; b6; b7].
Proof.
  destruct b0, b1, b2, b3, b4, b5, b6, b7; reflexivity.
Qed.

Lemma bits_of_byte_number (b : byte) :
  Stored.byte_of_Z (Inflate.number (Inflate.bits_of_byte b)) = b.
Proof. destruct b; reflexivity. Qed.

Lemma bytes_of_bits_app (b : byte) (bits : list bool) :
  Inflate.bytes_of_bits (Inflate.bits_of_byte b ++ bits)
  = b :: Inflate.bytes_of_bits bits.
Proof.
  rewrite <- (bits_of_byte_number b) at 2. reflexivity.
Qed.

Lemma bytes_of_bits_of_bytes (bs : bytes) (tail : list bool) :
  (length tail < 8)%nat ->
  Inflate.bytes_of_bits (Inflate.bits_of_bytes bs ++ tail) = bs.
Proof.
  intros Htail. induction bs as [| b bs IH].
  - cbn [Inflate.bits_of_bytes app].
    do 8 (destruct tail as [| ? tail]; [reflexivity |]).
    cbn [length] in Htail. lia.
  - cbn [Inflate.bits_of_bytes]. rewrite <- app_assoc, bytes_of_bits_app, IH.
    reflexivity.
Qed.

Lemma bits_of_bytes_of_bits (n : nat) (bits : list bool) :
  length bits = (8 * n)%nat ->
  Inflate.bits_of_bytes (Inflate.bytes_of_bits bits) = bits.
Proof.
  revert bits. induction n as [| n IH]; intros bits Hlen.
  - destruct bits; [reflexivity | discriminate].
  - do 8 (destruct bits as [| ? bits]; [cbn [length] in Hlen; lia |]).
    cbn [Inflate.bytes_of_bits Inflate.bits_of_bytes].
    rewrite byte_of_bits, IH by (cbn [length] in Hlen; lia).
    reflexivity.
Qed.

Lemma length_bits_of (n : nat) (v : Z) : length (Deflate.bits_of n v) = n.
Proof.
  revert v. induction n as [| n IH]; intros v; [reflexivity |].
  cbn [Deflate.bits_of length]. rewrite IH. reflexivity.
Qed.

Lemma number_bits_of (n : nat) (v : Z) :
  0 <= v < 2 ^ Z.of_nat n -> Inflate.number (Deflate.bits_of n v) = v.
Proof.
  revert v. induction n as [| n IH]; intros v Hv.
  - cbn in *. lia.
  - cbn [Deflate.bits_of Inflate.number].
    rewrite Nat2Z.inj_succ, Z.pow_succ_r in Hv by lia.
    pose proof (Z.div2_odd v) as Hodd.
    rewrite IH; [lia |].
    rewrite Z.div2_div. split; [apply Z.div_pos; lia |].
    apply Z.div_lt_upper_bound; lia.
Qed.

Lemma take_bits_bits_of (n : nat) (v : Z) (rest : list bool) :
  Deflate.fits n v = true ->
  Inflate.take_bits n (Deflate.bits_of n v ++ rest) = Inflate.Got v rest.
Proof.
  unfold Deflate.fits. intros Hfits.
  apply andb_true_iff in Hfits. destruct Hfits as [Hlo Hhi].
  apply Z.leb_le in Hlo. apply Z.ltb_lt in Hhi.
  unfold Inflate.take_bits.
  rewrite length_app, length_bits_of.
  destruct (Nat.ltb_spec (n + length rest) n) as [Hlt | _]; [lia |].
  rewrite take_app_length', drop_app_length'
    by (rewrite length_bits_of; reflexivity).
  rewrite number_bits_of by lia. reflexivity.
Qed.

Lemma align_padded (pad rest : list bool) :
  (length pad < 8)%nat -> (length rest mod 8 = 0)%nat ->
  Inflate.align (pad ++ rest) = rest.
Proof.
  intros Hpad Hrest. unfold Inflate.align. rewrite length_app.
  replace ((length pad + length rest) mod 8)%nat with (length pad) by lia.
  apply drop_app_length.
Qed.

Lemma length_pad_to_byte (k : nat) :
  (length (Deflate.pad_to_byte k) < 8)%nat
  /\ ((k + length (Deflate.pad_to_byte k)) mod 8 = 0)%nat.
Proof.
  unfold Deflate.pad_to_byte. rewrite length_replicate. lia.
Qed.

End Bits.

Section Huffman.

Lemma is_prefix_app (c rest : list bool) : Inflate.is_prefix c (c ++ rest) = true.
Proof.
  induction c as [| x c IH]; [reflexivity |].
  cbn. rewrite Bool.eqb_reflx. exact IH.
Qed.

Lemma is_prefix_both (a b x : list bool) :
  Inflate.is_prefix a x = true -> Inflate.is_prefix b x = true ->
  Inflate.is_prefix a b = true \/ Inflate.is_prefix b a = true.
Proof.
  revert b x. induction a as [| a0 a IH]; intros b x Ha Hb; [left; reflexivity |].
  destruct b as [| b0 b]; [right; reflexivity |].
  destruct x as [| x0 x]; [discriminate |].
  cbn in Ha, Hb. apply andb_true_iff in Ha, Hb.
  destruct Ha as [Ha0 Ha], Hb as [Hb0 Hb].
  apply Bool.eqb_prop in Ha0, Hb0. subst a0 b0.
  cbn. rewrite Bool.eqb_reflx. exact (IH b x Ha Hb).
Qed.

Lemma code_for_In (table : list (list bool * Z)) (sym : Z) :
  Deflate.coded table sym = true ->
  In (Deflate.code_for table sym, sym) table.
Proof.
  unfold Deflate.coded, Deflate.code_for.
  induction table as [| [c s] table IH]; [discriminate |].
  cbn [existsb find snd fst].
  destruct (Z.eqb_spec s sym) as [-> | Hne].
  - intros _. left. reflexivity.
  - cbn [orb]. intros Hc. right. exact (IH Hc).
Qed.

Lemma find_code_for (table : list (list bool * Z)) (sym : Z) (rest : list bool) :
  Deflate.prefix_free table = true ->
  Deflate.coded table sym = true ->
  find (fun e => Inflate.is_prefix (fst e) (Deflate.code_for table sym ++ rest))
       table
  = Some (Deflate.code_for table sym, sym).
Proof.
  induction table as [| [c s] table IH]; [discriminate |].
  intros Hfree Hcoded.
  cbn [Deflate.prefix_free] in Hfree. apply andb_true_iff in Hfree.
  destruct Hfree as [Hhead Hfree].
  unfold Deflate.coded in Hcoded. cbn [existsb snd] in Hcoded.
  unfold Deflate.code_for. cbn [find snd fst].
  destruct (Z.eqb_spec s sym) as [-> | Hne].
  - rewrite is_prefix_app. reflexivity.
  - cbn [orb] in Hcoded. fold (Deflate.coded table sym) in Hcoded.
    fold (Deflate.code_for table sym).
    destruct (Inflate.is_prefix c (Deflate.code_for table sym ++ rest)) eqn:Hc.
    + exfalso.
      pose proof (code_for_In table sym Hcoded) as Hin.
      rewrite forallb_forall in Hhead. specialize (Hhead _ Hin).
      cbn [fst] in Hhead. apply andb_true_iff in Hhead.
      destruct Hhead as [H1 H2].
      destruct (is_prefix_both _ _ _ Hc
                  (is_prefix_app (Deflate.code_for table sym) rest))
        as [Hp | Hp]; rewrite Hp in *; discriminate.
    + exact (IH Hfree Hcoded).
Qed.

(** Reading the code of a symbol gives the symbol back. *)
Lemma symbol_code_for (table : list (list bool * Z)) (sym : Z) (rest : list bool) :
  Deflate.prefix_free table = true ->
  Deflate.coded table sym = true ->
  Inflate.symbol table (Deflate.code_for table sym ++ rest)
  = Inflate.Got sym rest.
Proof.
  intros Hfree Hcoded. unfold Inflate.symbol.
  rewrite find_code_for by assumption.
  rewrite drop_app_length. reflexivity.
Qed.

Lemma codes_from_nonempty (lens : list nat) (sym : Z) (seen rest : list nat) :
  Forall (fun e => fst e <> []) (Inflate.codes_from lens sym seen rest).
Proof.
  revert sym seen. induction rest as [| l rest IH]; intros sym seen.
  - constructor.
  - cbn [Inflate.codes_from]. destruct l as [| l]; [apply IH |].
    constructor; [discriminate | apply IH].
Qed.

Lemma code_for_nonempty (lens : list nat) (sym : Z) :
  Deflate.coded (Inflate.codes lens) sym = true ->
  (0 < length (Deflate.code_for (Inflate.codes lens) sym))%nat.
Proof.
  intros Hcoded. apply code_for_In in Hcoded.
  pose proof (codes_from_nonempty lens 0 [] lens) as Hall.
  rewrite Forall_forall in Hall.
  apply list_elem_of_In in Hcoded. specialize (Hall _ Hcoded).
  cbn [fst] in Hall.
  destruct (Deflate.code_for (Inflate.codes lens) sym); [contradiction |].
  cbn [length]. lia.
Qed.

Lemma codes_from_coded (lens : list nat) (start : Z) (seen rest : list nat)
      (sym : Z) :
  Deflate.coded (Inflate.codes_from lens start seen rest) sym = true ->
  exists (i l : nat), rest !! i = Some (S l) /\ sym = start + Z.of_nat i.
Proof.
  unfold Deflate.coded.
  revert start seen. induction rest as [| l rest IH]; intros start seen;
    [discriminate |].
  cbn [Inflate.codes_from].
  assert (Hlater :
    existsb (fun e => snd e =? sym)
            (Inflate.codes_from lens (start + 1) (l :: seen) rest) = true ->
    exists (i l0 : nat), (l :: rest) !! i = Some (S l0)
                         /\ sym = start + Z.of_nat i).
  { intros H. destruct (IH _ _ H) as (i & l0 & Hi & ->).
    exists (S i), l0. split; [exact Hi | lia]. }
  destruct l as [| l]; [exact Hlater |].
  cbn [existsb snd]. intros H. apply orb_true_iff in H.
  destruct H as [H | H]; [| exact (Hlater H)].
  apply Z.eqb_eq in H. exists 0%nat, l. split; [reflexivity | lia].
Qed.

(** A coded symbol has a length that is not zero. *)
Lemma codes_coded (lens : list nat) (sym : Z) :
  Deflate.coded (Inflate.codes lens) sym = true ->
  0 <= sym /\ exists l, lens !! Z.to_nat sym = Some (S l).
Proof.
  intros H. destruct (codes_from_coded lens 0 [] lens sym H) as (i & l & Hi & ->).
  split; [lia |]. exists l.
  replace (Z.to_nat (0 + Z.of_nat i)) with i by lia. exact Hi.
Qed.

End Huffman.

Section Tokens.

Variables lit dist : list (list bool * Z).
Hypothesis lit_free : Deflate.prefix_free lit = true.
Hypothesis dist_free : Deflate.prefix_free dist = true.

Lemma length_base_lookup (i : nat) :
  (i < 29)%nat ->
  Inflate.length_base !! i = Some (default 0 (Inflate.length_base !! i))
  /\ Inflate.length_extra !! i
     = Some (default 0%nat (Inflate.length_extra !! i)).
Proof.
  intros Hi.
  destruct (lookup_lt_is_Some_2 Inflate.length_base i) as [x ->];
    [cbn [length Inflate.length_base]; lia |].
  destruct (lookup_lt_is_Some_2 Inflate.length_extra i) as [y ->];
    [cbn [length Inflate.length_extra]; lia |].
  split; reflexivity.
Qed.

Lemma dist_base_lookup (i : nat) :
  (i < 30)%nat ->
  Inflate.dist_base !! i = Some (default 0 (Inflate.dist_base !! i))
  /\ Inflate.dist_extra !! i
     = Some (default 0%nat (Inflate.dist_extra !! i)).
Proof.
  intros Hi.
  destruct (lookup_lt_is_Some_2 Inflate.dist_base i) as [x ->];
    [cbn [length Inflate.dist_base]; lia |].
  destruct (lookup_lt_is_Some_2 Inflate.dist_extra i) as [y ->];
    [cbn [length Inflate.dist_extra]; lia |].
  split; reflexivity.
Qed.

(** Reading what is written for a match, behind its length symbol. *)
Lemma match_of_encode (lcode : nat) (lmore : Z) (dcode : nat) (dmore : Z)
      (rest : list bool) :
  (lcode < 29)%nat ->
  Deflate.fits (default 0%nat (Inflate.length_extra !! lcode)) lmore = true ->
  (dcode < 30)%nat ->
  Deflate.fits (default 0%nat (Inflate.dist_extra !! dcode)) dmore = true ->
  Deflate.coded dist (Z.of_nat dcode) = true ->
  Inflate.match_of dist (257 + Z.of_nat lcode)
    (Deflate.bits_of (default 0%nat (Inflate.length_extra !! lcode)) lmore
       ++ Deflate.code_for dist (Z.of_nat dcode)
       ++ Deflate.bits_of (default 0%nat (Inflate.dist_extra !! dcode)) dmore
       ++ rest)
  = Inflate.Got (Deflate.match_length lcode lmore,
                 Deflate.match_distance dcode dmore) rest.
Proof.
  intros Hl Hlm Hd Hdm Hcoded. unfold Inflate.match_of.
  replace (Z.to_nat (257 + Z.of_nat lcode - 257)) with lcode by lia.
  destruct (length_base_lookup lcode Hl) as [-> ->].
  rewrite take_bits_bits_of by exact Hlm.
  rewrite symbol_code_for by assumption.
  rewrite Nat2Z.id.
  destruct (dist_base_lookup dcode Hd) as [-> ->].
  rewrite take_bits_bits_of by exact Hdm.
  reflexivity.
Qed.

(** Reading the tokens of a block up to the end-of-block symbol. *)
Lemma tokens_encode (ts : list Deflate.token) :
  forall (fuel : nat) (out : bytes) (rest : list bool),
    Deflate.tokens_ok lit dist out ts = true ->
    Deflate.coded lit 256 = true ->
    (length ts < fuel)%nat ->
    Inflate.tokens fuel lit dist
      (concat (map (Deflate.encode_token lit dist) ts)
         ++ Deflate.code_for lit 256 ++ rest) out
    = Inflate.EndOfBlock rest (foldl Deflate.put out ts).
Proof.
  induction ts as [| t ts IH]; intros fuel out rest Hok Heob Hfuel.
  - destruct fuel as [| fuel]; [cbn [length] in Hfuel; lia |].
    cbn [map concat app foldl Inflate.tokens].
    rewrite symbol_code_for by assumption. reflexivity.
  - destruct fuel as [| fuel]; [cbn [length] in Hfuel; lia |].
    cbn [length] in Hfuel.
    cbn [Deflate.tokens_ok] in Hok. apply andb_true_iff in Hok.
    destruct Hok as [Ht Hok].
    cbn [map concat foldl Inflate.tokens]. rewrite <- app_assoc.
    destruct t as [b | lcode lmore dcode dmore].
    + cbn [Deflate.encode_token Deflate.token_ok] in *.
      rewrite symbol_code_for by assumption.
      pose proof (byte_to_Z_range b) as Hb.
      destruct (Z.ltb_spec (byte_to_Z b) 256) as [_ | Hge]; [| lia].
      rewrite byte_of_to_Z.
      apply (IH fuel _ rest Hok Heob). lia.
    + cbn [Deflate.encode_token Deflate.token_ok] in *.
      repeat (apply andb_true_iff in Ht; destruct Ht as [Ht ?]).
      rewrite <- !app_assoc.
      rewrite symbol_code_for by assumption.
      destruct (Z.ltb_spec (257 + Z.of_nat lcode) 256) as [Hlt | _]; [lia |].
      destruct (Z.eqb_spec (257 + Z.of_nat lcode) 256) as [Heq | _]; [lia |].
      rewrite match_of_encode;
        try assumption; try (apply Nat.ltb_lt; assumption).
      match goal with
      | H : (Deflate.match_distance _ _ <=? _) = true |- _ =>
          apply Z.leb_le in H;
          destruct (Z.ltb_spec (Z.of_nat (length out))
                               (Deflate.match_distance dcode dmore))
            as [Hfar | _]; [lia |]
      end.
      apply (IH fuel _ rest Hok Heob). lia.
Qed.

End Tokens.

(** Every token takes at least one bit. *)
Lemma length_encode_tokens (lens : list nat) (dist : list (list bool * Z))
      (ts : list Deflate.token) :
  forall out,
    Deflate.tokens_ok (Inflate.codes lens) dist out ts = true ->
    (length ts
     <= length (concat (map (Deflate.encode_token (Inflate.codes lens) dist)
                            ts)))%nat.
Proof.
  induction ts as [| t ts IH]; intros out Hok; [cbn; lia |].
  cbn [Deflate.tokens_ok] in Hok. apply andb_true_iff in Hok.
  destruct Hok as [Ht Hok]. specialize (IH _ Hok).
  cbn [map concat length]. rewrite length_app.
  enough (0 < length (Deflate.encode_token (Inflate.codes lens) dist t))%nat
    by lia.
  destruct t as [b | lcode lmore dcode dmore];
    cbn [Deflate.encode_token Deflate.token_ok] in *.
  - apply code_for_nonempty, Ht.
  - repeat (apply andb_true_iff in Ht; destruct Ht as [Ht ?]).
    rewrite length_app.
    enough (0 < length (Deflate.code_for (Inflate.codes lens)
                                         (257 + Z.of_nat lcode)))%nat by lia.
    apply code_for_nonempty. assumption.
Qed.

Section StoredBlocks.

Local Ltac Zify.zify_post_hook ::= Z.div_mod_to_equations.

Lemma bytes_of_bits_of_bytes_whole (bs : bytes) :
  Inflate.bytes_of_bits (Inflate.bits_of_bytes bs) = bs.
Proof.
  rewrite <- (app_nil_r (Inflate.bits_of_bytes bs)).
  apply bytes_of_bits_of_bytes. cbn [length]. lia.
Qed.

Lemma fits_16 (n : nat) :
  (n <= Z.to_nat 65535)%nat ->
  Deflate.fits 16 (Z.of_nat n) = true
  /\ Deflate.fits 16 (65535 - Z.of_nat n) = true.
Proof.
  intros Hn. unfold Deflate.fits. change (2 ^ Z.of_nat 16) with 65536.
  split; apply andb_true_iff; split;
    first [apply Z.leb_le | apply Z.ltb_lt]; lia.
Qed.

(** Reading a stored block, behind its three header bits. *)
Lemma stored_encode (pad : list bool) (content : bytes) (rest : list bool)
      (out : bytes) :
  (length pad < 8)%nat ->
  (length rest mod 8 = 0)%nat ->
  (length content <= Z.to_nat 65535)%nat ->
  Inflate.stored
    (pad ++ Deflate.bits_of 16 (Z.of_nat (length content))
         ++ Deflate.bits_of 16 (65535 - Z.of_nat (length content))
         ++ Inflate.bits_of_bytes content ++ rest) out
  = Inflate.EndOfBlock rest (rev content ++ out).
Proof.
  intros Hpad Hrest Hlen. unfold Inflate.stored.
  destruct (fits_16 _ Hlen) as [Hfit1 Hfit2].
  rewrite align_padded.
  2: exact Hpad.
  2: { rewrite !length_app, !length_bits_of, length_bits_of_bytes. lia. }
  rewrite take_bits_bits_of by exact Hfit1.
  rewrite take_bits_bits_of by exact Hfit2.
  change 0xFFFF with 65535. rewrite Z.eqb_refl. cbn [negb].
  rewrite Nat2Z.id, length_app, length_bits_of_bytes.
  destruct (Nat.ltb_spec (8 * length content + length rest)
                         (8 * length content)) as [Hlt | _]; [lia |].
  rewrite take_app_length', drop_app_length'
    by (rewrite length_bits_of_bytes; reflexivity).
  rewrite bytes_of_bits_of_bytes_whole. reflexivity.
Qed.

Lemma take_bits_of_bytes (k : nat) (bs : bytes) :
  take (8 * k) (Inflate.bits_of_bytes bs) = Inflate.bits_of_bytes (take k bs).
Proof.
  revert bs. induction k as [| k IH]; intros bs; [reflexivity |].
  destruct bs as [| b bs]; [reflexivity |].
  replace (8 * S k)%nat with (8 + 8 * k)%nat by lia.
  cbn [take Inflate.bits_of_bytes].
  change (Inflate.bits_of_byte b)
    with ([Z.testbit (byte_to_Z b) 0; Z.testbit (byte_to_Z b) 1;
           Z.testbit (byte_to_Z b) 2; Z.testbit (byte_to_Z b) 3;
           Z.testbit (byte_to_Z b) 4; Z.testbit (byte_to_Z b) 5;
           Z.testbit (byte_to_Z b) 6; Z.testbit (byte_to_Z b) 7]).
  cbn [app Nat.add take]. rewrite IH. reflexivity.
Qed.

(** Reading what is behind the last block: a check that has not arrived
    in full is not made. *)
Lemma check_frame (pad : list bool) (trailer out : bytes) :
  (length pad < 8)%nat ->
  Inflate.check (pad ++ Inflate.bits_of_bytes trailer) out
  = if (length trailer <? 4)%nat then inr (rev out)
    else if Stored.be_to_Z (take 4 trailer) =? Stored.adler32 (rev out)
         then inr (rev out)
         else Inflate.error "incorrect data check".
Proof.
  intros Hpad. unfold Inflate.check.
  rewrite align_padded;
    [| exact Hpad | rewrite length_bits_of_bytes; lia].
  rewrite length_bits_of_bytes.
  destruct (Nat.ltb_spec (length trailer) 4) as [Hshort | Hlong].
  - destruct (Nat.ltb_spec (8 * length trailer) 32) as [_ | Hge];
      [reflexivity | lia].
  - destruct (Nat.ltb_spec (8 * length trailer) 32) as [Hlt | _]; [lia |].
    change 32%nat with (8 * 4)%nat.
    rewrite take_bits_of_bytes, bytes_of_bits_of_bytes_whole. reflexivity.
Qed.

End StoredBlocks.

Section DynamicBlocks.

(** Reading the lengths of the code length code. *)
Lemma code_length_lengths_encode (cl : list nat) :
  Forall (fun l => (l < 8)%nat) cl ->
  forall (order : list nat) (n : nat) (lens : list nat) (rest : list bool),
    Inflate.code_length_lengths n order
      (concat (map (fun sym =>
                      Deflate.bits_of 3 (Z.of_nat (default 0%nat (cl !! sym))))
                   (take n order)) ++ rest) lens
    = Inflate.Got
        (foldl (fun acc sym => <[sym := default 0%nat (cl !! sym)]> acc)
               lens (take n order))
        rest.
Proof.
  intros Hcl. induction order as [| sym order IH]; intros n lens rest.
  - rewrite take_nil. destruct n; reflexivity.
  - destruct n as [| n]; [reflexivity |].
    cbn [take map concat foldl Inflate.code_length_lengths].
    rewrite <- app_assoc.
    assert (Hfit : Deflate.fits 3 (Z.of_nat (default 0%nat (cl !! sym))) = true).
    { assert (default 0%nat (cl !! sym) < 8)%nat as Hlt.
      { destruct (cl !! sym) as [l |] eqn:Hl; cbn [default from_option id]; [| lia].
        rewrite Forall_forall in Hcl. apply Hcl.
        apply list_elem_of_lookup. exists sym. exact Hl. }
      unfold Deflate.fits. change (2 ^ Z.of_nat 3) with 8.
      apply andb_true_iff. split; [apply Z.leb_le | apply Z.ltb_lt]; lia. }
    rewrite take_bits_bits_of by exact Hfit.
    rewrite Nat2Z.id. apply IH.
Qed.

Lemma lookup_foldl_insert (f : nat -> nat) (syms : list nat) :
  forall (acc : list nat) (i : nat),
    (i < length acc)%nat ->
    foldl (fun acc sym => <[sym := f sym]> acc) acc syms !! i
    = if bool_decide (i ∈ syms) then Some (f i) else acc !! i.
Proof.
  induction syms as [| s syms IH]; intros acc i Hi.
  - cbn [foldl]. rewrite bool_decide_eq_false_2; [reflexivity |].
    apply not_elem_of_nil.
  - cbn [foldl]. rewrite IH by (rewrite length_insert; exact Hi).
    destruct (decide (i ∈ syms)) as [Hin | Hnot].
    + rewrite !bool_decide_eq_true_2; [reflexivity | | exact Hin].
      apply elem_of_cons. right. exact Hin.
    + rewrite (bool_decide_eq_false_2 _ Hnot).
      destruct (decide (i = s)) as [-> | Hne].
      * rewrite bool_decide_eq_true_2 by (apply elem_of_cons; left; reflexivity).
        apply list_lookup_insert_eq. exact Hi.
      * rewrite bool_decide_eq_false_2.
        -- apply list_lookup_insert_ne. congruence.
        -- intros [? | ?]%elem_of_cons; contradiction.
Qed.

Lemma code_length_order_complete (i : nat) :
  (i < 19)%nat -> i ∈ Inflate.code_length_order.
Proof.
  intros Hi. do 19 (destruct i as [| i]; [set_solver |]). lia.
Qed.

(** The lengths that are read are the ones of the description. *)
Lemma code_length_lengths_whole (cl : list nat) (ncode : nat) :
  length cl = 19%nat ->
  forallb (fun sym => (default 0%nat (cl !! sym) =? 0)%nat)
          (drop ncode Inflate.code_length_order) = true ->
  foldl (fun acc sym => <[sym := default 0%nat (cl !! sym)]> acc)
        (replicate 19 0%nat) (take ncode Inflate.code_length_order)
  = cl.
Proof.
  intros Hlen Hzero. apply list_eq. intros i.
  destruct (Nat.lt_ge_cases i 19) as [Hi | Hi].
  - rewrite lookup_foldl_insert by (rewrite length_replicate; exact Hi).
    destruct (lookup_lt_is_Some_2 cl i) as [l Hl]; [lia |].
    rewrite Hl. cbn [default from_option id].
    case_bool_decide as Hin; [reflexivity |].
    rewrite lookup_replicate_2 by exact Hi.
    pose proof (code_length_order_complete i Hi) as Hall.
    rewrite <- (take_drop ncode Inflate.code_length_order) in Hall.
    apply elem_of_app in Hall. destruct Hall as [Hall | Hall]; [contradiction |].
    rewrite forallb_forall in Hzero.
    apply list_elem_of_In in Hall. specialize (Hzero _ Hall).
    rewrite Hl in Hzero. cbn [default from_option id] in Hzero.
    apply Nat.eqb_eq in Hzero. congruence.
  - rewrite !lookup_ge_None_2; [reflexivity | lia |].
    assert (Hkeep : forall syms acc,
              length (foldl (fun acc sym =>
                               <[sym := default 0%nat (cl !! sym)]> acc)
                            acc syms) = length acc).
    { induction syms as [| s syms IH]; intros acc; [reflexivity |].
      cbn [foldl]. rewrite IH, length_insert. reflexivity. }
    rewrite Hkeep, length_replicate. exact Hi.
Qed.

Lemma length_grow (table : list (list bool * Z)) (lens : list nat)
      (it : Deflate.item) :
  Deflate.item_ok table lens it = true ->
  (length lens < length (Deflate.grow lens it))%nat.
Proof.
  destruct it as [l | n | n | n]; cbn [Deflate.item_ok Deflate.grow];
    intros Hok; repeat (apply andb_true_iff in Hok; destruct Hok as [Hok ?]);
    rewrite ?length_app, ?length_replicate; cbn [length];
    try apply Nat.leb_le in Hok; lia.
Qed.

Lemma length_foldl_grow (table : list (list bool * Z)) (items : list Deflate.item) :
  forall lens,
    Deflate.items_ok table lens items = true ->
    (length lens + length items
     <= length (foldl Deflate.grow lens items))%nat.
Proof.
  induction items as [| it items IH]; intros lens Hok; [cbn; lia |].
  cbn [Deflate.items_ok] in Hok. apply andb_true_iff in Hok.
  destruct Hok as [Hit Hok].
  cbn [foldl length]. specialize (IH _ Hok).
  pose proof (length_grow _ _ _ Hit). lia.
Qed.

Lemma code_length_symbol_coded (table : list (list bool * Z)) (sym : Z)
      (rest : list bool) :
  Deflate.prefix_free table = true ->
  Deflate.coded table sym = true ->
  Inflate.code_length_symbol table (Deflate.code_for table sym ++ rest)
  = Inflate.Got sym rest.
Proof.
  intros Hfree Hcoded. unfold Inflate.code_length_symbol.
  destruct table as [| e table]; [discriminate |].
  apply symbol_code_for; assumption.
Qed.

(** Reading the run-length coded lengths of the two codes. *)
Lemma code_lengths_encode (table : list (list bool * Z)) (total : nat) :
  Deflate.prefix_free table = true ->
  forall (items : list Deflate.item) (fuel : nat) (lens : list nat)
         (rest : list bool),
    Deflate.items_ok table lens items = true ->
    length (foldl Deflate.grow lens items) = total ->
    (length items < fuel)%nat ->
    Inflate.code_lengths fuel table total
      (concat (map (Deflate.encode_item table) items) ++ rest) lens
    = Inflate.Got (rev (foldl Deflate.grow lens items)) rest.
Proof.
  intros Hfree.
  induction items as [| it items IH]; intros fuel lens rest Hok Htotal Hfuel.
  - destruct fuel as [| fuel]; [cbn [length] in Hfuel; lia |].
    cbn [foldl] in *. cbn [map concat app Inflate.code_lengths].
    destruct (Nat.leb_spec total (length lens)) as [_ | Hlt]; [reflexivity | lia].
  - destruct fuel as [| fuel]; [cbn [length] in Hfuel; lia |].
    cbn [length] in Hfuel.
    cbn [Deflate.items_ok] in Hok. apply andb_true_iff in Hok.
    destruct Hok as [Hit Hok].
    cbn [foldl] in *. cbn [map concat Inflate.code_lengths].
    pose proof (length_grow _ _ _ Hit) as Hgrow.
    pose proof (length_foldl_grow _ _ _ Hok) as Hmore.
    destruct (Nat.leb_spec total (length lens)) as [Hle | _]; [lia |].
    rewrite <- app_assoc.
    assert (Hnext : Inflate.code_lengths fuel table total
                      (concat (map (Deflate.encode_item table) items) ++ rest)
                      (Deflate.grow lens it)
                    = Inflate.Got
                        (rev (foldl Deflate.grow (Deflate.grow lens it) items))
                        rest)
      by (apply IH; [exact Hok | exact Htotal | lia]).
    destruct it as [l | n | n | n];
      cbn [Deflate.item_ok Deflate.encode_item Deflate.grow] in *;
      repeat (apply andb_true_iff in Hit; destruct Hit as [Hit ?]).
    + rewrite code_length_symbol_coded by assumption.
      apply Nat.ltb_lt in Hit.
      destruct (Z.ltb_spec (Z.of_nat l) 16) as [_ | Hge]; [| lia].
      rewrite Nat2Z.id. exact Hnext.
    + rewrite <- app_assoc.
      rewrite code_length_symbol_coded by assumption.
      change (16 <? 16) with false. change (16 =? 16) with true. cbv iota.
      apply Nat.leb_le in Hit.
      match goal with H : (n <=? 6)%nat = true |- _ => apply Nat.leb_le in H end.
      rewrite take_bits_bits_of.
      2: { unfold Deflate.fits. change (2 ^ Z.of_nat 2) with 4.
           apply andb_true_iff. split; [apply Z.leb_le | apply Z.ltb_lt]; lia. }
      replace (Z.to_nat (3 + (Z.of_nat n - 3))) with n by lia.
      destruct lens as [| l0 lens]; [discriminate |].
      rewrite length_app, length_replicate in Hgrow, Hmore.
      destruct (Nat.ltb_spec total (length (l0 :: lens) + n)) as [Hlt | _];
        [lia |].
      exact Hnext.
    + rewrite <- app_assoc.
      rewrite code_length_symbol_coded by assumption.
      change (17 <? 16) with false. change (17 =? 16) with false.
      change (17 =? 17) with true. cbv iota.
      apply Nat.leb_le in Hit.
      match goal with H : (n <=? 10)%nat = true |- _ => apply Nat.leb_le in H end.
      rewrite take_bits_bits_of.
      2: { unfold Deflate.fits. change (2 ^ Z.of_nat 3) with 8.
           apply andb_true_iff. split; [apply Z.leb_le | apply Z.ltb_lt]; lia. }
      replace (Z.to_nat (3 + (Z.of_nat n - 3))) with n by lia.
      rewrite length_app, length_replicate in Hgrow, Hmore.
      destruct (Nat.ltb_spec total (length lens + n)) as [Hlt | _]; [lia |].
      exact Hnext.
    + rewrite <- app_assoc.
      rewrite code_length_symbol_coded by assumption.
      change (18 <? 16) with false. change (18 =? 16) with false.
      change (18 =? 17) with false. cbv iota.
      apply Nat.leb_le in Hit.
      match goal with H : (n <=? 138)%nat = true |- _ => apply Nat.leb_le in H end.
      rewrite take_bits_bits_of.
      2: { unfold Deflate.fits. change (2 ^ Z.of_nat 7) with 128.
           apply andb_true_iff. split; [apply Z.leb_le | apply Z.ltb_lt]; lia. }
      replace (Z.to_nat (11 + (Z.of_nat n - 11))) with n by lia.
      rewrite length_app, length_replicate in Hgrow, Hmore.
      destruct (Nat.ltb_spec total (length lens + n)) as [Hlt | _]; [lia |].
      exact Hnext.
Qed.

End DynamicBlocks.

Section Blocks.

Local Ltac Zify.zify_post_hook ::= Z.div_mod_to_equations.

Lemma fits_of_nat (n : nat) (lo hi : nat) (v : nat) :
  (lo <= v)%nat -> (Z.of_nat v - Z.of_nat lo < 2 ^ Z.of_nat n) ->
  Deflate.fits n (Z.of_nat v - Z.of_nat lo) = true.
Proof.
  intros Hlo Hhi. unfold Deflate.fits.
  apply andb_true_iff. split; [apply Z.leb_le | apply Z.ltb_lt]; lia.
Qed.

(** Reading the header of a dynamic block gives the two codes of the
    description. *)
Lemma dynamic_tables_encode (nlen ndist ncode : nat) (cl : list nat)
      (items : list Deflate.item) (ts : list Deflate.token) (out : bytes)
      (rest : list bool) :
  let b := Deflate.DynamicBlock nlen ndist ncode cl items ts in
  Deflate.block_ok out b = true ->
  Inflate.dynamic_tables
    (Deflate.bits_of 5 (Z.of_nat nlen - 257)
       ++ Deflate.bits_of 5 (Z.of_nat ndist - 1)
       ++ Deflate.bits_of 4 (Z.of_nat ncode - 4)
       ++ concat (map (fun sym =>
                         Deflate.bits_of 3 (Z.of_nat (default 0%nat (cl !! sym))))
                      (take ncode Inflate.code_length_order))
       ++ concat (map (Deflate.encode_item (Inflate.codes cl)) items)
       ++ rest)
  = Inflate.Got (Deflate.lit_table b, Deflate.dist_table b) rest.
Proof.
  intros b Hok. subst b. cbn [Deflate.block_ok Deflate.lit_table Deflate.dist_table] in *.
  repeat (apply andb_true_iff in Hok; destruct Hok as [Hok ?]).
  repeat match goal with
         | H : (_ <=? _)%nat = true |- _ => apply Nat.leb_le in H
         | H : (_ =? _)%nat = true |- _ => apply Nat.eqb_eq in H
         end.
  match goal with
  | H : forallb (fun l => (l <? 8)%nat) cl = true |- _ => rename H into Hsmall
  end.
  match goal with
  | H : Deflate.table_ok Inflate.CODES cl = true |- _ =>
      apply andb_true_iff in H; destruct H as [Hcl_ok Hcl_free]
  end.
  match goal with
  | H : Deflate.table_ok Inflate.LENS _ = true |- _ =>
      apply andb_true_iff in H; destruct H as [Hlit_ok Hlit_free]
  end.
  match goal with
  | H : Deflate.table_ok Inflate.DISTS _ = true |- _ =>
      apply andb_true_iff in H; destruct H as [Hdist_ok Hdist_free]
  end.
  match goal with
  | H : Deflate.coded _ 256 = true |- _ => rename H into Heob
  end.
  match goal with
  | H : length (Deflate.lengths_of items) = _ |- _ => rename H into Htotal
  end.
  match goal with
  | H : Deflate.items_ok _ _ _ = true |- _ => rename H into Hitems
  end.
  unfold Inflate.dynamic_tables.
  rewrite take_bits_bits_of.
  2: { unfold Deflate.fits. change (2 ^ Z.of_nat 5) with 32.
       apply andb_true_iff. split; [apply Z.leb_le | apply Z.ltb_lt]; lia. }
  rewrite take_bits_bits_of.
  2: { unfold Deflate.fits. change (2 ^ Z.of_nat 5) with 32.
       apply andb_true_iff. split; [apply Z.leb_le | apply Z.ltb_lt]; lia. }
  rewrite take_bits_bits_of.
  2: { unfold Deflate.fits. change (2 ^ Z.of_nat 4) with 16.
       apply andb_true_iff. split; [apply Z.leb_le | apply Z.ltb_lt]; lia. }
  replace (Z.to_nat (Z.of_nat nlen - 257 + 257)) with nlen by lia.
  replace (Z.to_nat (Z.of_nat ndist - 1 + 1)) with ndist by lia.
  replace (Z.to_nat (Z.of_nat ncode - 4 + 4)) with ncode by lia.
  destruct (Nat.ltb_spec 286 nlen) as [Hbad | _]; [lia |].
  destruct (Nat.ltb_spec 30 ndist) as [Hbad | _]; [lia |].
  cbn [orb].
  rewrite code_length_lengths_encode.
  2: { apply Forall_forall. intros l Hl. rewrite forallb_forall in Hsmall.
       apply Nat.ltb_lt, Hsmall, list_elem_of_In, Hl. }
  rewrite code_length_lengths_whole by assumption.
  rewrite Hcl_ok. cbn [negb].
  unfold Deflate.lengths_of in *. rewrite length_rev in Htotal.
  rewrite (code_lengths_encode (Inflate.codes cl) (nlen + ndist) Hcl_free
             items (S (nlen + ndist)) [] rest Hitems Htotal).
  2: { pose proof (length_foldl_grow _ _ _ Hitems) as Hmore.
       cbn [length] in Hmore. lia. }
  destruct (codes_coded _ _ Heob) as [_ [l Hl]].
  change (Z.to_nat 256) with 256%nat in Hl.
  apply lookup_take_Some in Hl. destruct Hl as [Hl _].
  rewrite Hl. cbn [default from_option id Nat.eqb].
  rewrite Hlit_ok, Hdist_ok. reflexivity.
Qed.

Lemma length_encode_tokens_block (b : Deflate.block) (ts : list Deflate.token)
      (out : bytes) :
  Deflate.tokens_ok (Deflate.lit_table b) (Deflate.dist_table b) out ts = true ->
  (length ts
   <= length (concat (map (Deflate.encode_token (Deflate.lit_table b)
                                                (Deflate.dist_table b)) ts)))%nat.
Proof.
  intros Hok.
  destruct b as [content | ts' | nlen ndist ncode cl items ts'];
    cbn [Deflate.lit_table Deflate.dist_table] in *;
    eapply length_encode_tokens; exact Hok.
Qed.

Lemma fixed_tables_checked :
  (let lit := Inflate.codes Inflate.fixed_lit_lengths in
   let dist := Inflate.codes Inflate.fixed_dist_lengths in
   Deflate.prefix_free lit && Deflate.prefix_free dist && Deflate.coded lit 256
   && (length (Deflate.code_for lit 256) =? 7)%nat
   && forallb (Deflate.coded lit) (map Z.of_nat (seq 0 256))) = true.
Proof. vm_compute. reflexivity. Qed.

Lemma fixed_tables_free :
  Deflate.prefix_free (Inflate.codes Inflate.fixed_lit_lengths) = true
  /\ Deflate.prefix_free (Inflate.codes Inflate.fixed_dist_lengths) = true
  /\ Deflate.coded (Inflate.codes Inflate.fixed_lit_lengths) 256 = true
  /\ length (Deflate.code_for (Inflate.codes Inflate.fixed_lit_lengths) 256)
     = 7%nat
  /\ forallb (Deflate.coded (Inflate.codes Inflate.fixed_lit_lengths))
             (map Z.of_nat (seq 0 256)) = true.
Proof.
  pose proof fixed_tables_checked as H. cbv zeta in H.
  apply andb_true_iff in H. destruct H as [H Hall].
  apply andb_true_iff in H. destruct H as [H Hlen].
  apply andb_true_iff in H. destruct H as [H Heob].
  apply andb_true_iff in H. destruct H as [Hlit Hdist].
  apply Nat.eqb_eq in Hlen.
  exact (conj Hlit (conj Hdist (conj Heob (conj Hlen Hall)))).
Qed.

(** Reading the tokens of a block of the description. *)
Lemma tokens_encode_block (b : Deflate.block) (ts : list Deflate.token)
      (out : bytes) (rest : list bool) (lit dist : list (list bool * Z)) :
  lit = Deflate.lit_table b ->
  dist = Deflate.dist_table b ->
  Deflate.prefix_free lit = true ->
  Deflate.prefix_free dist = true ->
  Deflate.coded lit 256 = true ->
  Deflate.tokens_ok lit dist out ts = true ->
  Inflate.tokens (S (length (Deflate.encode_tokens b ts ++ rest))) lit dist
                 (Deflate.encode_tokens b ts ++ rest) out
  = Inflate.EndOfBlock rest (foldl Deflate.put out ts).
Proof.
  intros -> -> Hlit Hdist Heob Hok. unfold Deflate.encode_tokens.
  rewrite <- app_assoc.
  apply tokens_encode; try assumption.
  pose proof (length_encode_tokens_block b ts out Hok).
  rewrite length_app. lia.
Qed.

(** Reading one block of the description. *)
Lemma blocks_step (fuel k : nat) (final : bool) (b : Deflate.block)
      (out : bytes) (rest : list bool) :
  Deflate.block_ok out b = true ->
  ((k + length (Deflate.encode_block k final b) + length rest) mod 8 = 0)%nat ->
  Inflate.blocks (S fuel) (Deflate.encode_block k final b ++ rest) out
  = if final then Inflate.check rest (Deflate.block_out out b)
    else Inflate.blocks fuel rest (Deflate.block_out out b).
Proof.
  intros Hok Haligned.
  destruct b as [content | ts | nlen ndist ncode cl items ts].
  - cbn [Deflate.encode_block Deflate.block_ok Deflate.block_out] in *.
    apply Nat.leb_le in Hok.
    cbn [app Inflate.blocks]. rewrite <- !app_assoc.
    pose proof (length_pad_to_byte (k + 3)) as [Hpad Hpadded].
    rewrite stored_encode; [reflexivity | exact Hpad | | exact Hok].
    cbn [app length] in Haligned.
    rewrite !length_app, !length_bits_of, length_bits_of_bytes in Haligned.
    lia.
  - destruct fixed_tables_free as (Hlit & Hdist & Heob & _).
    cbn [Deflate.encode_block Deflate.block_ok Deflate.block_out] in *.
    cbn [app Inflate.blocks].
    rewrite (tokens_encode_block (Deflate.FixedBlock ts) ts out rest
               (Inflate.codes Inflate.fixed_lit_lengths)
               (Inflate.codes Inflate.fixed_dist_lengths)
               eq_refl eq_refl Hlit Hdist Heob Hok).
    reflexivity.
  - pose proof Hok as Hall.
    cbn [Deflate.block_ok] in Hok.
    repeat (apply andb_true_iff in Hok; destruct Hok as [Hok ?]).
    match goal with
    | H : Deflate.table_ok Inflate.LENS _ = true |- _ =>
        apply andb_true_iff in H; destruct H as [_ Hlit_free]
    end.
    match goal with
    | H : Deflate.table_ok Inflate.DISTS _ = true |- _ =>
        apply andb_true_iff in H; destruct H as [_ Hdist_free]
    end.
    cbn [Deflate.encode_block Deflate.block_out].
    cbn [app Inflate.blocks]. rewrite <- !app_assoc.
    rewrite (dynamic_tables_encode nlen ndist ncode cl items ts out _ Hall).
    match goal with
    | Heob : Deflate.coded _ 256 = true,
      Hts : Deflate.tokens_ok _ _ out ts = true |- _ =>
        rewrite (tokens_encode_block
                   (Deflate.DynamicBlock nlen ndist ncode cl items ts) ts out rest
                   _ _ eq_refl eq_refl Hlit_free Hdist_free Heob Hts)
    end.
    reflexivity.
Qed.

Lemma length_encode_block (k : nat) (final : bool) (b : Deflate.block) :
  (8 <= length (Deflate.encode_block k final b))%nat.
Proof.
  destruct b as [content | ts | nlen ndist ncode cl items ts];
    cbn [Deflate.encode_block].
  - rewrite !length_app, !length_bits_of. cbn [length]. lia.
  - unfold Deflate.encode_tokens. rewrite !length_app.
    destruct fixed_tables_free as (_ & _ & _ & Heob & _).
    cbn [Deflate.lit_table]. rewrite Heob. cbn [length]. lia.
  - rewrite !length_app, !length_bits_of. cbn [length]. lia.
Qed.

Lemma length_encode_blocks (bs : list Deflate.block) :
  forall k, (8 * length bs <= length (Deflate.encode_blocks k bs))%nat.
Proof.
  induction bs as [| b bs IH]; intros k; [cbn; lia |].
  cbn [Deflate.encode_blocks length]. rewrite length_app.
  pose proof (length_encode_block k (match bs with [] => true | _ => false end) b).
  specialize (IH (k + length (Deflate.encode_block k
                     (match bs with [] => true | _ => false end) b))%nat).
  lia.
Qed.

(** Reading the blocks of the description, the last of which is final. *)
Lemma blocks_encode (bs : list Deflate.block) :
  forall (k fuel : nat) (out : bytes) (tail : list bool),
    bs <> [] ->
    Deflate.blocks_ok out bs = true ->
    (length bs <= fuel)%nat ->
    ((k + length (Deflate.encode_blocks k bs) + length tail) mod 8 = 0)%nat ->
    Inflate.blocks fuel (Deflate.encode_blocks k bs ++ tail) out
    = Inflate.check tail (foldl Deflate.block_out out bs).
Proof.
  induction bs as [| b bs IH]; intros k fuel out tail Hne Hok Hfuel Haligned;
    [contradiction |].
  destruct fuel as [| fuel]; [cbn [length] in Hfuel; lia |].
  cbn [length] in Hfuel.
  cbn [Deflate.blocks_ok] in Hok. apply andb_true_iff in Hok.
  destruct Hok as [Hb Hok].
  cbn [Deflate.encode_blocks foldl] in *. rewrite <- app_assoc.
  rewrite length_app in Haligned.
  destruct bs as [| b' bs].
  - cbn [Deflate.encode_blocks app length foldl] in *.
    rewrite blocks_step; [reflexivity | exact Hb |]. lia.
  - rewrite blocks_step; [| exact Hb | rewrite length_app; lia].
    apply IH; [discriminate | exact Hok | lia | lia].
Qed.

Lemma length_bytes_of_bits (n : nat) (bits : list bool) :
  length bits = (8 * n)%nat -> length (Inflate.bytes_of_bits bits) = n.
Proof.
  revert bits. induction n as [| n IH]; intros bits Hlen.
  - destruct bits; [reflexivity | discriminate].
  - do 8 (destruct bits as [| ? bits]; [cbn [length] in Hlen; lia |]).
    cbn [Inflate.bytes_of_bits length]. rewrite IH; [reflexivity |].
    cbn [length] in Hlen. lia.
Qed.

(** What the decompressor makes of the blocks of a stream of the format
    with anything behind them: the contents, unless four bytes or more
    follow and the first four are not the Adler-32 of the contents. *)
Lemma inflate_frame (s : Deflate.stream) (trailer : bytes) :
  Deflate.stream_ok s = true ->
  Inflate.inflate (Deflate.frame s trailer)
  = if (length trailer <? 4)%nat then inr (Deflate.contents s)
    else if Stored.be_to_Z (take 4 trailer)
            =? Stored.adler32 (Deflate.contents s)
         then inr (Deflate.contents s)
         else Inflate.error "incorrect data check".
Proof.
  unfold Deflate.stream_ok, Deflate.header_ok. intros Hok.
  repeat (apply andb_true_iff in Hok; destruct Hok as [Hok ?]).
  assert (Hne : Deflate.body s <> []) by (destruct (Deflate.body s); congruence).
  unfold Deflate.frame, Inflate.inflate.
  rewrite Hok. cbn [negb].
  match goal with H : (Z.land _ 15 =? 8) = true |- _ => rewrite H end.
  match goal with H : (Z.land _ 32 =? 0) = true |- _ => rewrite H end.
  match goal with
  | H : (Z.shiftr _ 4 <=? 7) = true |- _ =>
      apply Z.leb_le in H;
      destruct (Z.ltb_spec 7 (Z.shiftr (byte_to_Z (Deflate.cmf s)) 4))
        as [Hbig | _]; [lia |]
  end.
  cbn [negb].
  assert (Hblocks : forall fuel tail,
            (length (Deflate.body s) <= fuel)%nat ->
            ((0 + length (Deflate.encode_blocks 0 (Deflate.body s))
              + length tail) mod 8 = 0)%nat ->
            Inflate.blocks fuel (Deflate.encode_blocks 0 (Deflate.body s) ++ tail) []
            = Inflate.check tail (foldl Deflate.block_out [] (Deflate.body s))).
  { intros fuel tail Hfuel Haligned.
    apply blocks_encode; assumption. }
  pose proof (length_pad_to_byte
                (length (Deflate.encode_blocks 0 (Deflate.body s))))
    as [Hpad Hpadded].
  pose proof (length_encode_blocks (Deflate.body s) 0) as Hlen.
  generalize dependent (Deflate.encode_blocks 0 (Deflate.body s)).
  intros bits Hblocks Hpad Hpadded Hlen.
  set (n := (length (bits ++ Deflate.pad_to_byte (length bits)) / 8)%nat).
  assert (Hn : length (bits ++ Deflate.pad_to_byte (length bits)) = (8 * n)%nat).
  { subst n. rewrite length_app. lia. }
  rewrite bits_of_bytes_app, (bits_of_bytes_of_bits n) by exact Hn.
  rewrite <- app_assoc.
  rewrite length_app, (length_bytes_of_bits n) by exact Hn.
  rewrite Hblocks.
  - unfold Deflate.contents. apply check_frame. exact Hpad.
  - rewrite length_app in Hn. lia.
  - rewrite length_app, length_bits_of_bytes. lia.
Qed.


End Blocks.

Section Compressors.








End Compressors.


(** * Payloads that zlib refuses, and payloads it does not *)

Section Refusals.

Lemma process_bytes_inflate_zlib (e : PUPEntry) (raw : bytes) :
  Z.testbit (flags e) 3 = true ->
  process_bytes (codec := Inflate.zlib) e raw
  = match Inflate.inflate raw with
    | inl msg => inl (ZlibError msg)
    | inr out => inr (set_data e out)
    end.
Proof.
  intros Hbit. rewrite process_bytes_inflate, compressed_testbit, Hbit.
  unfold inflate_stream. cbn [decompress decompressobj flush Inflate.zlib].
  destruct (Inflate.inflate raw) as [msg | out]; [reflexivity |].
  rewrite app_nil_r. reflexivity.
Qed.


(** X17: the check at the end of a compressed payload.  Behind the
    blocks of a stream of the format, four bytes or more of which the
    first four are not the Adler-32 of the contents make the entry fail
    with zlib's message; the right four bytes, with anything behind
    them, leave the contents as data; and so do fewer than four bytes,
    whatever they are: a check that has not arrived in full is not
    made. *)
Theorem process_bytes_data_check (e : PUPEntry) (s : Deflate.stream)
        (trailer : bytes) :
  Z.testbit (flags e) 3 = true ->
  Deflate.stream_ok s = true ->
  process_bytes (codec := Inflate.zlib) e (Deflate.frame s trailer)
  = if (length trailer <? 4)%nat then inr (set_data e (Deflate.contents s))
    else if Stored.be_to_Z (take 4 trailer)
            =? Stored.adler32 (Deflate.contents s)
         then inr (set_data e (Deflate.contents s))
         else inl (ZlibError
                     "Error -3 while decompressing data: incorrect data check").
Proof.
  intros Hbit Hok. rewrite process_bytes_inflate_zlib by exact Hbit.
  rewrite (inflate_frame s trailer Hok).
  destruct (length trailer <? 4)%nat; [reflexivity |].
  destruct (Stored.be_to_Z (take 4 trailer)
            =? Stored.adler32 (Deflate.contents s)); reflexivity.
Qed.

End Refusals.

(** * The format and the decompressor at sample inputs *)

(** The compressor of literals writes for ["hello"] what [zlib.compress]
    writes, and the stored one what it writes at level 0. *)
Example literals_hello : Deflate.encode (Deflate.literals hello) = zlib_hello.
Proof. vm_compute. reflexivity. Qed.

Example store_hello :
  Deflate.encode (Deflate.store hello) = Stored.compress hello
  /\ take 10 (Stored.compress hello) = truncated_hello.
Proof. split; vm_compute; reflexivity. Qed.

(** A stream with codes of its own, as [zlib.compress] wrote it, is a
    stream of the format, and the decompressor reads it. *)
Example sample_stream_ok :
  Deflate.stream_ok sample_stream = true
  /\ Deflate.encode sample_stream = zlib_sample
  /\ Deflate.contents sample_stream = sample_text
  /\ Inflate.inflate zlib_sample = inr sample_text.
Proof. repeat split; vm_compute; reflexivity. Qed.




Lemma process_bytes_data_check_witness :
  process_bytes (codec := Inflate.zlib) (mkPUPEntry 0x500008 64 28 24 [])
                (Deflate.frame sample_stream [x73; x65; x09; x3e])
  = (if (length [x73; x65; x09; x3e] <? 4)%nat
     then inr (set_data (mkPUPEntry 0x500008 64 28 24 [])
                        (Deflate.contents sample_stream))
     else if Stored.be_to_Z (take 4 [x73; x65; x09; x3e])
             =? Stored.adler32 (Deflate.contents sample_stream)
          then inr (set_data (mkPUPEntry 0x500008 64 28 24 [])
                             (Deflate.contents sample_stream))
          else inl (ZlibError
                      "Error -3 while decompressing data: incorrect data check")).
Proof.
  apply (process_bytes_data_check (mkPUPEntry 0x500008 64 28 24 [])
           sample_stream [x73; x65; x09; x3e]).
  - reflexivity.
  - vm_compute. reflexivity.
Defined.

(** The sample stream with the last bit of its check flipped, and with
    the last byte of its check missing. *)
Example sample_stream_spoiled :
  process_bytes (codec := Inflate.zlib) (mkPUPEntry 0x500008 64 28 24 [])
                (Deflate.frame sample_stream [x73; x65; x09; x3e])
  = inl (ZlibError "Error -3 while decompressing data: incorrect data check")
  /\ process_bytes (codec := Inflate.zlib) (mkPUPEntry 0x500008 64 27 24 [])
                   (Deflate.frame sample_stream [x73; x65; x09])
     = inr (mkPUPEntry 0x500008 64 27 24 sample_text).
Proof. split; vm_compute; reflexivity. Qed.
